(** * The mutable N-Gram trie ([ngram_trie.c]), embedded in Rocq

    Nodes live in a heap indexed by addresses, exactly as the C code keeps
    them behind [ngram_trie_node_t *]; every function that dereferences a
    pointer returns [None] when the C program would have no defined
    behaviour (dangling or out-of-range access, failed assertion, a loop
    model that ran out of fuel).  Logging ([E_INFO], [E_WARN], [E_ERROR])
    has no effect on the state and is left out. *)

From Stdlib Require Import ZArith QArith Qround String Ascii.
From Stdlib Require OrderedTypeEx.
From stdpp Require Import gmap strings list fin_maps.

Open Scope Z_scope.

(** ** Machine integers *)

(** A value stored into an [int16] field. *)
Definition wrap16 (z : Z) : Z := (z + 32768) mod 65536 - 32768.

(** A value computed at type [int32] / [int]. *)
Definition wrap32 (z : Z) : Z := (z + 2147483648) mod 4294967296 - 2147483648.

Definition BAD_S3WID : Z := -1.

(** ** Services the trie consumes *)

(** Modelled from the spec: the C library's [strcmp] on word surface forms;
    only the sign of the result is used by the callers. *)
Definition strcmp (a b : string) : Z :=
  match String.compare a b with
  | Lt => -1
  | Eq => 0
  | Gt => 1
  end.

(** Modelled from the spec: the dictionary service ([dict_t]), which maps
    word strings to dense integer IDs and back and supports insertion of
    new words.  IDs are positions in [dict_words]. *)
Record dict_t := {
  dict_refcount : Z;
  dict_words : list string
}.

(** Modelled from the spec: the search behind [dict_wordid], which
    answers [BAD_S3WID] for a string that is not a word. *)
Fixpoint dict_find (s : string) (ws : list string) (i : Z) : Z :=
  match ws with
  | [] => BAD_S3WID
  | x :: ws' => if String.eqb x s then i else dict_find s ws' (i + 1)
  end.

(** Modelled from the spec: [dict_wordid], [word_id(string) -> id |
    not_found]. *)
Definition dict_wordid (d : dict_t) (s : string) : Z :=
  dict_find s (dict_words d) 0.

(** Modelled from the spec: [dict_wordstr], [id_to_string(id) -> string].
    An ID outside the dictionary has no surface form in C, where reading
    one is undefined; it is given the empty string here, so what the
    functions below answer for such an ID is this development's
    convention and not a statement about the C code. *)
Definition dict_wordstr (d : dict_t) (w : Z) : string :=
  if w <? 0 then EmptyString
  else nth (Z.to_nat w) (dict_words d) EmptyString.

(** Modelled from the spec: [dict_add_word], [add_word(string) -> id]; the
    new word takes the next free ID. *)
Definition dict_add_word (d : dict_t) (s : string) : dict_t * Z :=
  ({| dict_refcount := dict_refcount d; dict_words := dict_words d ++ [s] |},
   Z.of_nat (length (dict_words d))).

(** Modelled from the spec: [dict_init(NULL, NULL)] creates an empty
    dictionary. *)
Definition dict_init : dict_t := {| dict_refcount := 1; dict_words := [] |}.

(** Modelled from the spec: shared-ownership retain and release of the
    dictionary. *)
Definition dict_retain (d : dict_t) : dict_t :=
  {| dict_refcount := wrap32 (dict_refcount d + 1); dict_words := dict_words d |}.

(** Modelled from the spec: see [dict_retain]. *)
Definition dict_free (d : dict_t) : dict_t :=
  {| dict_refcount := wrap32 (dict_refcount d - 1); dict_words := dict_words d |}.

(** Modelled from the spec: the log-math service ([logmath_t]), which turns
    a number read from the model file into a fixed-point log-domain
    integer.  Numbers read by [atof_c] are kept as exact rationals. *)
Record logmath_t := {
  lmath_refcount : Z;
  lmath_log : Q -> Z
}.

(** Modelled from the spec: [logmath_log], [log_of(probability) ->
    fixed_point_int]; the result is an [int]. *)
Definition logmath_log (lm : logmath_t) (p : Q) : Z := wrap32 (lmath_log lm p).

(** Modelled from the spec: shared-ownership retain and release of the
    log-math context. *)
Definition logmath_retain (lm : logmath_t) : logmath_t :=
  {| lmath_refcount := wrap32 (lmath_refcount lm + 1); lmath_log := lmath_log lm |}.

(** Modelled from the spec: see [logmath_retain]. *)
Definition logmath_free (lm : logmath_t) : logmath_t :=
  {| lmath_refcount := wrap32 (lmath_refcount lm - 1); lmath_log := lmath_log lm |}.

(** Modelled from the spec: the generic dynamic array ([garray_t]) with its
    two binary searches.  [go_right a] tells whether the search continues
    to the right of an entry [a]; it is [None] when the comparison callback
    cannot read the entry. *)
Fixpoint garray_bisect_loop {A : Type} (go_right : A -> option bool)
    (gar : list A) (fuel lo hi : nat) : option nat :=
  match fuel with
  | O => None
  | S fuel' =>
      if (lo <? hi)%nat then
        let mid := ((lo + hi) / 2)%nat in
        a ← gar !! mid;
        b ← go_right a;
        if (b : bool) then garray_bisect_loop go_right gar fuel' (mid + 1)%nat hi
        else garray_bisect_loop go_right gar fuel' lo mid
      else Some lo
  end.

(** Modelled from the spec: [garray_bisect_left], the leftmost position
    where the key would belong.  [cmp a] is the comparison callback applied
    to (entry, key). *)
Definition garray_bisect_left {A : Type} (cmp : A -> option Z) (gar : list A)
    : option nat :=
  garray_bisect_loop (fun a => c ← cmp a; Some (c <? 0)) gar
    (S (length gar)) 0%nat (length gar).

(** Modelled from the spec: [garray_bisect_right], the rightmost position
    where the key would belong.  [cmp a] is the comparison callback applied
    to (key, entry). *)
Definition garray_bisect_right {A : Type} (cmp : A -> option Z) (gar : list A)
    : option nat :=
  garray_bisect_loop (fun a => c ← cmp a; Some (negb (c <? 0))) gar
    (S (length gar)) 0%nat (length gar).

(** Modelled from the spec: [garray_next_idx], the number of entries. *)
Definition garray_next_idx {A : Type} (gar : list A) : nat := length gar.

(** Modelled from the spec: [garray_ent].  Reading past the end of the
    array is undefined. *)
Definition garray_ent {A : Type} (gar : list A) (idx : nat) : option A :=
  gar !! idx.

(** Modelled from the spec: [garray_append]. *)
Definition garray_append {A : Type} (gar : list A) (x : A) : list A :=
  gar ++ [x].

(** Modelled from the spec: [garray_insert], insertion at a rank. *)
Definition garray_insert {A : Type} (gar : list A) (pos : nat) (x : A) : list A :=
  take pos gar ++ x :: drop pos gar.

(** Modelled from the spec: [garray_delete], which removes the entries
    from [start] up to [stop], the latter excluded, and compacts. *)
Definition garray_delete {A : Type} (gar : list A) (start stop : nat) : list A :=
  take start gar ++ drop stop gar.

(** ** The data model *)

(** [struct ngram_trie_node_s]; node addresses are positive numbers and a
    nullable pointer is an [option]. *)
Record ngram_trie_node_s := {
  word : Z;
  log_prob : Z;
  log_bowt : Z;
  history : option positive;
  successors : list positive
}.

(** [struct ngram_trie_s]; [t_n] is the field [n].  The node pool
    ([node_alloc]) is the heap itself. *)
Record ngram_trie_s := {
  refcount : Z;
  dict : dict_t;
  gendict : bool;
  lmath : logmath_t;
  shift : Z;
  zero : Z;
  t_n : Z;
  counts : list Z;
  root : positive
}.

(** [struct ngram_trie_iter_s].  Its field [t] is left out: no function
    assigns it, and the one reader, [ngram_trie_next_node], only hands it
    on; the functions below take the trie as an argument. *)
Record ngram_trie_iter_s := {
  it_cur : positive;
  it_pos : Z;
  it_nostop : bool
}.

Abbreviation heap := (gmap positive ngram_trie_node_s).

Definition ngram_trie_nodeptr_cmp (t : ngram_trie_s)
    (na nb : ngram_trie_node_s) : Z :=
  strcmp (dict_wordstr (dict t) (word na)) (dict_wordstr (dict t) (word nb)).

(** The callback of a successor array reads the entry's node from the heap
    and compares it with the key node. *)
Definition cmp_ent_key (σ : heap) (t : ngram_trie_s) (key : ngram_trie_node_s)
    (p : positive) : option Z :=
  na ← σ !! p; Some (ngram_trie_nodeptr_cmp t na key).

Definition cmp_key_ent (σ : heap) (t : ngram_trie_s) (key : ngram_trie_node_s)
    (p : positive) : option Z :=
  nb ← σ !! p; Some (ngram_trie_nodeptr_cmp t key nb).

(** The node a search key lives in: only [word] is meaningful. *)
Definition key_node (w : Z) : ngram_trie_node_s :=
  {| word := w; log_prob := 0; log_bowt := 0; history := None; successors := [] |}.

(** Modelled from the spec: the node pool ([listelem_malloc]) hands out an
    address that is not in use. *)
Definition listelem_malloc (σ : heap) : positive := fresh (dom σ).

(** Modelled from the spec: [listelem_free] gives the address back to the
    pool; the node is no longer allocated. *)
Definition listelem_free (σ : heap) (p : positive) : heap := delete p σ.

Definition ngram_trie_node_alloc (σ : heap) : heap * positive :=
  let node := listelem_malloc σ in
  (<[node := {| word := -1; log_prob := 0; log_bowt := 0;
               history := None; successors := [] |}]> σ, node).

Definition ngram_trie_root (t : ngram_trie_s) : positive := root t.

Definition ngram_trie_successor_pos (σ : heap) (t : ngram_trie_s)
    (h : positive) (w : Z) : option nat :=
  hn ← σ !! h;
  garray_bisect_left (cmp_ent_key σ t (key_node w)) (successors hn).

Definition ngram_trie_successor (σ : heap) (t : ngram_trie_s)
    (h : positive) (w : Z) : option (option positive) :=
  pos ← ngram_trie_successor_pos σ t h w;
  hn ← σ !! h;
  if (garray_next_idx (successors hn) <=? pos)%nat then Some None
  else ng ← garray_ent (successors hn) pos; Some (Some ng).

Definition set_successors (nd : ngram_trie_node_s) (gar : list positive)
    : ngram_trie_node_s :=
  {| word := word nd; log_prob := log_prob nd; log_bowt := log_bowt nd;
     history := history nd; successors := gar |}.

Definition ngram_trie_delete_successor (σ : heap) (t : ngram_trie_s)
    (h : positive) (w : Z) : option (heap * Z) :=
  pos ← ngram_trie_successor_pos σ t h w;
  hn ← σ !! h;
  if (garray_next_idx (successors hn) <=? pos)%nat then Some (σ, -1)
  else
    ng ← garray_ent (successors hn) pos;
    let σ1 := listelem_free σ ng in
    hn1 ← σ1 !! h;
    Some (<[h := set_successors hn1 (garray_delete (successors hn1) pos (pos + 1))]> σ1, 0).

(** Insertion of the node at address [w] into the successor array of [h]:
    the common tail of [ngram_trie_add_successor] and
    [ngram_trie_add_successor_ngram]. *)
Definition insert_successor (σ : heap) (t : ngram_trie_s)
    (h w : positive) : option heap :=
  wn ← σ !! w;
  hn ← σ !! h;
  pos ← garray_bisect_right (cmp_key_ent σ t wn) (successors hn);
  let gar :=
    if (pos =? garray_next_idx (successors hn))%nat
    then garray_append (successors hn) w
    else garray_insert (successors hn) pos w in
  Some (<[h := set_successors hn gar]> σ).

Definition ngram_trie_add_successor (σ : heap) (t : ngram_trie_s)
    (h : positive) (w : Z) : option (heap * positive) :=
  let '(σ1, ng) := ngram_trie_node_alloc σ in
  let σ2 := <[ng := {| word := w; log_prob := 0; log_bowt := 0;
                       history := Some h; successors := [] |}]> σ1 in
  σ3 ← insert_successor σ2 t h ng;
  Some (σ3, ng).

Definition ngram_trie_add_successor_ngram (σ : heap) (t : ngram_trie_s)
    (h w : positive) : option (heap * Z) :=
  σ' ← insert_successor σ t h w;
  Some (σ', 0).

(** The [while (n_hist > 0)] loop of [ngram_trie_ngram_v].  Its result is
    [Some None] when the function returns NULL from inside the loop and
    [Some (Some node)] when the loop is left. *)
Fixpoint ngram_v_loop (fuel : nat) (σ : heap) (t : ngram_trie_s)
    (hist : list Z) (n_hist : Z) (node : positive) : option (option positive) :=
  match fuel with
  | O => None
  | S fuel' =>
      if 0 <? n_hist then
        nextwid ← hist !! Z.to_nat (n_hist - 1);
        r ← ngram_trie_successor σ t node nextwid;
        match r with
        | None => Some None
        | Some node' => ngram_v_loop fuel' σ t hist n_hist node'
        end
      else Some (Some node)
  end.

Definition ngram_trie_ngram_v (fuel : nat) (σ : heap) (t : ngram_trie_s)
    (w : Z) (hist : list Z) (n_hist : Z) : option (option positive) :=
  let node := ngram_trie_root t in
  let n_hist := if t_n t - 1 <? n_hist then t_n t - 1 else n_hist in
  r ← ngram_v_loop fuel σ t hist n_hist node;
  match r with
  | None => Some None
  | Some node' => ngram_trie_successor σ t node' w
  end.

(** [hist + 1] *)
Definition hist_next (hist : list Z) : list Z := drop 1 hist.

Fixpoint ngram_trie_bowt_v (fuel : nat) (σ : heap) (t : ngram_trie_s)
    (w : Z) (hist : list Z) (n_hist : Z) : option Z :=
  match fuel with
  | O => None
  | S fuel' =>
      r ← ngram_trie_ngram_v fuel' σ t w hist n_hist;
      match r with
      | Some ng => nd ← σ !! ng; Some (wrap32 (Z.shiftl (log_bowt nd) (shift t)))
      | None =>
          if 0 <? n_hist then
            h0 ← hist !! 0%nat;
            ngram_trie_bowt_v fuel' σ t h0 (hist_next hist) (n_hist - 1)
          else Some 0
      end
  end.

(** [n_used] is the cell behind the out-parameter: [None] for a NULL
    pointer, [Some v] for a cell that holds [v].  The function returns the
    probability and the cell afterwards. *)
Definition store_n_used (n_used : option Z) (v : Z) : option Z :=
  match n_used with
  | None => None
  | Some _ => Some (wrap32 v)
  end.

Definition decr_n_used (n_used : option Z) : option Z :=
  match n_used with
  | None => None
  | Some v => Some (wrap32 (v - 1))
  end.

Fixpoint ngram_trie_prob_v (fuel : nat) (σ : heap) (t : ngram_trie_s)
    (n_used : option Z) (w : Z) (hist : list Z) (n_hist : Z)
    : option (Z * option Z) :=
  match fuel with
  | O => None
  | S fuel' =>
      let n_used := store_n_used n_used (n_hist + 1) in
      r ← ngram_trie_ngram_v fuel' σ t w hist n_hist;
      match r with
      | Some ng => nd ← σ !! ng; Some (wrap32 (Z.shiftl (log_prob nd) (shift t)), n_used)
      | None =>
          if 0 <? n_hist then
            let n_used := decr_n_used n_used in
            '(bong, n_used) ← ngram_trie_prob_v fuel' σ t n_used w hist (n_hist - 1);
            h0 ← hist !! 0%nat;
            pong ← ngram_trie_bowt_v fuel' σ t h0 (hist_next hist) (n_hist - 1);
            Some (wrap32 (bong + pong), n_used)
          else Some (wrap32 (Z.shiftl (zero t) (shift t)), store_n_used n_used 0)
      end
  end.

(** The variadic front ends take the head word and the history words
    (most recent first, up to the terminating NULL) as strings. *)
Definition ngram_trie_ngram (fuel : nat) (σ : heap) (t : ngram_trie_s)
    (w : string) (hs : list string) : option (option positive) :=
  let wid := dict_wordid (dict t) w in
  let hist := map (dict_wordid (dict t)) hs in
  ngram_trie_ngram_v fuel σ t wid hist (Z.of_nat (length hs)).

Definition ngram_trie_prob (fuel : nat) (σ : heap) (t : ngram_trie_s)
    (n_used : option Z) (w : string) (hs : list string) : option (Z * option Z) :=
  let wid := dict_wordid (dict t) w in
  let hist := map (dict_wordid (dict t)) hs in
  ngram_trie_prob_v fuel σ t n_used wid hist (Z.of_nat (length hs)).

(** [MIN_LOGPROB], 1e-20 *)
Definition MIN_LOGPROB : Q := 1 # (10 ^ 20).

(** The loop of [ngram_trie_init] that finds the shift which fits [zero]
    in 16 bits. *)
Fixpoint init_shift_loop (fuel : nat) (zero shift : Z) : option (Z * Z) :=
  match fuel with
  | O => None
  | S fuel' =>
      if zero <? -32768
      then init_shift_loop fuel' (Z.shiftr zero 1) (wrap32 (shift + 1))
      else Some (zero, shift)
  end.

(** [d] is [None] for a NULL dictionary argument.  An [int] has 32 bits,
    so the shift loop is given 32 rounds. *)
Definition ngram_trie_init (σ : heap) (d : option dict_t) (lm : logmath_t)
    : option (heap * ngram_trie_s) :=
  let '(dict0, gendict0) :=
    match d with
    | Some d => (dict_retain d, false)
    | None => (dict_init, true)
    end in
  '(zero0, shift0) ← init_shift_loop 32 (logmath_log lm MIN_LOGPROB) 0;
  let '(σ', root0) := ngram_trie_node_alloc σ in
  Some (σ', {| refcount := 1; dict := dict0; gendict := gendict0;
               lmath := logmath_retain lm; shift := shift0; zero := zero0;
               t_n := 0; counts := []; root := root0 |}).

Definition set_refcount (t : ngram_trie_s) (rc : Z) : ngram_trie_s :=
  {| refcount := rc; dict := dict t; gendict := gendict t; lmath := lmath t;
     shift := shift t; zero := zero t; t_n := t_n t; counts := counts t;
     root := root t |}.

Definition ngram_trie_retain (t : ngram_trie_s) : ngram_trie_s :=
  set_refcount t (wrap32 (refcount t + 1)).

(** What [ngram_trie_free] leaves behind: its return value, the trie object
    ([None] once it has been released, or for a NULL argument), and the
    dictionary and log-math objects when they were released. *)
Record free_result := {
  free_ret : Z;
  free_trie : option ngram_trie_s;
  free_released : option (dict_t * logmath_t)
}.

Definition ngram_trie_free (t : option ngram_trie_s) : free_result :=
  match t with
  | None => {| free_ret := 0; free_trie := None; free_released := None |}
  | Some t =>
      let rc := wrap32 (refcount t - 1) in
      if 0 <? rc
      then {| free_ret := rc; free_trie := Some (set_refcount t rc);
              free_released := None |}
      else {| free_ret := 0; free_trie := None;
              free_released := Some (dict_free (dict t), logmath_free (lmath t)) |}
  end.

Definition ngram_trie_dict (t : ngram_trie_s) : dict_t := dict t.

Definition ngram_trie_lmath (t : ngram_trie_s) : logmath_t := lmath t.

(** ** Iterators *)

(** The descent [for (i = 1; i < n; ++i)] of [ngram_trie_ngrams], with
    [count] rounds left. *)
Fixpoint first_ngram (σ : heap) (h : positive) (count : nat) : option positive :=
  match count with
  | O => Some h
  | S count' =>
      hn ← σ !! h;
      h' ← garray_ent (successors hn) 0;
      first_ngram σ h' count'
  end.

Definition ngram_trie_ngrams (σ : heap) (t : ngram_trie_s) (n : Z)
    : option ngram_trie_iter_s :=
  h ← first_ngram σ (root t) (Z.to_nat (n - 1));
  Some {| it_cur := h; it_pos := 0; it_nostop := false |}.

Definition ngram_trie_successors (t : ngram_trie_s) (h : positive)
    : ngram_trie_iter_s :=
  {| it_cur := h; it_pos := 0; it_nostop := false |}.

(** [fuel] bounds the recursion up the [history] chain. *)
Fixpoint ngram_trie_next_node (fuel : nat) (σ : heap) (t : ngram_trie_s)
    (ng : positive) : option (option positive) :=
  match fuel with
  | O => None
  | S fuel' =>
      ngn ← σ !! ng;
      match history ngn with
      | None => Some None
      | Some h =>
          hn ← σ !! h;
          pos ← garray_bisect_left (cmp_ent_key σ t ngn) (successors hn);
          (* the two assertions *)
          ng' ← garray_ent (successors hn) pos;
          if negb (Pos.eqb ng ng') then None
          else
            let pos := S pos in
            if (pos =? garray_next_idx (successors hn))%nat then
              r ← ngram_trie_next_node fuel' σ t h;
              match r with
              | None => Some None
              | Some h' =>
                  hn' ← σ !! h';
                  c ← garray_ent (successors hn') 0;
                  Some (Some c)
              end
            else
              c ← garray_ent (successors hn) pos;
              Some (Some c)
      end
  end.

(** The result is [Some None] when the iterator was released and NULL
    returned. *)
Definition ngram_trie_iter_next (fuel : nat) (σ : heap) (t : ngram_trie_s)
    (itor : ngram_trie_iter_s) : option (option ngram_trie_iter_s) :=
  let pos := wrap32 (it_pos itor + 1) in
  cn ← σ !! it_cur itor;
  if Z.of_nat (garray_next_idx (successors cn)) <=? pos then
    if it_nostop itor then
      r ← ngram_trie_next_node fuel σ t (it_cur itor);
      match r with
      | None => Some None
      | Some cur' => Some (Some {| it_cur := cur'; it_pos := 0; it_nostop := it_nostop itor |})
      end
    else Some None
  else Some (Some {| it_cur := it_cur itor; it_pos := pos; it_nostop := it_nostop itor |}).

Definition ngram_trie_iter_up (σ : heap) (itor : ngram_trie_iter_s)
    : option (option ngram_trie_iter_s) :=
  cn ← σ !! it_cur itor;
  match history cn with
  | None => Some None
  | Some h => Some (Some {| it_cur := h; it_pos := it_pos itor; it_nostop := it_nostop itor |})
  end.

Definition ngram_trie_iter_down (σ : heap) (itor : ngram_trie_iter_s)
    : option (option ngram_trie_iter_s) :=
  cn ← σ !! it_cur itor;
  c ← garray_ent (successors cn) (Z.to_nat (it_pos itor));
  ccn ← σ !! c;
  if (garray_next_idx (successors ccn) =? 0)%nat then Some None
  else Some (Some {| it_cur := c; it_pos := 0; it_nostop := it_nostop itor |}).

Definition ngram_trie_iter_get (σ : heap) (itor : ngram_trie_iter_s)
    : option (option positive) :=
  cn ← σ !! it_cur itor;
  if Z.of_nat (garray_next_idx (successors cn)) <=? it_pos itor then Some None
  else c ← garray_ent (successors cn) (Z.to_nat (it_pos itor)); Some (Some c).

Definition ngram_trie_iter_get_parent (itor : ngram_trie_iter_s) : positive :=
  it_cur itor.

(** The enumeration a caller runs over an iterator:
    [for (; itor; itor = ngram_trie_iter_next(itor)) visit(ngram_trie_iter_get(itor));]
    It returns the nodes visited, in order. *)
Fixpoint iter_visit (fuel : nat) (σ : heap) (t : ngram_trie_s)
    (itor : ngram_trie_iter_s) : option (list (option positive)) :=
  match fuel with
  | O => None
  | S fuel' =>
      ng ← ngram_trie_iter_get σ itor;
      r ← ngram_trie_iter_next fuel' σ t itor;
      match r with
      | None => Some [ng]
      | Some itor' => rest ← iter_visit fuel' σ t itor'; Some (ng :: rest)
      end
  end.

(** ** The ARPA loader *)

(** Modelled from the spec: the C library's character classes and the
    string helpers of [strfuncs.h] ([string_trim] with [STRING_BOTH],
    [str2words], [atof_c]) together with [atoi].  Fields are separated by
    white space; numbers are decimal, [atof_c] reads a sign, an integer
    part and a fraction. *)
Definition isspace (c : ascii) : bool :=
  let k := N_of_ascii c in
  ((k =? 32) || ((9 <=? k) && (k <=? 13)))%N.

(** Modelled from the spec: the C library's [isdigit]. *)
Definition isdigit (c : ascii) : bool :=
  let k := N_of_ascii c in
  ((48 <=? k) && (k <=? 57))%N.

(** Modelled from the spec: the value of a decimal digit. *)
Definition digit_val (c : ascii) : Z := Z.of_N (N_of_ascii c) - 48.

(** Modelled from the spec: [string_trim], leading white space. *)
Fixpoint ltrim (s : string) : string :=
  match s with
  | EmptyString => EmptyString
  | String c s' => if isspace c then ltrim s' else s
  end.

(** Modelled from the spec: [string_trim], trailing white space. *)
Fixpoint rtrim (s : string) : string :=
  match s with
  | EmptyString => EmptyString
  | String c s' =>
      match rtrim s' with
      | EmptyString => if isspace c then EmptyString else String c EmptyString
      | r => String c r
      end
  end.

(** Modelled from the spec: [string_trim(buf, STRING_BOTH)]. *)
Definition string_trim (s : string) : string := rtrim (ltrim s).

(** Modelled from the spec: the scan of [str2words] over white-space
    separated fields; [cur] is the word being read, last character
    first. *)
Fixpoint split_words (s : string) (cur : list ascii) : list string :=
  match s with
  | EmptyString =>
      match cur with
      | [] => []
      | _ => [string_of_list_ascii (rev cur)]
      end
  | String c s' =>
      if isspace c then
        match cur with
        | [] => split_words s' []
        | _ => string_of_list_ascii (rev cur) :: split_words s' []
        end
      else split_words s' (c :: cur)
  end.

(** Modelled from the spec: [str2words], the fields of a line. *)
Definition str2words (buf : string) : list string := split_words buf [].

(** Modelled from the spec: the C library's [strlen]. *)
Definition strlen (s : string) : Z := Z.of_nat (String.length s).

(** Modelled from the spec: number reading for [atoi] and [atof_c].
    The digits at the front of [s]: their value after [acc], how many
    there are, and the rest of the string. *)
Fixpoint read_digits (s : string) (acc : Z) (k : nat) : Z * nat * string :=
  match s with
  | EmptyString => (acc, k, EmptyString)
  | String c s' =>
      if isdigit c then read_digits s' (10 * acc + digit_val c) (S k)
      else (acc, k, s)
  end.

(** Modelled from the spec: an optional sign at the front of [s]. *)
Definition read_sign (s : string) : bool * string :=
  match s with
  | String "-" s' => (true, s')
  | String "+" s' => (false, s')
  | _ => (false, s)
  end.

(** Modelled from the spec: the C library's [atoi]. *)
Definition atoi (s : string) : Z :=
  let '(neg, s1) := read_sign (ltrim s) in
  let '(v, _, _) := read_digits s1 0 0 in
  wrap32 (if (neg : bool) then - v else v).

(** Modelled from the spec: [atof_c], on decimal numbers without an
    exponent; the value is kept exact. *)
Definition atof_c (s : string) : Q :=
  let '(neg, s1) := read_sign (ltrim s) in
  let '(ip, _, s2) := read_digits s1 0 0 in
  let '(num, den) :=
    match s2 with
    | String "." s3 =>
        let '(v, k, _) := read_digits s3 ip 0 in (v, Z.to_pos (10 ^ Z.of_nat k))
    | _ => (ip, 1%positive)
    end in
  (if (neg : bool) then - num else num) # den.

(** The scan of [read_ngrams] over the digits that follow the backslash
    of a section marker. *)
Fixpoint skip_digits (s : string) : string :=
  match s with
  | EmptyString => EmptyString
  | String c s' => if isdigit c then skip_digits s' else s
  end.

(** [buf + k] *)
Fixpoint string_drop (k : nat) (s : string) : string :=
  match k, s with
  | O, _ => s
  | S k', String _ s' => string_drop k' s'
  | S _, EmptyString => EmptyString
  end.

(** Modelled from the spec: the C library's [strchr].
    [strchr(s, c)] followed by the split [*c++ = 0]: the text before the
    first [c] and the text after it, or [None] when [c] does not occur. *)
Fixpoint strchr_split (s : string) (c : ascii) : option (string * string) :=
  match s with
  | EmptyString => None
  | String x s' =>
      if Ascii.eqb x c then Some (EmptyString, s')
      else '(a, b) ← strchr_split s' c; Some (String x a, b)
  end.

(** Modelled from the spec: the line iterator ([lineiter_t]) over the lines
    of the input.  The iterator is the list of lines from the current one
    on; it is empty once the input is exhausted (the C iterator is then
    released and NULL). *)
Definition lineiter_start (arpafile : list string) : list string := arpafile.

(** Modelled from the spec: [lineiter_next] moves to the next line. *)
Definition lineiter_next (li : list string) : list string := drop 1 li.

Fixpoint skip_arpa_header (li : list string) : Z * list string :=
  match li with
  | [] => (-1, [])
  | buf :: rest =>
      let buf := string_trim buf in
      if strcmp buf "\data\" =? 0 then (0, buf :: rest)
      else skip_arpa_header rest
  end.

(** Modelled from the spec: [garray_expand_to] followed by [garray_put]. *)
Definition counts_put (counts : list Z) (ni ci : Z) : list Z :=
  let size := Z.to_nat (ni + 1) in
  let counts := counts ++ replicate (size - length counts)%nat 0 in
  <[Z.to_nat ni := ci]> counts.

(** The loop of [read_ngram_counts]; the result is [None] for a negative
    order in a count line, whose array write is undefined. *)
Fixpoint read_ngram_counts_loop (li : list string) (counts : list Z)
    : option (Z * list Z * list string) :=
  match li with
  | [] => Some (Z.of_nat (length counts) - 1, counts, [])
  | buf :: rest =>
      let buf := string_trim buf in
      if strlen buf =? 0 then Some (Z.of_nat (length counts) - 1, counts, buf :: rest)
      else if String.prefix "ngram " buf then
        match strchr_split (string_drop 6 buf) "=" with
        | None => Some (-1, counts, buf :: rest)
        | Some (n, c) =>
            if strlen c =? 0 then Some (-1, counts, buf :: rest)
            else
              let ni := atoi n in
              let ci := atoi c in
              if ni <? 0 then None
              else read_ngram_counts_loop rest (counts_put counts ni ci)
        end
      else read_ngram_counts_loop rest counts
  end.

Definition read_ngram_counts (li : list string) (counts : list Z)
    : option (Z * list Z * list string) :=
  read_ngram_counts_loop li [1].

Definition set_dict (t : ngram_trie_s) (d : dict_t) : ngram_trie_s :=
  {| refcount := refcount t; dict := d; gendict := gendict t; lmath := lmath t;
     shift := shift t; zero := zero t; t_n := t_n t; counts := counts t;
     root := root t |}.

Definition set_counts (t : ngram_trie_s) (n : Z) (cs : list Z) : ngram_trie_s :=
  {| refcount := refcount t; dict := dict t; gendict := gendict t; lmath := lmath t;
     shift := shift t; zero := zero t; t_n := n; counts := cs;
     root := root t |}.

(** The loop of [add_ngram_line] that resolves the history words
    [wids[i] = dict_wordid(wptr[n-i])] for [i] up to [n-1], with [count]
    rounds left; [Some None] when a word is unknown. *)
Fixpoint hist_wids (d : dict_t) (wptr : list string) (n i : Z) (count : nat)
    : option (option (list Z)) :=
  match count with
  | O => Some (Some [])
  | S count' =>
      s ← wptr !! Z.to_nat (n - i);
      let wid := dict_wordid d s in
      if wid =? BAD_S3WID then Some None
      else
        r ← hist_wids d wptr n (i + 1) count';
        match r with
        | None => Some None
        | Some l => Some (Some (wid :: l))
        end
  end.

(** The loop of [add_ngram_line] that compares the cached history node,
    walking up its [history] chain, with the line's history words; it
    returns the final [i]. *)
Fixpoint match_history (σ : heap) (wids : list Z) (h : option positive)
    (i n : Z) (count : nat) : option Z :=
  match count with
  | O => Some i
  | S count' =>
      match h with
      | None => Some i
      | Some hp =>
          if i <? n then
            hn ← σ !! hp;
            wi ← wids !! Z.to_nat i;
            if word hn =? wi then match_history σ wids (history hn) (i + 1) n count'
            else Some i
          else Some i
      end
  end.

(** The result holds the heap, the trie (its dictionary may have grown),
    the cached history node afterwards and the node returned (NULL for a
    line that was not added). *)
Definition add_ngram_line (fuel : nat) (σ : heap) (t : ngram_trie_s)
    (buf : string) (n : Z) (last_history : option positive)
    : option (heap * ngram_trie_s * option positive * option positive) :=
  let wptr := str2words buf in
  let nwords := Z.of_nat (length wptr) in
  if n + 2 <? nwords then None
  else if nwords <? n + 1 then Some (σ, t, last_history, None)
  else
    w0 ← wptr !! 0%nat;
    let prob := atof_c w0 in
    bowt ← (if nwords =? n + 2
            then s ← wptr !! Z.to_nat (n + 1); Some (atof_c s)
            else Some 0%Q);
    wn ← wptr !! Z.to_nat n;
    let wid0 := dict_wordid (dict t) wn in
    let head :=
      if wid0 =? BAD_S3WID then
        if gendict t then
          let '(d', wid) := dict_add_word (dict t) wn in Some (set_dict t d', wid)
        else None
      else Some (t, wid0) in
    match head with
    | None => Some (σ, t, last_history, None)
    | Some (t, wid0) =>
        hw ← hist_wids (dict t) wptr n 1 (Z.to_nat (n - 1));
        match hw with
        | None => Some (σ, t, last_history, None)
        | Some hw =>
            let wids := wid0 :: hw in
            lh ← (if n =? 1 then
                    match last_history with
                    | Some h => if Pos.eqb h (root t) then Some last_history else None
                    | None => None
                    end
                  else
                    i ← match_history σ wids last_history 1 n (Z.to_nat (n - 1));
                    if i <? n then
                      w1 ← wids !! 1%nat;
                      ngram_trie_ngram_v fuel σ t w1 (drop 2 wids) (n - 2)
                    else Some last_history);
            match lh with
            | None => Some (σ, t, None, None)
            | Some h =>
                '(σ1, node) ← ngram_trie_add_successor σ t h wid0;
                nd ← σ1 !! node;
                let nd' :=
                  {| word := word nd;
                     log_prob := wrap16 (Z.shiftr (logmath_log (lmath t) prob) (shift t));
                     log_bowt := wrap16 (Z.shiftr (logmath_log (lmath t) bowt) (shift t));
                     history := Some h;
                     successors := successors nd |} in
                Some (<[node := nd']> σ1, t, Some h, Some node)
            end
        end
    end.

(** The loop of [read_ngrams] over the remaining lines.  The result holds
    the return value, the heap, the trie and the iterator afterwards. *)
Fixpoint read_ngrams_loop (fuel : nat) (li : list string) (σ : heap)
    (t : ngram_trie_s) (n : Z) (last_history : option positive)
    : option (Z * heap * ngram_trie_s * list string) :=
  match li with
  | [] => Some (-1, σ, t, [])
  | buf :: rest =>
      let buf := string_trim buf in
      if strlen buf =? 0 then read_ngrams_loop fuel rest σ t n last_history
      else if strcmp buf "\end\" =? 0 then Some (0, σ, t, buf :: rest)
      else
        match buf with
        | String "\" tl =>
            let is_marker :=
              match tl with
              | String c _ => isdigit c
              | EmptyString => false
              end in
            if negb is_marker then Some (-1, σ, t, buf :: rest)
            else if negb (strcmp (skip_digits tl) "-grams:" =? 0)
            then Some (-1, σ, t, buf :: rest)
            else
              let nn := atoi tl in
              if n <? nn then Some (nn, σ, t, buf :: rest)
              else read_ngrams_loop fuel rest σ t n last_history
        | _ =>
            '(σ', t', last_history', node) ← add_ngram_line fuel σ t buf n last_history;
            match node with
            | None => Some (-1, σ', t', buf :: rest)
            | Some _ => read_ngrams_loop fuel rest σ' t' n last_history'
            end
        end
  end.

Definition read_ngrams (fuel : nat) (σ : heap) (t : ngram_trie_s)
    (li : list string) (n : Z) : option (Z * heap * ngram_trie_s * list string) :=
  let last_history := if n =? 1 then Some (root t) else None in
  read_ngrams_loop fuel li σ t n last_history.

(** The loop [while ((n = read_ngrams(t, li, n)) > 1);] of
    [ngram_trie_read_arpa], with [rounds] rounds left.  The result holds
    the iterator afterwards as well. *)
Fixpoint read_all_ngrams (rounds fuel : nat) (σ : heap) (t : ngram_trie_s)
    (li : list string) (n : Z) : option (Z * heap * ngram_trie_s * list string) :=
  match rounds with
  | O => None
  | S rounds' =>
      '(n', σ', t', li') ← read_ngrams fuel σ t li n;
      if 1 <? n' then read_all_ngrams rounds' fuel σ' t' li' n'
      else Some (n', σ', t', li')
  end.

(** [arpafile] is the text of the model file, line by line.  The result
    holds the status, the heap and the trie afterwards.  When the input
    runs out [lineiter_next] releases the iterator; the caller still holds
    its address, so a later use of it, by [read_ngrams] or by
    [lineiter_free], is undefined. *)
Definition ngram_trie_read_arpa (fuel : nat) (σ : heap) (t : ngram_trie_s)
    (arpafile : list string) : option (Z * heap * ngram_trie_s) :=
  let li := lineiter_start arpafile in
  let '(st, li) := skip_arpa_header li in
  if st <? 0 then Some (-1, σ, t)
  else
    '(n, cs, li) ← read_ngram_counts li (counts t);
    let t := set_counts t n cs in
    if n <? 0 then Some (-1, σ, t)
    else
      match li with
      | [] => None
      | _ =>
          '(n, σ', t', li') ← read_all_ngrams (S (S (length li))) fuel σ t li 1;
          match li' with
          | [] => None
          | _ => if n <? 0 then Some (-1, σ', t') else Some (0, σ', t')
          end
      end.

(** ** Vocabulary of the statements *)

(** [bounded σ d p]: the node at [p] is allocated and every chain of
    successor pointers that starts there ends after fewer than [d] hops at
    a node without successors, all of its nodes being allocated.  A trie
    built by [ngram_trie_add_successor] has this shape. *)
Fixpoint bounded (σ : heap) (d : nat) (p : positive) : bool :=
  match d with
  | O => false
  | S d' =>
      match σ !! p with
      | None => false
      | Some nd => forallb (bounded σ d') (successors nd)
      end
  end.

Definition str_le (a b : string) : Prop := strcmp a b <= 0.

Definition node_wordstr (σ : heap) (t : ngram_trie_s) (p : positive)
    : option string :=
  nd ← σ !! p; Some (dict_wordstr (dict t) (word nd)).

(** The surface forms met when the successor array [gar] is iterated. *)
Definition succ_wordstrs (σ : heap) (t : ngram_trie_s) (gar : list positive)
    : option (list string) :=
  mapM (node_wordstr σ t) gar.

Definition nondecreasing (ks : list string) : Prop :=
  ∀ (i j : nat) a b, (i < j)%nat → ks !! i = Some a → ks !! j = Some b → str_le a b.

Definition strictly_increasing (ks : list string) : Prop :=
  ∀ (i j : nat) a b, (i < j)%nat → ks !! i = Some a → ks !! j = Some b → strcmp a b < 0.

(** A call of the mutation interface on a node [h]; the caller holds a
    pointer to an allocated node. *)
Inductive trie_op :=
  | op_add (h : positive) (w : Z)
  | op_delete (h : positive) (w : Z).

Definition run_op (σ : heap) (t : ngram_trie_s) (op : trie_op) : option heap :=
  match op with
  | op_add h w =>
      _ ← σ !! h; r ← ngram_trie_add_successor σ t h w; Some r.1
  | op_delete h w =>
      _ ← σ !! h; r ← ngram_trie_delete_successor σ t h w; Some r.1
  end.

Fixpoint run_ops (σ : heap) (t : ngram_trie_s) (ops : list trie_op) : option heap :=
  match ops with
  | [] => Some σ
  | op :: ops' => σ' ← run_op σ t op; run_ops σ' t ops'
  end.

(** The invariant the mutation interface keeps: the entries of a successor
    array are distinct allocated nodes whose [history] is the owner of the
    array, and their surface forms do not decrease. *)
Definition trie_inv (σ : heap) (t : ngram_trie_s) : Prop :=
  ∀ p nd, σ !! p = Some nd →
    NoDup (successors nd) ∧
    (∀ c, c ∈ successors nd → ∃ cn, σ !! c = Some cn ∧ history cn = Some p) ∧
    (∃ ks, succ_wordstrs σ t (successors nd) = Some ks ∧ nondecreasing ks).

(** Along successor pointers the depth [dp] grows by one and stays below
    [M]; successor entries are allocated. *)
Definition depth_inv (σ : heap) (dp : positive → nat) (M : nat) : Prop :=
  ∀ p nd, σ !! p = Some nd →
    (dp p ≤ M)%nat ∧
    ∀ c, c ∈ successors nd → is_Some (σ !! c) ∧ dp c = S (dp p).

(** What holds of a trie made by [ngram_trie_init] and changed through the
    mutation interface: the invariant above, a depth for every node, and a
    root without history. *)
Definition built_inv (σ : heap) (t : ngram_trie_s) : Prop :=
  trie_inv σ t ∧
  (∃ dp M, depth_inv σ dp M) ∧
  (∃ rn, σ !! root t = Some rn ∧ history rn = None).

(** What the loader keeps: depths for all nodes, an allocated root and an
    allocated cached history node. *)
Definition load_inv (σ : heap) (t : ngram_trie_s) (lh : option positive) : Prop :=
  (∃ dp M, depth_inv σ dp M) ∧ is_Some (σ !! root t) ∧
  ∀ h, lh = Some h → is_Some (σ !! h).

(** The backoff-weight lookup as the specification words it: when the node
    is absent the oldest history word is dropped (the head word and the
    newer history words stay). *)
Fixpoint bowt_drop_oldest (fuel : nat) (σ : heap) (t : ngram_trie_s)
    (w : Z) (hist : list Z) (n_hist : Z) : option Z :=
  match fuel with
  | O => None
  | S fuel' =>
      r ← ngram_trie_ngram_v fuel' σ t w hist n_hist;
      match r with
      | Some ng => nd ← σ !! ng; Some (wrap32 (Z.shiftl (log_bowt nd) (shift t)))
      | None =>
          if 0 <? n_hist then bowt_drop_oldest fuel' σ t w hist (n_hist - 1)
          else Some 0
      end
  end.

(** The number of backoff steps a probability query takes, and whether a
    node is found in the end. *)
Fixpoint backoff_steps (fuel : nat) (σ : heap) (t : ngram_trie_s)
    (w : Z) (hist : list Z) (n_hist : Z) : option (Z * bool) :=
  match fuel with
  | O => None
  | S fuel' =>
      r ← ngram_trie_ngram_v fuel' σ t w hist n_hist;
      match r with
      | Some _ => Some (0, true)
      | None =>
          if 0 <? n_hist then
            '(k, found) ← backoff_steps fuel' σ t w hist (n_hist - 1);
            Some (k + 1, found)
          else Some (0, false)
      end
  end.

(** The quantized form of a value of the model file, as
    [ngram_trie_prob_v] returns it for a stored node. *)
Definition quantized (t : ngram_trie_s) (x : Q) : Z :=
  wrap32 (Z.shiftl (wrap16 (Z.shiftr (logmath_log (lmath t) x) (shift t))) (shift t)).

(** ** Sample models *)

(** A log-math service that scales its argument by 100. *)
Definition lmath_centi : logmath_t :=
  {| lmath_refcount := 1; lmath_log := fun q => Qfloor (q * 100) |}.

(** Initialisation followed by loading. *)
Definition load_arpa (fuel : nat) (d : option dict_t) (lm : logmath_t)
    (arpafile : list string) : option (Z * heap * ngram_trie_s) :=
  '(σ, t) ← ngram_trie_init ∅ d lm;
  ngram_trie_read_arpa fuel σ t arpafile.

Definition scenario_A : list string :=
  [ "\data\"; "ngram 1=3"; "ngram 2=1"; "";
    "\1-grams:"; "-1.0 a"; "-2.0 b"; "-3.0 <unk>"; "";
    "\2-grams:"; "-0.5 a b"; "";
    "\end\" ]%string.

(** Three bigrams under the two histories [a] and [b]. *)
Definition scenario_C : list string :=
  [ "\data\"; "ngram 1=2"; "ngram 2=3"; "";
    "\1-grams:"; "-1.0 a"; "-1.0 b"; "";
    "\2-grams:"; "-0.5 a b"; "-0.5 a c"; "-0.5 b a"; "";
    "\end\" ]%string.

(** Unigrams with backoff weights. *)
Definition scenario_bowt : list string :=
  [ "\data\"; "ngram 1=2"; "ngram 2=1"; "";
    "\1-grams:"; "-1.0 a -0.3"; "-2.0 b -0.7"; "";
    "\2-grams:"; "-0.5 a a"; "";
    "\end\" ]%string.

Definition dict_abc : dict_t :=
  {| dict_refcount := 1; dict_words := ["a"; "b"; "c"]%string |}.

Definition dict_a : dict_t :=
  {| dict_refcount := 1; dict_words := ["a"]%string |}.

Definition dict_abz : dict_t :=
  {| dict_refcount := 1; dict_words := ["a"; "b"; "z"]%string |}.

(** A unigram the fixed dictionary does not know. *)
Definition arpa_unknown_unigram : list string :=
  [ "\data\"; "ngram 1=2"; "";
    "\1-grams:"; "-1.0 a"; "-2.0 b"; "";
    "\end\" ]%string.

(** A bigram whose history word is not in the dictionary. *)
Definition arpa_unknown_history_word : list string :=
  [ "\data\"; "ngram 1=2"; "ngram 2=2"; "";
    "\1-grams:"; "-1.0 a"; "-2.0 b"; "";
    "\2-grams:"; "-0.5 zz b"; "-0.5 a b"; "";
    "\end\" ]%string.

(** A bigram whose history word is in the dictionary but has no unigram. *)
Definition arpa_unknown_history_path : list string :=
  [ "\data\"; "ngram 1=2"; "ngram 2=2"; "";
    "\1-grams:"; "-1.0 a"; "-2.0 b"; "";
    "\2-grams:"; "-0.5 z a"; "-0.5 a b"; "";
    "\end\" ]%string.

(** The iterator of [ngram_trie_ngrams] switched to the mode its comment
    announces. *)
Definition set_nostop (itor : ngram_trie_iter_s) : ngram_trie_iter_s :=
  {| it_cur := it_cur itor; it_pos := it_pos itor; it_nostop := true |}.

(** The root with the two successors [a] and [c], built through the
    mutation interface over the dictionary [a], [b], [c]. *)
Definition trie_ac : option (heap * ngram_trie_s) :=
  '(σ, t) ← ngram_trie_init ∅ (Some dict_abc) lmath_centi;
  σ' ← run_ops σ t [op_add (root t) 0; op_add (root t) 2];
  Some (σ', t).

(** ** More of the interface *)

(** A trie made by [ngram_trie_init] and changed by a sequence of calls of
    the mutation interface. *)
Definition build_trie (d : option dict_t) (lm : logmath_t) (ops : list trie_op)
    : option (heap * ngram_trie_s) :=
  '(σ0, t) ← ngram_trie_init ∅ d lm;
  σ ← run_ops σ0 t ops;
  Some (σ, t).

(** A steep log-math table: -460540 for [MIN_LOGPROB] and below, about
    what the base 1.0001 gives, and [(q - 1) * 100000] above. *)
Definition lmath_steep : logmath_t :=
  {| lmath_refcount := 1;
     lmath_log := fun q => if Qle_bool q MIN_LOGPROB then -460540
                           else Qfloor ((q - 1) * 100000) |}.

(** Every node carries the word -1 or the ID of a word of the
    dictionary. *)
Definition words_known (σ : heap) (t : ngram_trie_s) : Prop :=
  ∀ p nd, σ !! p = Some nd →
    -1 ≤ word nd < Z.of_nat (length (dict_words (dict t))).

(** ** Cepstrum files: the order of the bytes *)

(** A value computed at type [uint32]. *)
Definition wrapu32 (z : Z) : Z := z mod 4294967296.

(** The macro [SWABL] at type [uint32], the type at which the reordering
    loop of [cep_read_bin] uses it. *)
Definition SWABL (x : Z) : Z :=
  Z.lor (Z.lor (Z.lor
    (Z.land (wrapu32 (Z.shiftl x 24)) 4278190080)
    (Z.land (wrapu32 (Z.shiftl x 8)) 16711680))
    (Z.land (Z.shiftr x 8) 65280))
    (Z.land (Z.shiftr x 24) 255).

(** The loop of [cep_read_bin] that reorders the bytes of the words read,
    [for (i = 0; i < cnt; i++) ptr[i] = SWABL(ptr[i])] with
    [cnt = readBytes >> 2].  The buffer is the list of its [uint32] words;
    a write past its end is undefined. *)
Definition cep_reorder (ptr : list Z) (readBytes : Z) : option (list Z) :=
  let cnt := Z.to_nat (Z.shiftr readBytes 2) in
  if (cnt <=? length ptr)%nat
  then Some (map SWABL (take cnt ptr) ++ drop cnt ptr)%list
  else None.

(** The byte of rank [k] of a word, rank 0 being the least significant. *)
Definition byte_at (x k : Z) : Z := Z.land (Z.shiftr x (8 * k)) 255.

(** ** Histories of nodes *)

(** The loop of [ngram_trie_node_get_word_hist].  [out_hist] is [None]
    for a NULL buffer and otherwise holds the cells of the buffer; a write
    through NULL or past the last cell is undefined, and so is the read of
    the word of a NULL history. *)
Fixpoint get_word_hist_loop (fuel : nat) (σ : heap) (h : option positive)
    (out_hist : option (list Z)) (n_hist : Z) : option (Z * option (list Z)) :=
  match fuel with
  | O => None
  | S fuel' =>
      hp ← h;
      hn ← σ !! hp;
      if word hn =? -1 then Some (n_hist, out_hist)
      else
        buf ← out_hist;
        if (Z.to_nat n_hist <? length buf)%nat then
          get_word_hist_loop fuel' σ (history hn)
            (Some (<[Z.to_nat n_hist := word hn]> buf)) (wrap32 (n_hist + 1))
        else None
  end.

(** The result holds the return value and the buffer afterwards. *)
Definition ngram_trie_node_get_word_hist (fuel : nat) (σ : heap)
    (t : ngram_trie_s) (ng : positive) (out_hist : option (list Z))
    : option (Z * option (list Z)) :=
  ngn ← σ !! ng;
  get_word_hist_loop fuel σ (history ngn) out_hist 0.

(** Modelled from the spec: [ckd_calloc] gives a buffer of [n] cells that
    hold zero. *)
Definition ckd_calloc (n : Z) : list Z := replicate (Z.to_nat n) 0.

Definition ngram_trie_backoff (fuel : nat) (σ : heap) (t : ngram_trie_s)
    (ng : positive) : option (option positive) :=
  '(n_hist, _) ← ngram_trie_node_get_word_hist fuel σ t ng None;
  let hist := ckd_calloc n_hist in
  '(_, hist) ← ngram_trie_node_get_word_hist fuel σ t ng (Some hist);
  hist ← hist;
  ngn ← σ !! ng;
  ngram_trie_ngram_v fuel σ t (word ngn) hist (n_hist - 1).

(** The buffer passed to the second call is [hist + 1], the cells of
    [hist] after the first one. *)
Definition ngram_trie_successor_prob (fuel : nat) (σ : heap) (t : ngram_trie_s)
    (h : positive) (w : Z) : option Z :=
  '(k, _) ← ngram_trie_node_get_word_hist fuel σ t h None;
  let n_hist := wrap32 (k + 1) in
  let hist := ckd_calloc n_hist in
  '(_, older) ← ngram_trie_node_get_word_hist fuel σ t h (Some (drop 1 hist));
  older ← older;
  hn ← σ !! h;
  let hist := <[0%nat := word hn]> (take 1 hist ++ older)%list in
  '(prob, _) ← ngram_trie_prob_v fuel σ t None w hist n_hist;
  Some prob.

Definition ngram_trie_calc_bowt (t : ngram_trie_s) (h : positive) : Z := 0.

Definition ngram_trie_write_arpa (t : ngram_trie_s) : Z := 0.

(** [hist_chain σ h ws]: the history pointers from [h] on lead through
    nodes with the words [ws], none of them -1, to a node with the
    word -1. *)
Inductive hist_chain (σ : heap) : option positive → list Z → Prop :=
  | hist_chain_end hp hn :
      σ !! hp = Some hn → word hn = -1 → hist_chain σ (Some hp) []
  | hist_chain_step hp hn w ws :
      σ !! hp = Some hn → word hn = w → w ≠ -1 →
      hist_chain σ (history hn) ws →
      hist_chain σ (Some hp) (w :: ws).

(** The lines of a section of 3-Grams. *)
Definition section_trigrams : list string :=
  [ "-0.3 a b a"; "-0.4 b a b"; "\end\" ]%string.

(** ** Unigram values *)

(** What [ngram_trie_prob_v] returns for the empty history: the stored
    probability of the node that [ngram_trie_successor] finds for [w]
    below the root, or the floor value when it finds none. *)
Definition unigram_prob (σ : heap) (t : ngram_trie_s) (w : Z) : option Z :=
  r ← ngram_trie_successor σ t (root t) w;
  match r with
  | Some ng => nd ← σ !! ng; Some (wrap32 (Z.shiftl (log_prob nd) (shift t)))
  | None => Some (wrap32 (Z.shiftl (zero t) (shift t)))
  end.

(** What [ngram_trie_bowt_v] returns for the empty history: the stored
    backoff weight of that node, or 0. *)
Definition unigram_bowt (σ : heap) (t : ngram_trie_s) (w : Z) : option Z :=
  r ← ngram_trie_successor σ t (root t) w;
  match r with
  | Some ng => nd ← σ !! ng; Some (wrap32 (Z.shiftl (log_bowt nd) (shift t)))
  | None => Some 0
  end.

(** The unigram backoff weights of the words [hist] added to [acc] one
    after the other, at type [int32]. *)
Fixpoint add_unigram_bowts (σ : heap) (t : ngram_trie_s) (acc : Z)
    (hist : list Z) : option Z :=
  match hist with
  | [] => Some acc
  | h :: hist' =>
      b ← unigram_bowt σ t h;
      add_unigram_bowts σ t (wrap32 (acc + b)) hist'
  end.

(** A count line that [read_ngram_counts] refuses: it starts with
    [ngram ] and has no [=] after that, or nothing after the [=]. *)
Definition bad_count_line (l : string) : bool :=
  String.prefix "ngram " l &&
  match strchr_split (string_drop 6 l) "=" with
  | None => true
  | Some (_, c) => strlen c =? 0
  end.

(* ================================================================== *)
(** * Properties *)

Local Open Scope string_scope.
Local Open Scope Z_scope.

Ltac eval_conj := repeat (apply conj); try (vm_compute; reflexivity).

Ltac osimpl := cbn [mbind option_bind mret option_ret].
Tactic Notation "osimpl" "in" hyp(H) := cbn [mbind option_bind mret option_ret] in H.

(** ** The binary search always answers *)

Lemma bisect_mid (lo hi : nat) :
  (lo < hi)%nat → (lo ≤ (lo + hi) / 2 ∧ (lo + hi) / 2 < hi)%nat.
Proof.
  intros H.
  pose proof (Nat.div_mod_eq (lo + hi) 2) as E.
  pose proof (Nat.mod_upper_bound (lo + hi) 2) as B.
  lia.
Qed.

Lemma garray_bisect_loop_total {A : Type} (g : A → option bool) (gar : list A) :
  (∀ a, a ∈ gar → is_Some (g a)) →
  ∀ fuel lo hi,
    (lo ≤ hi)%nat → (hi ≤ length gar)%nat → (hi - lo < fuel)%nat →
    ∃ pos, garray_bisect_loop g gar fuel lo hi = Some pos ∧ (lo ≤ pos ≤ hi)%nat.
Proof.
  intros Hg. induction fuel as [|fuel IH]; intros lo hi Hle Hhi Hfuel; [lia|].
  cbn [garray_bisect_loop]. destruct (lo <? hi)%nat eqn:Hlt.
  - apply Nat.ltb_lt in Hlt. destruct (bisect_mid lo hi Hlt) as [M1 M2].
    destruct (lookup_lt_is_Some_2 gar ((lo + hi) / 2)) as [a Ha]; [lia|].
    rewrite Ha. osimpl.
    destruct (Hg a) as [b Hb]; [by eapply list_elem_of_lookup_2|].
    rewrite Hb. osimpl. destruct b.
    + destruct (IH ((lo + hi) / 2 + 1)%nat hi) as (pos & E & B); [lia..|].
      exists pos. split; [done|lia].
    + destruct (IH lo ((lo + hi) / 2)%nat) as (pos & E & B); [lia..|].
      exists pos. split; [done|lia].
  - apply Nat.ltb_ge in Hlt. exists lo. split; [done|lia].
Qed.

(** ** Lookups in a trie of bounded depth *)

Lemma bounded_inv (σ : heap) d p :
  bounded σ d p = true →
  ∃ d' nd, d = S d' ∧ σ !! p = Some nd ∧
           ∀ c, c ∈ successors nd → bounded σ d' c = true.
Proof.
  destruct d as [|d']; [discriminate|]. simpl.
  destruct (σ !! p) as [nd|] eqn:E; [|discriminate].
  intros H. exists d', nd. repeat split.
  intros c Hc. rewrite forallb_forall in H. apply H. by apply list_elem_of_In.
Qed.

Lemma bounded_live (σ : heap) d p : bounded σ d p = true → is_Some (σ !! p).
Proof. intros H. destruct (bounded_inv _ _ _ H) as (? & nd & _ & E & _). eauto. Qed.

Lemma cmp_ent_key_total (σ : heap) t key p :
  is_Some (σ !! p) → is_Some (cmp_ent_key σ t key p).
Proof. intros [nd E]. unfold cmp_ent_key. rewrite E. osimpl. eauto. Qed.

Lemma successor_pos_total (σ : heap) t h hn w :
  σ !! h = Some hn →
  (∀ c, c ∈ successors hn → is_Some (σ !! c)) →
  ∃ pos, ngram_trie_successor_pos σ t h w = Some pos ∧
         (pos ≤ length (successors hn))%nat.
Proof.
  intros Hh Hc. unfold ngram_trie_successor_pos, garray_bisect_left.
  rewrite Hh. osimpl.
  destruct (garray_bisect_loop_total
              (λ a, c ← cmp_ent_key σ t (key_node w) a; Some (c <? 0))
              (successors hn)) with (fuel := S (length (successors hn)))
              (lo := 0%nat) (hi := length (successors hn))
    as (pos & E & B); [|lia..|].
  - intros a Ha. destruct (cmp_ent_key_total σ t (key_node w) a (Hc a Ha)) as [c Ec].
    rewrite Ec. osimpl. eauto.
  - exists pos. split; [exact E|lia].
Qed.

Lemma successor_total (σ : heap) t h hn w :
  σ !! h = Some hn →
  (∀ c, c ∈ successors hn → is_Some (σ !! c)) →
  ∃ r, ngram_trie_successor σ t h w = Some r ∧
       ∀ c, r = Some c → c ∈ successors hn.
Proof.
  intros Hh Hc. unfold ngram_trie_successor.
  destruct (successor_pos_total σ t h hn w Hh Hc) as (pos & E & B).
  rewrite E, Hh. osimpl. unfold garray_next_idx, garray_ent.
  destruct (length (successors hn) <=? pos)%nat eqn:L.
  - exists None. split; [done|]. intros c [=].
  - apply Nat.leb_gt in L.
    destruct (lookup_lt_is_Some_2 (successors hn) pos L) as [ng Hng].
    rewrite Hng. osimpl. exists (Some ng). split; [done|].
    intros c [= <-]. by eapply list_elem_of_lookup_2.
Qed.

(** The loop of [ngram_trie_ngram_v] never leaves through its condition
    once it has been entered: [n_hist] is not changed by the body. *)
Lemma ngram_v_loop_entered (σ : heap) t hist n_hist :
  0 < n_hist →
  ∀ fuel node r, ngram_v_loop fuel σ t hist n_hist node = Some r → r = None.
Proof.
  intros Hn. induction fuel as [|fuel IH]; intros node r; [discriminate|].
  cbn [ngram_v_loop]. destruct (0 <? n_hist) eqn:E; [|lia].
  destruct (hist !! Z.to_nat (n_hist - 1)) as [nextwid|]; [|discriminate]. osimpl.
  destruct (ngram_trie_successor σ t node nextwid) as [[node'|]|]; osimpl;
    [apply IH| congruence | discriminate].
Qed.

Lemma ngram_v_loop_total (σ : heap) t hist n_hist :
  (0 < n_hist → (Z.to_nat (n_hist - 1) < length hist)%nat) →
  ∀ d fuel node,
    bounded σ d node = true → (d ≤ fuel)%nat →
    ∃ r, ngram_v_loop fuel σ t hist n_hist node = Some r ∧
         (n_hist ≤ 0 → r = Some node).
Proof.
  intros Hh. induction d as [|d IH]; intros fuel node Hb Hf; [discriminate|].
  destruct fuel as [|fuel]; [lia|].
  destruct (bounded_inv _ _ _ Hb) as (d' & nd & [= <-] & Hnd & Hc).
  cbn [ngram_v_loop]. destruct (0 <? n_hist) eqn:E.
  - apply Z.ltb_lt in E.
    destruct (lookup_lt_is_Some_2 hist _ (Hh E)) as [nextwid Hw].
    rewrite Hw. osimpl.
    destruct (successor_total σ t node nd nextwid Hnd) as (r & Hr & Hin).
    { intros c Hcin. eapply bounded_live, Hc, Hcin. }
    rewrite Hr. osimpl. destruct r as [node'|].
    + destruct (IH fuel node') as (r' & Hr' & _); [by apply Hc, Hin | lia |].
      exists r'. split; [done|lia].
    + exists None. split; [done|lia].
  - exists (Some node). split; done.
Qed.

Lemma ngram_v_total (σ : heap) t d w hist n_hist :
  bounded σ d (root t) = true →
  (n_hist ≤ Z.of_nat (length hist)) →
  ∀ fuel, (d ≤ fuel)%nat →
    ∃ r, ngram_trie_ngram_v fuel σ t w hist n_hist = Some r ∧
         ∀ ng, r = Some ng → is_Some (σ !! ng).
Proof.
  intros Hb Hn fuel Hf. unfold ngram_trie_ngram_v, ngram_trie_root.
  set (n' := if t_n t - 1 <? n_hist then t_n t - 1 else n_hist).
  assert (Hn' : n' ≤ n_hist) by (subst n'; destruct (Z.ltb_spec (t_n t - 1) n_hist); lia).
  destruct (ngram_v_loop_total σ t hist n') with (d := d) (fuel := fuel) (node := root t)
    as (r & Hr & Hexit); [lia|done|done|].
  rewrite Hr. osimpl. destruct r as [node'|].
  - destruct (Z.lt_ge_cases 0 n') as [Hpos|Hneg].
    + by apply (ngram_v_loop_entered _ _ _ _ Hpos) in Hr.
    + specialize (Hexit Hneg) as [= ->].
      destruct (bounded_inv _ _ _ Hb) as (d' & nd & -> & Hnd & Hc).
      destruct (successor_total σ t (root t) nd w Hnd) as (r & Hr' & Hin).
      { intros c Hcin. eapply bounded_live, Hc, Hcin. }
      exists r. split; [done|]. intros ng ->. eapply bounded_live, Hc, Hin. done.
  - exists None. split; [done|]. intros ng [=].
Qed.

Lemma ngram_v_total_nat (σ : heap) t d w hist (k fuel : nat) :
  bounded σ d (root t) = true →
  (k ≤ length hist)%nat → (d ≤ fuel)%nat →
  ∃ r, ngram_trie_ngram_v fuel σ t w hist (Z.of_nat k) = Some r ∧
       ∀ ng, r = Some ng → is_Some (σ !! ng).
Proof. intros Hb Hk Hf. apply (ngram_v_total σ t d); [done|lia|done]. Qed.

(** ** More fuel does not change an answer *)

Lemma ngram_v_loop_mono (σ : heap) t hist n_hist :
  ∀ fuel fuel' node r,
    (fuel ≤ fuel')%nat →
    ngram_v_loop fuel σ t hist n_hist node = Some r →
    ngram_v_loop fuel' σ t hist n_hist node = Some r.
Proof.
  induction fuel as [|fuel IH]; intros fuel' node r Hle; [discriminate|].
  destruct fuel' as [|fuel']; [lia|].
  cbn [ngram_v_loop]. destruct (0 <? n_hist); [|done].
  destruct (hist !! Z.to_nat (n_hist - 1)) as [nextwid|]; [|discriminate]. osimpl.
  destruct (ngram_trie_successor σ t node nextwid) as [[node'|]|]; osimpl;
    [apply IH; lia | done | discriminate].
Qed.

Lemma ngram_v_mono (σ : heap) t w hist n_hist fuel fuel' r :
  (fuel ≤ fuel')%nat →
  ngram_trie_ngram_v fuel σ t w hist n_hist = Some r →
  ngram_trie_ngram_v fuel' σ t w hist n_hist = Some r.
Proof.
  intros Hle. unfold ngram_trie_ngram_v.
  destruct (ngram_v_loop fuel σ t hist _ _) as [r0|] eqn:E; [|discriminate].
  rewrite (ngram_v_loop_mono _ _ _ _ _ _ _ _ Hle E). done.
Qed.

Lemma bowt_v_mono (σ : heap) t :
  ∀ fuel fuel' w hist n_hist v,
    (fuel ≤ fuel')%nat →
    ngram_trie_bowt_v fuel σ t w hist n_hist = Some v →
    ngram_trie_bowt_v fuel' σ t w hist n_hist = Some v.
Proof.
  induction fuel as [|fuel IH]; intros fuel' w hist n_hist v Hle; [discriminate|].
  destruct fuel' as [|fuel']; [lia|].
  cbn [ngram_trie_bowt_v].
  destruct (ngram_trie_ngram_v fuel σ t w hist n_hist) as [r|] eqn:E; [|discriminate].
  rewrite (ngram_v_mono _ _ _ _ _ fuel fuel' r ltac:(lia) E). osimpl.
  destruct r as [ng|]; [done|].
  destruct (0 <? n_hist); [|done].
  destruct (hist !! 0%nat) as [h0|]; [|discriminate]. osimpl.
  apply IH. lia.
Qed.

Lemma prob_v_mono (σ : heap) t :
  ∀ fuel fuel' n_used w hist n_hist v,
    (fuel ≤ fuel')%nat →
    ngram_trie_prob_v fuel σ t n_used w hist n_hist = Some v →
    ngram_trie_prob_v fuel' σ t n_used w hist n_hist = Some v.
Proof.
  induction fuel as [|fuel IH]; intros fuel' n_used w hist n_hist v Hle; [discriminate|].
  destruct fuel' as [|fuel']; [lia|].
  cbn [ngram_trie_prob_v].
  destruct (ngram_trie_ngram_v fuel σ t w hist n_hist) as [r|] eqn:E; [|discriminate].
  rewrite (ngram_v_mono _ _ _ _ _ fuel fuel' r ltac:(lia) E). osimpl.
  destruct r as [ng|]; [done|].
  destruct (0 <? n_hist); [|done].
  destruct (ngram_trie_prob_v fuel σ t _ w hist (n_hist - 1)) as [[bong nu]|] eqn:P;
    [|discriminate].
  rewrite (IH fuel' _ _ _ _ _ ltac:(lia) P). osimpl.
  destruct (hist !! 0%nat) as [h0|]; [|discriminate]. osimpl.
  destruct (ngram_trie_bowt_v fuel σ t h0 _ _) as [pong|] eqn:B; [|discriminate].
  rewrite (bowt_v_mono σ t fuel fuel' _ _ _ _ ltac:(lia) B). done.
Qed.

(** ** The recursions on the history length end *)

Lemma bowt_v_total (σ : heap) t d :
  bounded σ d (root t) = true →
  ∀ (k : nat) w hist fuel,
    (k ≤ length hist)%nat → (d + k + 1 ≤ fuel)%nat →
    is_Some (ngram_trie_bowt_v fuel σ t w hist (Z.of_nat k)).
Proof.
  intros Hb. induction k as [|k IH]; intros w hist fuel Hk Hf;
    (destruct fuel as [|fuel]; [lia|]); cbn [ngram_trie_bowt_v];
    (destruct (ngram_v_total_nat σ t d w hist _ fuel Hb Hk ltac:(lia))
      as (r & -> & Hlive)); osimpl; destruct r as [ng|].
  - destruct (Hlive ng eq_refl) as [nd ->]. osimpl. eauto.
  - simpl. eauto.
  - destruct (Hlive ng eq_refl) as [nd ->]. osimpl. eauto.
  - destruct (0 <? Z.of_nat (S k)) eqn:E; [|eauto].
    destruct hist as [|h0 rest]; [simpl in Hk; lia|]. osimpl.
    change ((h0 :: rest) !! 0%nat) with (Some h0). osimpl.
    replace (Z.of_nat (S k) - 1) with (Z.of_nat k) by lia.
    apply IH; [simpl in *; unfold hist_next; simpl; rewrite drop_0; lia | lia].
Qed.

Lemma prob_v_total (σ : heap) t d :
  bounded σ d (root t) = true →
  ∀ (k : nat) n_used w hist fuel,
    (k ≤ length hist)%nat → (d + k + 1 ≤ fuel)%nat →
    is_Some (ngram_trie_prob_v fuel σ t n_used w hist (Z.of_nat k)).
Proof.
  intros Hb. induction k as [|k IH]; intros n_used w hist fuel Hk Hf;
    (destruct fuel as [|fuel]; [lia|]); cbn [ngram_trie_prob_v];
    (destruct (ngram_v_total_nat σ t d w hist _ fuel Hb Hk ltac:(lia))
      as (r & -> & Hlive)); osimpl; destruct r as [ng|].
  - destruct (Hlive ng eq_refl) as [nd ->]. osimpl. eauto.
  - simpl. eauto.
  - destruct (Hlive ng eq_refl) as [nd ->]. osimpl. eauto.
  - destruct (0 <? Z.of_nat (S k)) eqn:E; [|eauto].
    replace (Z.of_nat (S k) - 1) with (Z.of_nat k) by lia.
    destruct (IH (decr_n_used (store_n_used n_used (Z.of_nat (S k) + 1))) w hist fuel)
      as [[bong nu] ->]; [lia..|]. osimpl.
    destruct hist as [|h0 rest]; [simpl in Hk; lia|].
    change ((h0 :: rest) !! 0%nat) with (Some h0). osimpl.
    destruct (bowt_v_total σ t d Hb k h0 (hist_next (h0 :: rest)) fuel) as [pong ->];
      [unfold hist_next; simpl; rewrite drop_0; simpl in Hk; lia | lia |].
    osimpl. eauto.
Qed.

(** In a trie of bounded depth, a finite tree under the root, the path
    lookup and the probability query return for every word ID of the
    dictionary and every history, whatever its length (an ID outside the
    dictionary is compared by the empty string, see [dict_wordstr]); the answer does not depend on the fuel
    once there is enough of it, and the fuel the query needs grows by one
    per history word.  When the node is absent the query calls itself and
    the weight lookup with the history length less one, and for an empty
    history it answers with the trie's minimum.  The loop of the lookup
    ends there because each round descends one level, not because the
    history length decreases. *)
Theorem prob_v_terminates (σ : heap) (t : ngram_trie_s) (d : nat)
    (n_used : option Z) (w : Z) (hist : list Z) :
  bounded σ d (root t) = true →
  (∃ r, ∀ fuel, (d ≤ fuel)%nat →
        ngram_trie_ngram_v fuel σ t w hist (Z.of_nat (length hist)) = Some r) ∧
  (∃ r, ∀ fuel, (d + length hist + 1 ≤ fuel)%nat →
        ngram_trie_prob_v fuel σ t n_used w hist (Z.of_nat (length hist)) = Some r) ∧
  (∀ fuel n_hist,
     ngram_trie_ngram_v fuel σ t w hist n_hist = Some None →
     ngram_trie_prob_v (S fuel) σ t n_used w hist n_hist =
       if 0 <? n_hist then
         '(bong, nu) ← ngram_trie_prob_v fuel σ t
                          (decr_n_used (store_n_used n_used (n_hist + 1)))
                          w hist (n_hist - 1);
         h0 ← hist !! 0%nat;
         pong ← ngram_trie_bowt_v fuel σ t h0 (hist_next hist) (n_hist - 1);
         Some (wrap32 (bong + pong), nu)
       else
         Some (wrap32 (Z.shiftl (zero t) (shift t)),
               store_n_used (store_n_used n_used (n_hist + 1)) 0)).
Proof.
  intros Hb. split; [|split].
  - destruct (ngram_v_total σ t d w hist (Z.of_nat (length hist)) Hb ltac:(lia) d)
      as (r & Hr & _); [lia|].
    exists r. intros fuel Hf. eapply ngram_v_mono; eauto.
  - destruct (prob_v_total σ t d Hb (length hist) n_used w hist (d + length hist + 1))
      as [r Hr]; [lia..|].
    exists r. intros fuel Hf. eapply prob_v_mono; eauto.
  - intros fuel n_hist Habsent. cbn [ngram_trie_prob_v]. rewrite Habsent. done.
Qed.

Lemma ngram_v_fuel_indep (σ : heap) t d w hist (k fuel : nat) :
  bounded σ d (root t) = true →
  (k ≤ length hist)%nat → (d ≤ fuel)%nat →
  ngram_trie_ngram_v fuel σ t w hist (Z.of_nat k)
  = ngram_trie_ngram_v d σ t w hist (Z.of_nat k).
Proof.
  intros Hb Hk Hf.
  destruct (ngram_v_total_nat σ t d w hist k d Hb Hk ltac:(lia)) as (r & Hr & _).
  rewrite Hr. eapply ngram_v_mono; eauto.
Qed.

Lemma prob_v_terminates_witness :
  ∃ σ t,
    load_arpa 10 None lmath_centi scenario_A = Some (0, σ, t) ∧
    bounded σ 3 (root t) = true ∧
    (∃ r, ∀ fuel, (3 ≤ fuel)%nat →
          ngram_trie_ngram_v fuel σ t 1 [0] (Z.of_nat (length [0])) = Some r) ∧
    (∃ r, ∀ fuel, (3 + length [0] + 1 ≤ fuel)%nat →
          ngram_trie_prob_v fuel σ t None 1 [0] (Z.of_nat (length [0])) = Some r).
Proof.
  eexists _, _.
  split; [vm_compute; reflexivity|].
  match goal with
  | |- bounded ?σ 3 ?r = true ∧ _ =>
      assert (Hb : bounded σ 3 r = true) by (vm_compute; reflexivity)
  end.
  split; [exact Hb|].
  destruct (prob_v_terminates _ _ 3 None 1 [0] Hb) as (Hlookup & Hquery & _).
  split; [exact Hlookup|exact Hquery].
Defined.

(** Where the successor pointers lead in a circle, the loop of
    [ngram_trie_ngram_v], which leaves [n_hist] as it is, goes round
    without end. *)
Lemma ngram_v_loop_cycle (σ : heap) t hist n_hist w (a b : positive) :
  0 < n_hist →
  hist !! Z.to_nat (n_hist - 1) = Some w →
  ngram_trie_successor σ t a w = Some (Some b) →
  ngram_trie_successor σ t b w = Some (Some a) →
  ∀ fuel, ngram_v_loop fuel σ t hist n_hist a = None ∧
          ngram_v_loop fuel σ t hist n_hist b = None.
Proof.
  intros Hn Hw Hab Hba. induction fuel as [|fuel [IHa IHb]]; [done|].
  cbn [ngram_v_loop].
  replace (0 <? n_hist) with true by (symmetry; apply Z.ltb_lt; lia).
  rewrite Hw. osimpl. rewrite Hab, Hba. osimpl. done.
Qed.

Lemma ngram_v_on_cycle (σ : heap) t hist n_hist w (a b : positive) :
  0 < n_hist → n_hist ≤ t_n t - 1 →
  hist !! Z.to_nat (n_hist - 1) = Some w →
  ngram_trie_successor σ t (root t) w = Some (Some a) →
  ngram_trie_successor σ t a w = Some (Some b) →
  ngram_trie_successor σ t b w = Some (Some a) →
  ∀ fuel x, ngram_trie_ngram_v fuel σ t x hist n_hist = None.
Proof.
  intros Hn Ht Hw Hra Hab Hba fuel x. unfold ngram_trie_ngram_v, ngram_trie_root.
  replace (t_n t - 1 <? n_hist) with false by (symmetry; apply Z.ltb_ge; lia).
  destruct fuel as [|fuel]; [done|]. cbn [ngram_v_loop].
  replace (0 <? n_hist) with true by (symmetry; apply Z.ltb_lt; lia).
  rewrite Hw. osimpl. rewrite Hra. osimpl.
  by rewrite (proj1 (ngram_v_loop_cycle σ t hist n_hist w a b Hn Hw Hab Hba fuel)).
Qed.

Lemma prob_v_on_cycle (σ : heap) t hist n_hist :
  (∀ fuel x, ngram_trie_ngram_v fuel σ t x hist n_hist = None) →
  ∀ fuel n_used x, ngram_trie_prob_v fuel σ t n_used x hist n_hist = None.
Proof.
  intros Hv fuel n_used x. destruct fuel as [|fuel]; [done|].
  cbn [ngram_trie_prob_v]. by rewrite Hv.
Qed.

(** C1 (the code departs from it): the loop of [ngram_trie_ngram_v] does
    not shorten the history, it tests the unchanged [n_hist] and descends
    one successor per round.  It ends only where the successors end: in a
    trie whose successor pointers lead in a circle, here the model of two
    unigrams and the bigram [a a] after the call
    [ngram_trie_add_successor_ngram] that enters the unigram [a] below
    that bigram, every round of the loop is defined, the state after two
    rounds is the state before, and neither the lookup nor the probability
    query for a word after the history [a] returns, whatever the fuel. *)
Theorem ngram_v_never_returns_on_cycle :
  ∃ σ t σ',
    load_arpa 10 None lmath_centi scenario_bowt = Some (0, σ, t) ∧
    ngram_trie_add_successor_ngram σ t 4 2 = Some (σ', 0) ∧
    dict_wordid (dict t) "a" = 0 ∧
    node_wordstr σ' t 2 = Some "a" ∧ node_wordstr σ' t 4 = Some "a" ∧
    ngram_trie_successor σ' t (root t) 0 = Some (Some 2%positive) ∧
    ngram_trie_successor σ' t 2 0 = Some (Some 4%positive) ∧
    ngram_trie_successor σ' t 4 0 = Some (Some 2%positive) ∧
    (∀ fuel, ngram_v_loop (S (S fuel)) σ' t [0] 1 2
             = ngram_v_loop fuel σ' t [0] 1 2) ∧
    (∀ fuel w, ngram_trie_ngram_v fuel σ' t w [0] 1 = None) ∧
    (∀ fuel n_used w, ngram_trie_prob_v fuel σ' t n_used w [0] 1 = None) ∧
    (∀ fuel, ngram_trie_prob fuel σ' t None "a" ["a"] = None).
Proof.
  eexists _, _, _.
  split; [vm_compute; reflexivity|]. split; [vm_compute; reflexivity|].
  split; [vm_compute; reflexivity|]. split; [vm_compute; reflexivity|].
  split; [vm_compute; reflexivity|].
  match goal with
  | |- ?R ∧ ?A ∧ ?B ∧ _ =>
      assert (Hr : R) by (vm_compute; reflexivity);
      assert (Ha : A) by (vm_compute; reflexivity);
      assert (Hb : B) by (vm_compute; reflexivity)
  end.
  split; [exact Hr|]. split; [exact Ha|]. split; [exact Hb|].
  match type of Ha with
  | ngram_trie_successor ?s ?t _ _ = _ =>
      assert (Hv : ∀ fuel w, ngram_trie_ngram_v fuel s t w [0] 1 = None)
        by (apply (ngram_v_on_cycle s t [0] 1 0 2 4);
            [lia|vm_compute; discriminate|reflexivity|exact Hr|exact Ha|exact Hb])
  end.
  split.
  { intros fuel. cbn [ngram_v_loop]. change (0 <? 1) with true. cbv iota.
    change ([0] !! Z.to_nat (1 - 1)) with (Some 0). osimpl.
    rewrite Ha. osimpl. change (0 <? 1) with true. cbv iota.
    change ([0] !! Z.to_nat (1 - 1)) with (Some 0). osimpl.
    rewrite Hb. osimpl. done. }
  split; [exact Hv|]. split; [by apply prob_v_on_cycle|].
  intros fuel. unfold ngram_trie_prob. by apply prob_v_on_cycle.
Qed.

(** ** Lookups with a history *)

(** Whatever the trie holds, a lookup with a history in a model of order
    two or more returns NULL: the loop of [ngram_trie_ngram_v] can only be
    left through [return NULL]. *)
Lemma ngram_v_with_history_is_null (σ : heap) t fuel w hist n_hist r :
  0 < n_hist → 1 < t_n t →
  ngram_trie_ngram_v fuel σ t w hist n_hist = Some r → r = None.
Proof.
  intros Hn Ht. unfold ngram_trie_ngram_v.
  set (n' := if t_n t - 1 <? n_hist then t_n t - 1 else n_hist).
  assert (0 < n') by (subst n'; destruct (Z.ltb_spec (t_n t - 1) n_hist); lia).
  destruct (ngram_v_loop fuel σ t hist n' (ngram_trie_root t)) as [r0|] eqn:E;
    [|discriminate].
  apply ngram_v_loop_entered in E as ->; [|done]. osimpl. congruence.
Qed.

(** C6 (the code departs from it): after loading scenario A the bigram
    [a b] is stored with the quantized form of -0.5, yet the query for
    [b] after [a] does not find it: it returns the unigram backoff
    quantized(-2.0) + quantized(0.0), the same value as the query for [b]
    after [<unk>]. *)
Theorem scenario_A_bigram_not_found :
  ∃ σ t ng nd h,
    load_arpa 10 None lmath_centi scenario_A = Some (0, σ, t) ∧
    σ !! ng = Some nd ∧
    node_wordstr σ t ng = Some "b" ∧
    history nd = Some h ∧
    node_wordstr σ t h = Some "a" ∧
    wrap32 (Z.shiftl (log_prob nd) (shift t)) = quantized t (-0.5) ∧
    ngram_trie_ngram 10 σ t "b" ["a"] = Some None ∧
    ngram_trie_prob 10 σ t None "b" ["a"]
      = Some (wrap32 (quantized t (-2.0) + quantized t 0.0), None) ∧
    quantized t (-0.5) ≠ wrap32 (quantized t (-2.0) + quantized t 0.0) ∧
    ngram_trie_prob 10 σ t None "b" ["<unk>"]
      = Some (wrap32 (quantized t (-2.0) + quantized t 0.0), None).
Proof.
  eexists _, _, 5%positive, _, _. eval_conj.
  vm_compute. discriminate.
Qed.

(** ** Lookup and deletion at an inexact position *)

(** C2 (the code departs from it): [ngram_trie_successor] returns the
    entry at the insertion point without checking that its word is the one
    asked for.  Under a root whose successors are [a] and [c], the lookup
    of [b] returns the node of [c] instead of NULL. *)
Theorem successor_returns_other_word :
  ∃ σ t hn ng,
    trie_ac = Some (σ, t) ∧
    σ !! root t = Some hn ∧
    succ_wordstrs σ t (successors hn) = Some ["a"; "c"] ∧
    dict_wordstr (dict t) 1 = "b" ∧
    ngram_trie_successor σ t (root t) 1 = Some (Some ng) ∧
    node_wordstr σ t ng = Some "c".
Proof. do 4 eexists. eval_conj. Qed.

(** C4 (the code departs from it): [ngram_trie_delete_successor] removes
    the entry at the insertion point whatever its word.  Under a root
    whose successors are [a] and [c], deleting the absent [b] returns 0
    and removes [c]; and after deleting [a], which is present, the lookup
    of [a] still returns a node, that of [c]. *)
Theorem delete_successor_removes_other_word :
  ∃ σ t σ1 hn1 σ2 ng,
    trie_ac = Some (σ, t) ∧
    dict_wordstr (dict t) 1 = "b" ∧
    ngram_trie_delete_successor σ t (root t) 1 = Some (σ1, 0) ∧
    σ1 !! root t = Some hn1 ∧
    succ_wordstrs σ1 t (successors hn1) = Some ["a"] ∧
    dict_wordstr (dict t) 0 = "a" ∧
    ngram_trie_delete_successor σ t (root t) 0 = Some (σ2, 0) ∧
    ngram_trie_successor σ2 t (root t) 0 = Some (Some ng) ∧
    node_wordstr σ2 t ng = Some "c".
Proof. do 6 eexists. eval_conj. Qed.

(** ** Loading *)

(** C3 (the code departs from it): [add_ngram_line] returns NULL for a
    line it means to skip and [read_ngrams] answers every NULL with -1, so
    the load is abandoned with a negative status: for an unknown unigram
    under a fixed dictionary, for an unknown history word, and for a
    history that has no node. *)
Theorem skipped_line_aborts_load :
  (∃ σ t, load_arpa 10 (Some dict_a) lmath_centi arpa_unknown_unigram
          = Some (-1, σ, t)) ∧
  (∃ σ t, load_arpa 10 None lmath_centi arpa_unknown_history_word
          = Some (-1, σ, t)) ∧
  (∃ σ t, load_arpa 10 (Some dict_abz) lmath_centi arpa_unknown_history_path
          = Some (-1, σ, t)).
Proof. repeat apply conj; do 2 eexists; vm_compute; reflexivity. Qed.

(** ** Iteration *)

(** C5 (the code departs from it): [ngram_trie_ngrams] announces an
    iterator that continues at the next history and then clears [nostop],
    so the enumeration stops with the first history.  Over the three
    bigrams of scenario C it visits the two under [a]; the same iterator
    with [nostop] set visits all three. *)
Theorem ngrams_iterator_stops_at_first_history :
  ∃ σ t itor n1 n2 n3,
    load_arpa 10 None lmath_centi scenario_C = Some (0, σ, t) ∧
    ngram_trie_ngrams σ t 2 = Some itor ∧
    it_nostop itor = false ∧
    iter_visit 10 σ t itor = Some [Some n1; Some n2] ∧
    iter_visit 10 σ t (set_nostop itor) = Some [Some n1; Some n2; Some n3] ∧
    n1 ≠ n2 ∧ n1 ≠ n3 ∧ n2 ≠ n3.
Proof. do 6 eexists. eval_conj; vm_compute; discriminate. Qed.

(** ** Backoff weights *)

(** C7 (the code departs from it): when the node is absent
    [ngram_trie_bowt_v] calls itself with the newest history word as the
    head word and the older words as the history, [hist[0], hist + 1,
    n_hist - 1]: it drops the head word and keeps the oldest history word,
    where the probability query beside it keeps the head word and drops
    the oldest, [w, hist, n_hist - 1].  With the unigrams [a]
    (weight -0.3) and [b] (weight -0.7) and no node for [b] after [a], the
    lookup for the head word [b] and the history [a] returns the weight of
    [a]; dropping the oldest history word returns the weight of [b]. *)
Theorem bowt_v_does_not_drop_oldest :
  ∃ σ t,
    load_arpa 10 None lmath_centi scenario_bowt = Some (0, σ, t) ∧
    dict_wordstr (dict t) 0 = "a" ∧ dict_wordstr (dict t) 1 = "b" ∧
    ngram_trie_ngram_v 10 σ t 1 [0] 1 = Some None ∧
    ngram_trie_bowt_v 10 σ t 1 [0] 1 = Some (quantized t (-0.3)) ∧
    bowt_drop_oldest 10 σ t 1 [0] 1 = Some (quantized t (-0.7)) ∧
    ngram_trie_bowt_v 10 σ t 1 [0] 1 ≠ bowt_drop_oldest 10 σ t 1 [0] 1.
Proof. eexists _, _. eval_conj. vm_compute. discriminate. Qed.

(** ** The reported N-Gram order *)

Lemma wrap32_small z : -2147483648 ≤ z < 2147483648 → wrap32 z = z.
Proof. intros H. unfold wrap32. rewrite Z.mod_small; lia. Qed.






(** The count is not the order of the node that was found: in a model
    with unigrams only the lookup shortens the history [a] to nothing and
    finds the unigram [b]; no backoff step is taken and the count is 2. *)
Lemma n_used_is_not_order_found :
  ∃ σ t v ng nd,
    load_arpa 10 None lmath_centi arpa_unknown_unigram = Some (0, σ, t) ∧
    t_n t = 1 ∧
    ngram_trie_prob 10 σ t (Some 0) "b" ["a"] = Some (v, Some 2) ∧
    backoff_steps 10 σ t (dict_wordid (dict t) "b") [dict_wordid (dict t) "a"] 1
      = Some (0, true) ∧
    ngram_trie_ngram 10 σ t "b" ["a"] = Some (Some ng) ∧
    σ !! ng = Some nd ∧ history nd = Some (root t).
Proof. eexists _, _, _, _, _. eval_conj. Qed.

(** ** The order of surface forms *)

Lemma strcmp_antisym a b : strcmp a b = - strcmp b a.
Proof.
  unfold strcmp.
  pose proof (OrderedTypeEx.String_as_OT.cmp_antisym a b) as H.
  unfold OrderedTypeEx.String_as_OT.cmp in H. rewrite H.
  by destruct (String.compare b a).
Qed.

Lemma str_le_trans a b c : str_le a b → str_le b c → str_le a c.
Proof.
  unfold str_le, strcmp.
  destruct (String.compare a b) eqn:E1; [| |lia].
  - apply OrderedTypeEx.String_as_OT.cmp_eq in E1 as ->. done.
  - destruct (String.compare b c) eqn:E2; [| |lia].
    + apply OrderedTypeEx.String_as_OT.cmp_eq in E2 as <-. by rewrite E1.
    + intros _ _.
      apply OrderedTypeEx.String_as_OT.cmp_lt in E1, E2.
      pose proof (OrderedTypeEx.String_as_OT.lt_trans _ _ _ E1 E2) as L.
      apply OrderedTypeEx.String_as_OT.cmp_lt in L.
      unfold OrderedTypeEx.String_as_OT.cmp in L. by rewrite L.
Qed.

(** ** The binary search on a sorted array *)

Lemma garray_bisect_loop_spec {A : Type} (g : A → option bool) (gar : list A) :
  (∀ a, a ∈ gar → is_Some (g a)) →
  (∀ (i j : nat) a b, (i ≤ j)%nat → gar !! i = Some a → gar !! j = Some b →
                      g b = Some true → g a = Some true) →
  ∀ fuel lo hi,
    (lo ≤ hi)%nat → (hi ≤ length gar)%nat → (hi - lo < fuel)%nat →
    (∀ (i : nat) a, (i < lo)%nat → gar !! i = Some a → g a = Some true) →
    (∀ (i : nat) a, (hi ≤ i)%nat → gar !! i = Some a → g a = Some false) →
    ∃ pos, garray_bisect_loop g gar fuel lo hi = Some pos ∧
           (pos ≤ length gar)%nat ∧
           (∀ (i : nat) a, (i < pos)%nat → gar !! i = Some a → g a = Some true) ∧
           (∀ (i : nat) a, (pos ≤ i)%nat → gar !! i = Some a → g a = Some false).
Proof.
  intros Hg Hmono.
  induction fuel as [|fuel IH]; intros lo hi Hle Hhi Hfuel Hlo Hup; [lia|].
  cbn [garray_bisect_loop]. destruct (lo <? hi)%nat eqn:Hlt.
  - apply Nat.ltb_lt in Hlt. destruct (bisect_mid lo hi Hlt) as [M1 M2].
    destruct (lookup_lt_is_Some_2 gar ((lo + hi) / 2)) as [a Ha]; [lia|].
    rewrite Ha. osimpl.
    destruct (Hg a) as [b Hb]; [by eapply list_elem_of_lookup_2|].
    rewrite Hb. osimpl. destruct b.
    + apply IH; [lia..| |done].
      intros i x Hi Hx. eapply (Hmono i ((lo + hi) / 2)%nat); eauto. lia.
    + apply IH; [lia..|done|].
      intros i x Hi Hx.
      destruct (Hg x) as [[] Hbx]; [by eapply list_elem_of_lookup_2| |done].
      rewrite (Hmono ((lo + hi) / 2)%nat i a x) in Hb; [done|lia|done..].
  - apply Nat.ltb_ge in Hlt. assert (lo = hi) as -> by lia.
    exists hi. repeat split; [lia|done..].
Qed.

(** ** Arrays with one entry more or less *)

Lemma garray_insert_end {A : Type} (gar : list A) x :
  garray_insert gar (length gar) x = garray_append gar x.
Proof. unfold garray_insert, garray_append. by rewrite take_ge, drop_ge by lia. Qed.

Lemma lookup_garray_insert {A : Type} (gar : list A) (pos : nat) x (i : nat) :
  (pos ≤ length gar)%nat →
  garray_insert gar pos x !! i =
    if decide (i < pos)%nat then gar !! i
    else if decide (i = pos) then Some x else gar !! (i - 1)%nat.
Proof.
  intros Hp. unfold garray_insert.
  assert (length (take pos gar) = pos) as L by (rewrite length_take; lia).
  repeat case_decide.
  - rewrite lookup_app_l by lia. by apply lookup_take_lt.
  - subst. rewrite lookup_app_r by lia. by rewrite L, Nat.sub_diag.
  - rewrite lookup_app_r by lia. rewrite L.
    destruct (i - pos)%nat as [|k] eqn:E; [lia|]. simpl.
    rewrite lookup_drop. f_equal. lia.
Qed.

Lemma lookup_garray_delete {A : Type} (gar : list A) (pos i : nat) :
  (pos < length gar)%nat →
  garray_delete gar pos (pos + 1) !! i =
    if decide (i < pos)%nat then gar !! i else gar !! (i + 1)%nat.
Proof.
  intros Hp. unfold garray_delete.
  assert (length (take pos gar) = pos) as L by (rewrite length_take; lia).
  case_decide.
  - rewrite lookup_app_l by lia. by apply lookup_take_lt.
  - rewrite lookup_app_r by lia. rewrite L, lookup_drop. f_equal. lia.
Qed.

Lemma nondecreasing_insert (ks : list string) (pos : nat) x :
  (pos ≤ length ks)%nat →
  nondecreasing ks →
  (∀ (i : nat) a, (i < pos)%nat → ks !! i = Some a → str_le a x) →
  (∀ (i : nat) a, (pos ≤ i)%nat → ks !! i = Some a → str_le x a) →
  nondecreasing (garray_insert ks pos x).
Proof.
  intros Hp Hs Hlo Hhi i j a b Hij.
  rewrite !lookup_garray_insert by done.
  repeat case_decide; try lia; intros Ha Hb; simplify_eq.
  - eapply Hs; [|done..]. lia.
  - eapply Hlo; [|done]. lia.
  - eapply (Hs i (j - 1)%nat); [lia|done..].
  - eapply (Hhi (j - 1)%nat); [lia|done].
  - eapply (Hs (i - 1)%nat (j - 1)%nat); [lia|done..].
Qed.

Lemma nondecreasing_delete (ks : list string) (pos : nat) :
  (pos < length ks)%nat →
  nondecreasing ks →
  nondecreasing (garray_delete ks pos (pos + 1)).
Proof.
  intros Hp Hs i j a b Hij.
  rewrite !lookup_garray_delete by done.
  repeat case_decide; try lia; intros Ha Hb.
  - eapply (Hs i j); [lia|done..].
  - eapply (Hs i (j + 1)%nat); [lia|done..].
  - eapply (Hs (i + 1)%nat (j + 1)%nat); [lia|done..].
Qed.

(** ** Surface forms of a successor array *)

Lemma succ_wordstrs_frame (σ σ' : heap) t gar :
  (∀ c, c ∈ gar → node_wordstr σ' t c = node_wordstr σ t c) →
  succ_wordstrs σ' t gar = succ_wordstrs σ t gar.
Proof.
  unfold succ_wordstrs. induction gar as [|c gar IH]; intros H; [done|].
  simpl. rewrite H by left. rewrite IH; [done|]. intros c' Hc'. apply H. by right.
Qed.

Lemma succ_wordstrs_lookup (σ : heap) t gar ks (i : nat) c :
  succ_wordstrs σ t gar = Some ks → gar !! i = Some c →
  ∃ k, ks !! i = Some k ∧ node_wordstr σ t c = Some k.
Proof.
  intros H Hc. apply mapM_Some in H.
  destruct (Forall2_lookup_l _ _ _ _ _ H Hc) as (k & ? & ?). eauto.
Qed.

Lemma succ_wordstrs_insert (σ : heap) t gar ks pos x k :
  succ_wordstrs σ t gar = Some ks → node_wordstr σ t x = Some k →
  succ_wordstrs σ t (garray_insert gar pos x) = Some (garray_insert ks pos k).
Proof.
  unfold succ_wordstrs, garray_insert. rewrite !mapM_Some. intros H Hx.
  apply Forall2_app; [by apply Forall2_take|].
  constructor; [done|by apply Forall2_drop].
Qed.

Lemma succ_wordstrs_delete (σ : heap) t gar ks a b :
  succ_wordstrs σ t gar = Some ks →
  succ_wordstrs σ t (garray_delete gar a b) = Some (garray_delete ks a b).
Proof.
  unfold succ_wordstrs, garray_delete. rewrite !mapM_Some. intros H.
  apply Forall2_app; [by apply Forall2_take|by apply Forall2_drop].
Qed.

Lemma cmp_key_ent_wordstr (σ : heap) t key p k :
  node_wordstr σ t p = Some k →
  cmp_key_ent σ t key p = Some (strcmp (dict_wordstr (dict t) (word key)) k).
Proof.
  unfold node_wordstr, cmp_key_ent, ngram_trie_nodeptr_cmp.
  destruct (σ !! p); [|done]. osimpl. by intros [= <-].
Qed.

(** On a sorted successor array [garray_bisect_right] finds a position
    with the entries that do not exceed the key before it and the greater
    ones from it on. *)
Lemma bisect_right_sorted (σ : heap) t key gar ks :
  succ_wordstrs σ t gar = Some ks →
  nondecreasing ks →
  ∃ pos, garray_bisect_right (cmp_key_ent σ t key) gar = Some pos ∧
         (pos ≤ length ks)%nat ∧
         (∀ (i : nat) a, (i < pos)%nat → ks !! i = Some a →
                         str_le a (dict_wordstr (dict t) (word key))) ∧
         (∀ (i : nat) a, (pos ≤ i)%nat → ks !! i = Some a →
                         str_le (dict_wordstr (dict t) (word key)) a).
Proof.
  intros Hks Hs. set (x := dict_wordstr (dict t) (word key)).
  assert (Hlen : length gar = length ks) by (by eapply length_mapM).
  assert (Hg : ∀ (i : nat) c, gar !! i = Some c →
            ∃ k, ks !! i = Some k ∧
                 (c' ← cmp_key_ent σ t key c; Some (negb (c' <? 0)))
                 = Some (negb (strcmp x k <? 0))).
  { intros i c Hc. destruct (succ_wordstrs_lookup _ _ _ _ _ _ Hks Hc) as (k & Hk & Hw).
    exists k. split; [done|]. by rewrite (cmp_key_ent_wordstr _ _ _ _ _ Hw). }
  unfold garray_bisect_right.
  destruct (garray_bisect_loop_spec
              (λ a, c ← cmp_key_ent σ t key a; Some (negb (c <? 0))) gar)
    with (fuel := S (length gar)) (lo := 0%nat) (hi := length gar)
    as (pos & E & Hpos & Hlo & Hhi).
  - intros a [i Hi]%list_elem_of_lookup_1. destruct (Hg i a Hi) as (k & _ & ->). eauto.
  - intros i j a b Hij Ha Hb.
    destruct (Hg i a Ha) as (ka & Hka & ->), (Hg j b Hb) as (kb & Hkb & ->).
    intros [= Hb']. f_equal.
    destruct (decide (i = j)) as [->|Hne]; [by simplify_eq|].
    assert (str_le ka kb) as Hab by (eapply (Hs i j); [lia|done..]).
    assert (str_le kb x) as Hbx.
    { unfold str_le. rewrite strcmp_antisym. destruct (Z.ltb_spec (strcmp x kb) 0); [done|lia]. }
    pose proof (str_le_trans _ _ _ Hab Hbx) as Hax. unfold str_le in Hax.
    rewrite strcmp_antisym in Hax. destruct (Z.ltb_spec (strcmp x ka) 0); [lia|done].
  - lia.
  - lia.
  - lia.
  - intros; lia.
  - intros i a Hi Ha. apply lookup_lt_Some in Ha. lia.
  - exists pos. split; [done|]. split; [lia|]. split.
    + intros i a Hi Ha.
      destruct (lookup_lt_is_Some_2 gar i) as [c Hc]; [lia|].
      destruct (Hg i c Hc) as (k & Hk & Hgc). simplify_eq.
      pose proof (Hlo i c Hi Hc) as T. rewrite Hgc in T. injection T as T.
      unfold str_le. rewrite strcmp_antisym.
      destruct (Z.ltb_spec (strcmp x a) 0); [done|lia].
    + intros i a Hi Ha.
      destruct (lookup_lt_is_Some_2 gar i) as [c Hc];
        [apply lookup_lt_Some in Ha; lia|].
      destruct (Hg i c Hc) as (k & Hk & Hgc). simplify_eq.
      pose proof (Hhi i c Hi Hc) as T. rewrite Hgc in T. injection T as T.
      unfold str_le. destruct (Z.ltb_spec (strcmp x a) 0); [lia|done].
Qed.

(** ** The invariant of the mutation interface *)

Lemma listelem_malloc_fresh (σ : heap) : σ !! listelem_malloc σ = None.
Proof. unfold listelem_malloc. apply not_elem_of_dom. apply is_fresh. Qed.

Lemma node_wordstr_set_successors (σ : heap) t h hn gar c :
  σ !! h = Some hn →
  node_wordstr (<[h := set_successors hn gar]> σ) t c = node_wordstr σ t c.
Proof.
  intros Hh. unfold node_wordstr. destruct (decide (c = h)) as [->|Hne].
  - by rewrite lookup_insert_eq, Hh.
  - by rewrite lookup_insert_ne.
Qed.

Lemma history_set_successors (σ : heap) h hn gar c cn :
  σ !! h = Some hn → σ !! c = Some cn →
  ∃ cn', <[h := set_successors hn gar]> σ !! c = Some cn' ∧ history cn' = history cn.
Proof.
  intros Hh Hc. destruct (decide (c = h)) as [->|Hne].
  - rewrite lookup_insert_eq. simplify_eq. eauto.
  - rewrite lookup_insert_ne by done. eauto.
Qed.

Lemma elem_of_garray_insert {A : Type} (gar : list A) pos x c :
  c ∈ garray_insert gar pos x ↔ c = x ∨ c ∈ gar.
Proof.
  unfold garray_insert. rewrite elem_of_app, elem_of_cons.
  rewrite <-(take_drop pos gar) at 3. rewrite elem_of_app. tauto.
Qed.

Lemma NoDup_garray_insert {A : Type} (gar : list A) pos x :
  NoDup gar → x ∉ gar → NoDup (garray_insert gar pos x).
Proof.
  unfold garray_insert. intros N Hx.
  rewrite <-(take_drop pos gar) in N, Hx.
  apply NoDup_app in N as (N1 & N2 & N3). rewrite elem_of_app in Hx.
  apply NoDup_app. split; [done|]. split.
  - intros c Hc [->|Hd]%elem_of_cons; [tauto|]. by eapply N2.
  - apply NoDup_cons. split; [tauto|done].
Qed.

Lemma nondecreasing_nil : nondecreasing [].
Proof. intros i j a b _ Ha. by rewrite lookup_nil in Ha. Qed.

Lemma add_successor_inv (σ : heap) t h w σ' ng :
  trie_inv σ t →
  ngram_trie_add_successor σ t h w = Some (σ', ng) →
  trie_inv σ' t.
Proof.
  intros Inv. unfold ngram_trie_add_successor, ngram_trie_node_alloc.
  cbn beta iota zeta. rewrite insert_insert_eq.
  pose proof (listelem_malloc_fresh σ) as Hfresh.
  set (a := listelem_malloc σ) in *.
  set (new := {| word := w; log_prob := 0; log_bowt := 0;
                 history := Some h; successors := [] |}).
  set (σ2 := <[a := new]> σ).
  assert (Hlive : ∀ c cn, σ !! c = Some cn → σ2 !! c = Some cn).
  { intros c cn Hc. unfold σ2. rewrite lookup_insert_ne; [done|]. congruence. }
  assert (Hw2 : ∀ c cn, σ !! c = Some cn → node_wordstr σ2 t c = node_wordstr σ t c).
  { intros c cn Hc. unfold node_wordstr. by rewrite (Hlive c cn Hc), Hc. }
  unfold insert_successor.
  replace (σ2 !! a) with (Some new) by (unfold σ2; rewrite lookup_insert_eq; reflexivity).
  osimpl.
  destruct (σ2 !! h) as [hn|] eqn:Hh; [|discriminate]. osimpl.
  (* the array of [h] before the insertion *)
  assert (∃ ks, succ_wordstrs σ2 t (successors hn) = Some ks ∧ nondecreasing ks ∧
                NoDup (successors hn) ∧ (a ∉ successors hn) ∧
                (∀ c, c ∈ successors hn → ∃ cn, σ !! c = Some cn ∧ history cn = Some h))
    as (ks & Hks & Hsorted & Hnd & Hna & Hch).
  { destruct (decide (h = a)) as [->|Hne].
    - unfold σ2 in Hh. rewrite lookup_insert_eq in Hh. simplify_eq. simpl.
      exists []. repeat split; [apply nondecreasing_nil|constructor|apply not_elem_of_nil|].
      intros c Hc. by apply elem_of_nil in Hc.
    - unfold σ2 in Hh. rewrite lookup_insert_ne in Hh by done.
      destruct (Inv h hn Hh) as (N & C & ks & Hks & Hs).
      exists ks. repeat split; [|done..| |done].
      + rewrite <-Hks. apply succ_wordstrs_frame. intros c Hc.
        destruct (C c Hc) as (cn & Hcn & _). by eapply Hw2.
      + intros Ha. destruct (C a Ha) as (cn & Hcn & _). congruence. }
  destruct (bisect_right_sorted σ2 t new (successors hn) ks Hks Hsorted)
    as (pos & -> & Hpos & Hlo & Hhi).
  osimpl. intros [= <- <-].
  assert (Hlen : length (successors hn) = length ks) by (by eapply length_mapM).
  set (gar' := garray_insert (successors hn) pos a).
  assert ((if (pos =? garray_next_idx (successors hn))%nat
           then garray_append (successors hn) a
           else gar') = gar') as ->.
  { unfold garray_next_idx. destruct (Nat.eqb_spec pos (length (successors hn))) as [->|]; [|done].
    symmetry. apply garray_insert_end. }
  assert (Hwa : node_wordstr σ2 t a = Some (dict_wordstr (dict t) w)).
  { unfold node_wordstr, σ2. by rewrite lookup_insert_eq. }
  assert (Hhist : ∀ c cn, σ !! c = Some cn →
            ∃ cn', <[h := set_successors hn gar']> σ2 !! c = Some cn' ∧
                   history cn' = history cn).
  { intros c cn Hc. eapply history_set_successors; eauto. }
  intros p nd Hp. destruct (decide (p = h)) as [->|Hph].
  - rewrite lookup_insert_eq in Hp. simplify_eq. simpl.
    split; [by apply NoDup_garray_insert|]. split.
    + intros c [->|Hc]%elem_of_garray_insert.
      * destruct (history_set_successors σ2 h hn gar' a new Hh) as (cn' & E & Hi).
        { unfold σ2. by rewrite lookup_insert_eq. }
        exists cn'. split; [done|]. by rewrite Hi.
      * destruct (Hch c Hc) as (cn & Hcn & Hhi').
        destruct (Hhist c cn Hcn) as (cn' & E & Hi). exists cn'. split; [done|congruence].
    + exists (garray_insert ks pos (dict_wordstr (dict t) w)). split.
      * rewrite <-(succ_wordstrs_insert σ2 t (successors hn) ks pos a _ Hks Hwa).
        apply succ_wordstrs_frame. intros c _. by apply node_wordstr_set_successors.
      * by apply nondecreasing_insert.
  - rewrite lookup_insert_ne in Hp by done.
    destruct (decide (p = a)) as [->|Hpa].
    + unfold σ2 in Hp. rewrite lookup_insert_eq in Hp. simplify_eq. simpl.
      split; [constructor|]. split; [intros c Hc; by apply elem_of_nil in Hc|].
      exists []. split; [done|apply nondecreasing_nil].
    + unfold σ2 in Hp. rewrite lookup_insert_ne in Hp by done.
      destruct (Inv p nd Hp) as (N & C & ks' & Hks' & Hs').
      split; [done|]. split.
      * intros c Hc. destruct (C c Hc) as (cn & Hcn & Hi).
        destruct (Hhist c cn Hcn) as (cn' & E & Hi'). exists cn'. split; [done|congruence].
      * exists ks'. split; [|done]. rewrite <-Hks'.
        apply succ_wordstrs_frame. intros c Hc.
        rewrite node_wordstr_set_successors by done.
        destruct (C c Hc) as (cn & Hcn & _). by eapply Hw2.
Qed.

Lemma delete_successor_inv (σ : heap) t h w σ' r :
  trie_inv σ t →
  ngram_trie_delete_successor σ t h w = Some (σ', r) →
  trie_inv σ' t.
Proof.
  intros Inv. unfold ngram_trie_delete_successor.
  destruct (ngram_trie_successor_pos σ t h w) as [pos|]; [|discriminate]. osimpl.
  destruct (σ !! h) as [hn|] eqn:Hh; [|discriminate]. osimpl.
  unfold garray_next_idx, garray_ent.
  destruct (Nat.leb_spec (length (successors hn)) pos) as [|Hpos]; [by intros [= <- <-]|].
  destruct (successors hn !! pos) as [ng|] eqn:Hng; [|discriminate]. osimpl.
  unfold listelem_free.
  destruct (delete ng σ !! h) as [hn1|] eqn:Hh1; [|discriminate]. osimpl.
  intros [= <- <-].
  assert (Hne : h ≠ ng) by (intros ->; by rewrite lookup_delete_eq in Hh1).
  rewrite lookup_delete_ne in Hh1 by done. simplify_eq.
  destruct (Inv h hn Hh) as (N & C & ks & Hks & Hs).
  assert (Hlen : length (successors hn) = length ks) by (by eapply length_mapM).
  set (gar' := garray_delete (successors hn) pos (pos + 1)).
  (* what is left of the array *)
  pose proof (take_drop_middle _ _ _ Hng) as Hmid.
  assert (Hgar' : ∀ c, c ∈ gar' → c ∈ successors hn ∧ c ≠ ng).
  { intros c Hc. unfold gar', garray_delete in Hc.
    rewrite <-Hmid in N. apply NoDup_app in N as (_ & N2 & [N3 _]%NoDup_cons).
    replace (pos + 1)%nat with (S pos) in Hc by lia.
    rewrite <-Hmid. rewrite elem_of_app, elem_of_cons.
    apply elem_of_app in Hc as [Hc|Hc].
    - split; [tauto|]. intros ->. apply (N2 ng Hc). by left.
    - split; [tauto|]. by intros ->. }
  assert (Hkeep : ∀ c cn, σ !! c = Some cn → c ≠ ng →
            ∃ cn', <[h := set_successors hn gar']> (delete ng σ) !! c = Some cn' ∧
                   history cn' = history cn ∧ word cn' = word cn).
  { intros c cn Hc Hcng. destruct (decide (c = h)) as [->|Hch].
    - rewrite lookup_insert_eq. simplify_eq. eauto.
    - rewrite lookup_insert_ne, lookup_delete_ne by done. eauto. }
  assert (Hwd : ∀ c cn, σ !! c = Some cn → c ≠ ng →
            node_wordstr (<[h := set_successors hn gar']> (delete ng σ)) t c
            = node_wordstr σ t c).
  { intros c cn Hc Hcng. destruct (Hkeep c cn Hc Hcng) as (cn' & E & _ & W).
    unfold node_wordstr. rewrite E, Hc. osimpl. by rewrite W. }
  intros p nd Hp. destruct (decide (p = h)) as [->|Hph].
  - rewrite lookup_insert_eq in Hp. simplify_eq. simpl. fold gar'.
    split.
    { unfold gar', garray_delete. rewrite <-Hmid in N.
      replace (pos + 1)%nat with (S pos) by lia.
      apply NoDup_app in N as (N1 & N2 & [N3 N4]%NoDup_cons).
      apply NoDup_app. split; [done|]. split; [|done].
      intros c Hc Hd. apply (N2 c Hc). by right. }
    split.
    + intros c Hc. destruct (Hgar' c Hc) as [Hin Hcng].
      destruct (C c Hin) as (cn & Hcn & Hi).
      destruct (Hkeep c cn Hcn Hcng) as (cn' & E & Hi' & _).
      exists cn'. split; [done|congruence].
    + exists (garray_delete ks pos (pos + 1)). split.
      * rewrite <-(succ_wordstrs_delete σ t (successors hn) ks pos (pos + 1) Hks).
        apply succ_wordstrs_frame. intros c Hc. destruct (Hgar' c Hc) as [Hin Hcng].
        destruct (C c Hin) as (cn & Hcn & _). by eapply Hwd.
      * apply nondecreasing_delete; [lia|done].
  - rewrite lookup_insert_ne in Hp by done.
    assert (p ≠ ng) as Hpng by (intros ->; by rewrite lookup_delete_eq in Hp).
    rewrite lookup_delete_ne in Hp by done.
    destruct (Inv p nd Hp) as (N' & C' & ks' & Hks' & Hs').
    assert (Hcng : ∀ c, c ∈ successors nd → c ≠ ng).
    { intros c Hc ->. destruct (C' ng Hc) as (cn & Hcn & Hi).
      destruct (C ng) as (cn2 & Hcn2 & Hi2); [by eapply list_elem_of_lookup_2|].
      congruence. }
    split; [done|]. split.
    + intros c Hc. destruct (C' c Hc) as (cn & Hcn & Hi).
      destruct (Hkeep c cn Hcn (Hcng c Hc)) as (cn' & E & Hi' & _).
      exists cn'. split; [done|congruence].
    + exists ks'. split; [|done]. rewrite <-Hks'.
      apply succ_wordstrs_frame. intros c Hc.
      destruct (C' c Hc) as (cn & Hcn & _). eapply Hwd; eauto.
Qed.

Lemma run_ops_inv (t : ngram_trie_s) (ops : list trie_op) :
  ∀ σ σ', trie_inv σ t → run_ops σ t ops = Some σ' → trie_inv σ' t.
Proof.
  induction ops as [|op ops IH]; intros σ σ' Inv; simpl.
  - by intros [= <-].
  - destruct (run_op σ t op) as [σ1|] eqn:E; [|discriminate]. osimpl.
    apply IH. destruct op as [h w|h w]; cbn [run_op] in E;
      (destruct (σ !! h) as [hn|]; [|discriminate]); osimpl in E.
    + destruct (ngram_trie_add_successor σ t h w) as [[σ2 ng]|] eqn:A; [|discriminate].
      simpl in E. injection E as <-. by eapply add_successor_inv.
    + destruct (ngram_trie_delete_successor σ t h w) as [[σ2 r]|] eqn:D; [|discriminate].
      simpl in E. injection E as <-. by eapply delete_successor_inv.
Qed.

Lemma init_inv (d : option dict_t) (lm : logmath_t) σ t :
  ngram_trie_init ∅ d lm = Some (σ, t) → trie_inv σ t.
Proof.
  unfold ngram_trie_init, ngram_trie_node_alloc.
  destruct d; destruct (init_shift_loop _ _ _) as [[z s]|]; try discriminate;
    osimpl; intros [= <- <-] p nd Hp;
    (destruct (decide (p = listelem_malloc ∅)) as [->|Hne];
     [rewrite lookup_insert_eq in Hp; simplify_eq; simpl;
      split; [constructor|]; split; [intros c Hc; by apply elem_of_nil in Hc|];
      exists []; split; [done|apply nondecreasing_nil]
     |rewrite lookup_insert_ne, lookup_empty in Hp by done; discriminate]).
Qed.

(** C9, as the code has it: on a trie made by [ngram_trie_init], after
    any sequence of [ngram_trie_add_successor] and
    [ngram_trie_delete_successor] calls that the code can run, the surface
    forms met when the successor array of any node is iterated never
    decrease.  (They need not increase strictly: the same word can be
    added twice.) *)
Theorem successors_stay_sorted (d : option dict_t) (lm : logmath_t)
    (σ0 : heap) (t : ngram_trie_s) (ops : list trie_op) (σ : heap)
    (p : positive) (nd : ngram_trie_node_s) :
  ngram_trie_init ∅ d lm = Some (σ0, t) →
  run_ops σ0 t ops = Some σ →
  σ !! p = Some nd →
  ∃ ks, succ_wordstrs σ t (successors nd) = Some ks ∧ nondecreasing ks.
Proof.
  intros Hinit Hops Hp.
  pose proof (run_ops_inv t ops σ0 σ (init_inv d lm σ0 t Hinit) Hops) as Inv.
  destruct (Inv p nd Hp) as (_ & _ & H). exact H.
Qed.

Lemma successors_stay_sorted_witness :
  ∃ σ0 t σ nd,
    ngram_trie_init ∅ (Some dict_abc) lmath_centi = Some (σ0, t) ∧
    run_ops σ0 t [op_add 1 2; op_add 1 0; op_add 1 1; op_delete 1 1; op_add 1 0]
      = Some σ ∧
    σ !! 1%positive = Some nd ∧
    ∃ ks, succ_wordstrs σ t (successors nd) = Some ks ∧ nondecreasing ks.
Proof.
  eexists _, _, _, _.
  split; [vm_compute; reflexivity|].
  split; [vm_compute; reflexivity|].
  split; [vm_compute; reflexivity|].
  eapply (successors_stay_sorted (Some dict_abc) lmath_centi _ _
            [op_add 1 2; op_add 1 0; op_add 1 1; op_delete 1 1; op_add 1 0]
            _ 1%positive);
    vm_compute; reflexivity.
Defined.

(** C9 as stated fails: adding the word [a] twice under the root leaves
    two successors with the same surface form. *)
Lemma successors_not_strictly_increasing :
  ∃ σ0 t σ nd ks,
    ngram_trie_init ∅ (Some dict_abc) lmath_centi = Some (σ0, t) ∧
    run_ops σ0 t [op_add (root t) 0; op_add (root t) 0] = Some σ ∧
    σ !! root t = Some nd ∧
    succ_wordstrs σ t (successors nd) = Some ks ∧
    ¬ strictly_increasing ks.
Proof.
  eexists _, _, _, _, _. eval_conj.
  intros H. specialize (H 0%nat 1%nat "a" "a" ltac:(lia) eq_refl eq_refl).
  vm_compute in H. discriminate.
Qed.

(** ** Tries built through the mutation interface have bounded depth *)

Lemma add_successor_shape (σ : heap) t h w σ' ng :
  ngram_trie_add_successor σ t h w = Some (σ', ng) →
  σ !! ng = None ∧
  ∃ hn pos,
    <[ng := {| word := w; log_prob := 0; log_bowt := 0;
               history := Some h; successors := [] |}]> σ !! h = Some hn ∧
    σ' = <[h := set_successors hn (garray_insert (successors hn) pos ng)]>
           (<[ng := {| word := w; log_prob := 0; log_bowt := 0;
                       history := Some h; successors := [] |}]> σ).
Proof.
  unfold ngram_trie_add_successor, ngram_trie_node_alloc.
  cbn beta iota zeta. rewrite insert_insert_eq.
  pose proof (listelem_malloc_fresh σ) as Hfresh.
  set (a := listelem_malloc σ) in *.
  unfold insert_successor. rewrite lookup_insert_eq. osimpl.
  destruct (_ !! h) as [hn|] eqn:Hh; [|discriminate]. osimpl.
  destruct (garray_bisect_right _ _) as [pos|]; [|discriminate]. osimpl.
  intros [= <- <-]. split; [done|].
  unfold garray_next_idx.
  destruct (Nat.eqb_spec pos (length (successors hn))) as [->|].
  - exists hn, (length (successors hn)). by rewrite garray_insert_end.
  - by exists hn, pos.
Qed.

Lemma delete_successor_shape (σ : heap) t h w σ' r :
  ngram_trie_delete_successor σ t h w = Some (σ', r) →
  σ' = σ ∨
  ∃ hn pos ng,
    σ !! h = Some hn ∧ successors hn !! pos = Some ng ∧ h ≠ ng ∧
    σ' = <[h := set_successors hn (garray_delete (successors hn) pos (pos + 1))]>
           (delete ng σ).
Proof.
  unfold ngram_trie_delete_successor.
  destruct (ngram_trie_successor_pos σ t h w) as [pos|]; [|discriminate]. osimpl.
  destruct (σ !! h) as [hn|] eqn:Hh; [|discriminate]. osimpl.
  unfold garray_next_idx, garray_ent.
  destruct (Nat.leb_spec (length (successors hn)) pos) as [|Hpos];
    [intros [= <- <-]; by left|].
  destruct (successors hn !! pos) as [ng|] eqn:Hng; [|discriminate]. osimpl.
  unfold listelem_free.
  destruct (delete ng σ !! h) as [hn1|] eqn:Hh1; [|discriminate]. osimpl.
  intros [= <- <-]. right.
  assert (Hne : h ≠ ng) by (intros ->; by rewrite lookup_delete_eq in Hh1).
  rewrite lookup_delete_ne in Hh1 by done. simplify_eq.
  by exists hn, pos, ng.
Qed.

Lemma elem_of_garray_delete {A : Type} (gar : list A) (a b : nat) c :
  c ∈ garray_delete gar a b → c ∈ gar.
Proof.
  unfold garray_delete. intros [H|H]%elem_of_app.
  - by apply (subseteq_take a gar).
  - by apply (subseteq_drop b gar).
Qed.

Lemma depth_inv_bounded (σ : heap) dp M :
  depth_inv σ dp M →
  ∀ k p, is_Some (σ !! p) → (M - dp p ≤ k)%nat → bounded σ (S k) p = true.
Proof.
  intros D. induction k as [|k IH]; intros p [nd Hp] Hk;
    cbn [bounded]; rewrite Hp; apply forallb_forall; intros c Hc%list_elem_of_In;
    destruct (D p nd Hp) as [Hd Hch]; destruct (Hch c Hc) as [[cn Hcn] Hdc];
    destruct (D c cn Hcn) as [Hdc' _].
  - lia.
  - apply IH; [eauto|lia].
Qed.

Lemma add_successor_depth (σ : heap) t h w σ' ng dp M :
  depth_inv σ dp M → is_Some (σ !! h) →
  ngram_trie_add_successor σ t h w = Some (σ', ng) →
  depth_inv σ' (λ x, if decide (x = ng) then S (dp h) else dp x) (S M).
Proof.
  intros D [hn0 Hh0] (Hfresh & hn & pos & Hh & ->)%add_successor_shape.
  assert (h ≠ ng) as Hne by congruence.
  rewrite lookup_insert_ne in Hh by done.
  assert (hn0 = hn) as -> by congruence. clear Hh0. rename Hh into Hh0.
  assert (Hold : ∀ c, is_Some (σ !! c) → c ≠ ng) by (intros c [? ?]; congruence).
  set (new := {| word := w; log_prob := 0; log_bowt := 0;
                 history := Some h; successors := [] |}).
  set (hn' := set_successors hn (garray_insert (successors hn) pos ng)).
  assert (Hkeep : ∀ c, is_Some (σ !! c) → is_Some (<[h := hn']> (<[ng := new]> σ) !! c)).
  { intros c Hc. pose proof (Hold c Hc). destruct (decide (c = h)) as [->|].
    - rewrite lookup_insert_eq. eauto.
    - rewrite !lookup_insert_ne by congruence. done. }
  destruct (D h hn Hh0) as [Hdh Hchh].
  intros p nd Hp. cbn beta. destruct (decide (p = h)) as [->|Hph].
  - rewrite lookup_insert_eq in Hp. simplify_eq. cbn [successors set_successors].
    split; [case_decide; [done|lia]|].
    intros c [->|Hc]%elem_of_garray_insert.
    + split; [|repeat case_decide; congruence].
      rewrite lookup_insert_ne, lookup_insert_eq by done. eauto.
    + destruct (Hchh c Hc) as [Hlive Hdc]. split; [by apply Hkeep|].
      pose proof (Hold c Hlive). repeat case_decide; congruence.
  - rewrite lookup_insert_ne in Hp by done.
    destruct (decide (p = ng)) as [->|Hpn].
    + rewrite lookup_insert_eq in Hp. simplify_eq. cbn [successors].
      split; [lia|].
      intros c Hc. by apply elem_of_nil in Hc.
    + rewrite lookup_insert_ne in Hp by done.
      destruct (D p nd Hp) as [Hd Hch].
      split; [lia|].
      intros c Hc. destruct (Hch c Hc) as [Hlive Hdc].
      split; [by apply Hkeep|].
      pose proof (Hold c Hlive). repeat case_decide; congruence.
Qed.

Lemma delete_successor_depth (σ : heap) t h w σ' r dp M :
  trie_inv σ t → depth_inv σ dp M →
  ngram_trie_delete_successor σ t h w = Some (σ', r) →
  depth_inv σ' dp M.
Proof.
  intros Inv D [->|(hn & pos & ng & Hh & Hng & Hne & ->)]%delete_successor_shape;
    [done|].
  destruct (Inv h hn Hh) as (N & C & _).
  pose proof (take_drop_middle _ _ _ Hng) as Hmid.
  assert (Hlive : ∀ c, is_Some (σ !! c) → c ≠ ng →
            is_Some (<[h := set_successors hn
                        (garray_delete (successors hn) pos (pos + 1))]>
                       (delete ng σ) !! c)).
  { intros c Hc Hcn. destruct (decide (c = h)) as [->|];
      [rewrite lookup_insert_eq|rewrite lookup_insert_ne, lookup_delete_ne by done]; eauto. }
  intros p nd Hp. destruct (decide (p = h)) as [->|Hph].
  - rewrite lookup_insert_eq in Hp. simplify_eq. simpl.
    destruct (D h hn Hh) as [Hd Hch]. split; [done|]. intros c Hc.
    assert (c ≠ ng) as Hcn.
    { intros ->. unfold garray_delete in Hc.
      rewrite <-Hmid in N. apply NoDup_app in N as (_ & N2 & [N3 _]%NoDup_cons).
      replace (pos + 1)%nat with (S pos) in Hc by lia.
      apply elem_of_app in Hc as [Hc|Hc]; [|done].
      apply (N2 ng Hc). by left. }
    apply elem_of_garray_delete in Hc. destruct (Hch c Hc) as [Hl Hdc].
    split; [by apply Hlive|done].
  - rewrite lookup_insert_ne in Hp by done.
    assert (p ≠ ng) as Hpng by (intros ->; by rewrite lookup_delete_eq in Hp).
    rewrite lookup_delete_ne in Hp by done.
    destruct (D p nd Hp) as [Hd Hch]. split; [done|]. intros c Hc.
    destruct (Hch c Hc) as [Hl Hdc]. split; [|done]. apply Hlive; [done|].
    intros ->. destruct (Inv p nd Hp) as (_ & C' & _).
    destruct (C' ng Hc) as (cn & Hcn & Hi).
    destruct (C ng) as (cn2 & Hcn2 & Hi2); [by eapply list_elem_of_lookup_2|].
    congruence.
Qed.

Lemma run_op_built (σ : heap) t op σ' :
  built_inv σ t → run_op σ t op = Some σ' → built_inv σ' t.
Proof.
  intros (Inv & (dp & M & D) & rn & Hroot & Hrn).
  destruct op as [h w|h w]; cbn [run_op];
    (destruct (σ !! h) as [hn|] eqn:Hh; [|discriminate]); osimpl.
  - destruct (ngram_trie_add_successor σ t h w) as [[σ2 ng]|] eqn:A; [|discriminate].
    osimpl. intros [= <-]. split; [by eapply add_successor_inv|]. split.
    + eexists _, _. eapply add_successor_depth; eauto.
    + apply add_successor_shape in A as (Hfresh & hn' & pos & Hh' & ->).
      destruct (history_set_successors _ h hn'
                  (garray_insert (successors hn') pos ng) (root t) rn Hh')
        as (rn' & E & Hi); [rewrite lookup_insert_ne; [exact Hroot|congruence]|].
      exists rn'. split; [exact E|]. by rewrite Hi.
  - destruct (ngram_trie_delete_successor σ t h w) as [[σ2 r]|] eqn:Del; [|discriminate].
    osimpl. intros [= <-]. split; [by eapply delete_successor_inv|]. split.
    + exists dp, M. eapply delete_successor_depth; eauto.
    + apply delete_successor_shape in Del
        as [->|(hn' & pos & ng & Hh' & Hng & Hne & ->)]; [eauto|].
      assert (root t ≠ ng) as Hrng.
      { intros <-. destruct (Inv h hn' Hh') as (_ & C & _).
        destruct (C (root t)) as (cn & Hcn & Hi); [by eapply list_elem_of_lookup_2|].
        congruence. }
      destruct (history_set_successors (delete ng σ) h hn'
                  (garray_delete (successors hn') pos (pos + 1)) (root t) rn)
        as (rn' & E & Hi); [by rewrite lookup_delete_ne..|].
      exists rn'. split; [exact E|]. by rewrite Hi.
Qed.

Lemma run_ops_built (t : ngram_trie_s) (ops : list trie_op) :
  ∀ σ σ', built_inv σ t → run_ops σ t ops = Some σ' → built_inv σ' t.
Proof.
  induction ops as [|op ops IH]; intros σ σ' B; cbn [run_ops].
  - by intros [= <-].
  - destruct (run_op σ t op) as [σ1|] eqn:E; [|discriminate]. osimpl.
    apply IH. by eapply run_op_built.
Qed.

Lemma init_built (d : option dict_t) (lm : logmath_t) σ t :
  ngram_trie_init ∅ d lm = Some (σ, t) → built_inv σ t.
Proof.
  intros Hinit. split; [by eapply init_inv|]. revert Hinit.
  unfold ngram_trie_init, ngram_trie_node_alloc.
  destruct d; destruct (init_shift_loop _ _ _) as [[z s]|]; try discriminate;
    osimpl; intros [= <- <-]; cbn [root].
  all: split; [|rewrite lookup_insert_eq; eauto].
  all: exists (λ _, 0%nat), 0%nat; intros p nd Hp.
  all: destruct (decide (p = listelem_malloc ∅)) as [->|Hne];
    [rewrite lookup_insert_eq in Hp; simplify_eq; cbn [successors];
     split; [lia|]; intros c Hc; by apply elem_of_nil in Hc
    |rewrite lookup_insert_ne, lookup_empty in Hp by done; discriminate].
Qed.

(** Every trie made by [ngram_trie_init] and changed through the mutation
    interface has bounded depth. *)
Lemma run_ops_bounded (d : option dict_t) (lm : logmath_t) σ0 t ops σ :
  ngram_trie_init ∅ d lm = Some (σ0, t) →
  run_ops σ0 t ops = Some σ →
  ∃ depth, bounded σ depth (root t) = true.
Proof.
  intros Hinit Hops.
  destruct (run_ops_built t ops σ0 σ (init_built d lm σ0 t Hinit) Hops)
    as (_ & (dp & M & D) & rn & Hroot & _).
  exists (S (M - dp (root t))). eapply depth_inv_bounded; eauto.
Qed.

(** ** Loaded tries have bounded depth *)

Lemma successor_elem (σ : heap) t h w c :
  ngram_trie_successor σ t h w = Some (Some c) →
  ∃ hn, σ !! h = Some hn ∧ c ∈ successors hn.
Proof.
  unfold ngram_trie_successor.
  destruct (ngram_trie_successor_pos σ t h w) as [pos|]; [|discriminate]. osimpl.
  destruct (σ !! h) as [hn|]; [|discriminate]. osimpl.
  destruct (_ <=? _)%nat; [discriminate|].
  unfold garray_ent. destruct (successors hn !! pos) as [ng|] eqn:E; [|discriminate].
  osimpl. intros [= <-]. exists hn. split; [done|]. by eapply list_elem_of_lookup_2.
Qed.

Lemma ngram_v_loop_live (σ : heap) t hist n_hist dp M :
  depth_inv σ dp M →
  ∀ fuel node c, is_Some (σ !! node) →
    ngram_v_loop fuel σ t hist n_hist node = Some (Some c) → is_Some (σ !! c).
Proof.
  intros D. induction fuel as [|fuel IH]; intros node c Hnode; [discriminate|].
  cbn [ngram_v_loop]. destruct (0 <? n_hist); [|by intros [= <-]].
  destruct (hist !! Z.to_nat (n_hist - 1)) as [nextwid|]; [|discriminate]. osimpl.
  destruct (ngram_trie_successor σ t node nextwid) as [[node'|]|] eqn:E;
    osimpl; [|discriminate..].
  apply IH. destruct (successor_elem _ _ _ _ _ E) as (hn & Hn & Hin).
  by destruct (D node hn Hn) as [_ Hch], (Hch node' Hin).
Qed.

Lemma ngram_v_live (σ : heap) t dp M fuel w hist n_hist c :
  depth_inv σ dp M → is_Some (σ !! root t) →
  ngram_trie_ngram_v fuel σ t w hist n_hist = Some (Some c) → is_Some (σ !! c).
Proof.
  intros D Hroot. unfold ngram_trie_ngram_v, ngram_trie_root.
  destruct (ngram_v_loop fuel σ t hist _ (root t)) as [[node|]|] eqn:E;
    osimpl; [|discriminate..].
  intros Hs. destruct (successor_elem _ _ _ _ _ Hs) as (hn & Hn & Hin).
  by destruct (D node hn Hn) as [_ Hch], (Hch c Hin).
Qed.

Lemma depth_inv_set_fields (σ : heap) dp M p nd nd' :
  depth_inv σ dp M → σ !! p = Some nd → successors nd' = successors nd →
  depth_inv (<[p := nd']> σ) dp M.
Proof.
  intros D Hp Hs q qn Hq.
  assert (Hkeep : ∀ c, is_Some (σ !! c) → is_Some (<[p := nd']> σ !! c)).
  { intros c Hc. destruct (decide (c = p)) as [->|];
      [rewrite lookup_insert_eq|rewrite lookup_insert_ne by done]; eauto. }
  destruct (decide (q = p)) as [->|Hne].
  - rewrite lookup_insert_eq in Hq. simplify_eq. rewrite Hs.
    destruct (D p nd Hp) as [Hd Hch]. split; [done|].
    intros c Hc. destruct (Hch c Hc). split; [by apply Hkeep|done].
  - rewrite lookup_insert_ne in Hq by done.
    destruct (D q qn Hq) as [Hd Hch]. split; [done|].
    intros c Hc. destruct (Hch c Hc). split; [by apply Hkeep|done].
Qed.

Lemma add_ngram_line_load_inv fuel (σ : heap) t buf n lh σ' t' lh' node :
  load_inv σ t lh →
  add_ngram_line fuel σ t buf n lh = Some (σ', t', lh', node) →
  load_inv σ' t' lh' ∧ root t' = root t.
Proof.
  intros ((dp & M & D) & Hroot & Hlh). unfold add_ngram_line.
  assert (Hskip : load_inv σ t lh ∧ root t = root t) by (repeat split; eauto).
  destruct (_ <? Z.of_nat _); [discriminate|].
  destruct (_ <? _); [by intros [= <- <- <- <-]|].
  destruct (str2words buf !! 0%nat) as [w0|]; [|discriminate]. osimpl.
  destruct (if _ =? _ then _ else _) as [bowt|]; [|discriminate]. osimpl.
  destruct (str2words buf !! Z.to_nat n) as [wn|]; [|discriminate]. osimpl.
  set (head := if dict_wordid (dict t) wn =? BAD_S3WID then _ else _).
  assert (Hhead : ∀ t1 wid0, head = Some (t1, wid0) → root t1 = root t).
  { subst head. intros t1 wid0. destruct (_ =? _); [|by intros [= <- _]].
    destruct (gendict t); [|discriminate]. by intros [= <- _]. }
  destruct head as [[t1 wid0]|]; [|by intros [= <- <- <- <-]].
  specialize (Hhead t1 wid0 eq_refl).
  destruct (hist_wids _ _ _ _ _) as [[hw|]|]; osimpl; [| |discriminate].
  2: { intros [= <- <- <- <-]. repeat split; eauto. by rewrite Hhead. }
  set (lhr := if n =? 1 then _ else _).
  assert (Hlhr : ∀ h, lhr = Some (Some h) → is_Some (σ !! h)).
  { subst lhr. intros h. destruct (n =? 1).
    - destruct lh as [h0|]; [|discriminate].
      destruct (Pos.eqb _ _); [|discriminate]. intros [= ->]. by apply Hlh.
    - destruct (match_history _ _ _ _ _ _) as [i|]; [|discriminate]. osimpl.
      destruct (i <? n).
      + destruct ((wid0 :: hw) !! 1%nat) as [w1|]; [|discriminate]. osimpl.
        intros Hv. eapply ngram_v_live; [done| |exact Hv]. by rewrite Hhead.
      + intros [= ->]. by apply Hlh. }
  destruct lhr as [[h|]|]; osimpl; [| |discriminate].
  2: { intros [= <- <- <- <-]. repeat split; eauto; [by rewrite Hhead|discriminate]. }
  specialize (Hlhr h eq_refl).
  destruct (ngram_trie_add_successor σ t1 h wid0) as [[σ1 ng]|] eqn:A; [|discriminate].
  osimpl. destruct (σ1 !! ng) as [nd|] eqn:Hng; [|discriminate]. osimpl.
  intros [= <- <- <- <-].
  pose proof (add_successor_depth _ _ _ _ _ _ _ _ D Hlhr A) as D1.
  assert (Hkeep1 : ∀ c, is_Some (σ !! c) → is_Some (σ1 !! c)).
  { apply add_successor_shape in A as (Hfresh & hn & pos & Hh & ->).
    intros c [cn Hc]. destruct (decide (c = h)) as [->|];
      [rewrite lookup_insert_eq; eauto|].
    rewrite !lookup_insert_ne by congruence. eauto. }
  assert (Hkeep : ∀ c nd', is_Some (σ !! c) → is_Some (<[ng := nd']> σ1 !! c)).
  { intros c nd' Hc. destruct (decide (c = ng)) as [->|];
      [rewrite lookup_insert_eq|rewrite lookup_insert_ne by done]; eauto. }
  split; [|done]. split; [|split].
  - eexists _, _. eapply depth_inv_set_fields; [exact D1|exact Hng|done].
  - rewrite Hhead. by apply Hkeep.
  - intros h' [= <-]. by apply Hkeep.
Qed.

Lemma load_inv_forget (σ : heap) t lh : load_inv σ t lh → load_inv σ t None.
Proof. intros (D & Hroot & _). repeat split; [done..|discriminate]. Qed.

Lemma read_ngrams_loop_load_inv fuel n (li : list string) :
  ∀ σ t lh r σ' t' li',
    load_inv σ t lh →
    read_ngrams_loop fuel li σ t n lh = Some (r, σ', t', li') →
    load_inv σ' t' None ∧ root t' = root t.
Proof.
  induction li as [|buf rest IH]; intros σ t lh r σ' t' li' L; cbn [read_ngrams_loop].
  - intros [= <- <- <- <-]. split; [by eapply load_inv_forget|done].
  - destruct (strlen _ =? 0); [by apply IH|].
    destruct (strcmp _ _ =? 0);
      [intros [= <- <- <- <-]; split; [by eapply load_inv_forget|done]|].
    assert (Hline :
      (add_ngram_line fuel σ t (string_trim buf) n lh
         ≫= λ '(σ1, t1, lh1, node),
              match node with
              | Some _ => read_ngrams_loop fuel rest σ1 t1 n lh1
              | None => Some (-1, σ1, t1, string_trim buf :: rest)
              end) = Some (r, σ', t', li') →
      load_inv σ' t' None ∧ root t' = root t).
    { destruct (add_ngram_line _ _ _ _ _ _) as [[[[σ1 t1] lh1] node]|] eqn:A;
        [|discriminate]. osimpl.
      destruct (add_ngram_line_load_inv _ _ _ _ _ _ _ _ _ _ L A) as [L1 R1].
      destruct node.
      - intros H. destruct (IH _ _ _ _ _ _ _ L1 H) as [L2 R2].
        split; [done|congruence].
      - intros [= <- <- <- <-]. split; [by eapply load_inv_forget|done]. }
    destruct (string_trim buf) as [|c tl] eqn:Eb; [exact Hline|].
    destruct (Ascii.eqb_spec c "\"%char) as [->|Hc].
    + destruct (negb _);
        [intros [= <- <- <- <-]; split; [by eapply load_inv_forget|done]|].
      destruct (negb _);
        [intros [= <- <- <- <-]; split; [by eapply load_inv_forget|done]|].
      destruct (n <? atoi tl);
        [intros [= <- <- <- <-]; split; [by eapply load_inv_forget|done]|].
      by apply IH.
    + revert Hline. destruct c as [[] [] [] [] [] [] [] []]; done.
Qed.

Lemma read_ngrams_load_inv fuel (σ : heap) t li n r σ' t' li' :
  load_inv σ t None →
  read_ngrams fuel σ t li n = Some (r, σ', t', li') →
  load_inv σ' t' None ∧ root t' = root t.
Proof.
  intros (D & Hroot & _). unfold read_ngrams.
  apply read_ngrams_loop_load_inv. repeat split; [done..|].
  intros h. destruct (n =? 1); [by intros [= <-]|discriminate].
Qed.

Lemma read_all_ngrams_load_inv fuel (rounds : nat) :
  ∀ σ t li n r σ' t' li',
    load_inv σ t None →
    read_all_ngrams rounds fuel σ t li n = Some (r, σ', t', li') →
    load_inv σ' t' None ∧ root t' = root t.
Proof.
  induction rounds as [|rounds IH]; intros σ t li n r σ' t' li' L; [discriminate|].
  cbn [read_all_ngrams].
  destruct (read_ngrams fuel σ t li n) as [[[[n1 σ1] t1] li1]|] eqn:R; [|discriminate].
  osimpl. destruct (read_ngrams_load_inv _ _ _ _ _ _ _ _ _ L R) as [L1 R1].
  destruct (1 <? n1).
  - intros H. destruct (IH _ _ _ _ _ _ _ _ L1 H) as [L2 R2]. split; [done|congruence].
  - intros [= <- <- <- <-]. done.
Qed.

Lemma read_arpa_load_inv fuel (σ : heap) t arpafile r σ' t' :
  load_inv σ t None →
  ngram_trie_read_arpa fuel σ t arpafile = Some (r, σ', t') →
  load_inv σ' t' None ∧ root t' = root t.
Proof.
  intros L. unfold ngram_trie_read_arpa.
  destruct (skip_arpa_header _) as [st li].
  destruct (st <? 0); [by intros [= <- <- <-]|].
  destruct (read_ngram_counts li (counts t)) as [[[n cs] li1]|]; [|discriminate].
  osimpl.
  assert (L' : load_inv σ (set_counts t n cs) None) by exact L.
  destruct (n <? 0); [by intros [= <- <- <-]|].
  destruct li1 as [|l li1]; [discriminate|].
  destruct (read_all_ngrams _ _ _ _ _ _) as [[[[n1 σ1] t1] li2]|] eqn:R; [|discriminate].
  osimpl. destruct (read_all_ngrams_load_inv _ _ _ _ _ _ _ _ _ _ L' R) as [L1 R1].
  destruct li2 as [|l2 li2]; [discriminate|].
  destruct (n1 <? 0); intros [= <- <- <-]; done.
Qed.

(** Every trie loaded from a model file, entirely or up to the line where
    the load was abandoned, has bounded depth. *)
Lemma load_arpa_bounded fuel (d : option dict_t) (lm : logmath_t)
    arpafile r σ t :
  load_arpa fuel d lm arpafile = Some (r, σ, t) →
  ∃ depth, bounded σ depth (root t) = true.
Proof.
  unfold load_arpa.
  destruct (ngram_trie_init ∅ d lm) as [[σ0 t0]|] eqn:Hinit; [|discriminate].
  osimpl. intros R.
  destruct (init_built d lm σ0 t0 Hinit) as (_ & D & rn & Hroot & _).
  destruct (read_arpa_load_inv fuel σ0 t0 arpafile r σ t) as [((dp & M & D') & Hr & _) _];
    [repeat split; [done|eauto|discriminate]|done|].
  exists (S (M - dp (root t))). eapply depth_inv_bounded; eauto.
Qed.

(** ** Reference counting *)

(** C10: releasing a NULL trie returns 0 and touches nothing; releasing a
    trie held more than once only lowers its count and returns what is
    left; and releasing what [ngram_trie_retain] returned leaves the trie
    and its count as they were. *)
Theorem free_after_retain (t : ngram_trie_s) :
  0 < refcount t ≤ 2147483647 →
  ngram_trie_free None
    = {| free_ret := 0; free_trie := None; free_released := None |} ∧
  (1 < refcount t →
   ngram_trie_free (Some t)
     = {| free_ret := refcount t - 1;
          free_trie := Some (set_refcount t (refcount t - 1));
          free_released := None |}) ∧
  ngram_trie_free (Some (ngram_trie_retain t))
    = {| free_ret := refcount t; free_trie := Some t; free_released := None |}.
Proof.
  intros Hrc. split; [done|]. split.
  - intros H1. unfold ngram_trie_free.
    rewrite (wrap32_small (refcount t - 1)) by lia.
    destruct (Z.ltb_spec 0 (refcount t - 1)); [done|lia].
  - unfold ngram_trie_free, ngram_trie_retain. cbn [refcount set_refcount].
    assert (wrap32 (wrap32 (refcount t + 1) - 1) = refcount t) as ->.
    { destruct (Z.eq_dec (refcount t) 2147483647) as [->|Hne]; [done|].
      rewrite (wrap32_small (refcount t + 1)) by lia.
      rewrite wrap32_small by lia. lia. }
    destruct (Z.ltb_spec 0 (refcount t)); [|lia].
    by destruct t.
Qed.

Lemma free_after_retain_witness :
  ∃ σ t,
    ngram_trie_init ∅ None lmath_centi = Some (σ, t) ∧
    0 < refcount t ≤ 2147483647 ∧
    ngram_trie_free (Some (ngram_trie_retain t))
      = {| free_ret := refcount t; free_trie := Some t; free_released := None |}.
Proof.
  eexists _, _.
  split; [vm_compute; reflexivity|].
  split; [vm_compute; split; [reflexivity|discriminate]|].
  apply free_after_retain. vm_compute. split; [reflexivity|discriminate].
Defined.

(** ** Lookups in a sorted successor array *)

Lemma strcmp_eq a b : strcmp a b = 0 ↔ a = b.
Proof.
  unfold strcmp. split.
  - destruct (String.compare a b) eqn:E; [|discriminate..].
    intros _. by apply String.compare_eq_iff.
  - intros ->. pose proof (strcmp_antisym b b) as H. unfold strcmp in H.
    destruct (String.compare b b); [done|discriminate..].
Qed.

Lemma str_le_antisym a b : str_le a b → str_le b a → a = b.
Proof.
  unfold str_le. intros H1 H2. rewrite strcmp_antisym in H2.
  apply strcmp_eq. lia.
Qed.

Lemma str_le_lt_trans a b c : str_le a b → strcmp b c < 0 → strcmp a c < 0.
Proof.
  intros Hab Hbc. destruct (Z.lt_ge_cases (strcmp a c) 0) as [|Hge]; [done|].
  assert (str_le c a) as Hca by (unfold str_le; rewrite strcmp_antisym; lia).
  pose proof (str_le_trans _ _ _ Hca Hab) as Hcb. unfold str_le in Hcb.
  rewrite strcmp_antisym in Hcb. lia.
Qed.

Lemma cmp_ent_key_wordstr (σ : heap) t key p k :
  node_wordstr σ t p = Some k →
  cmp_ent_key σ t key p = Some (strcmp k (dict_wordstr (dict t) (word key))).
Proof.
  unfold node_wordstr, cmp_ent_key, ngram_trie_nodeptr_cmp.
  destruct (σ !! p); [|done]. osimpl. by intros [= <-].
Qed.

(** On a sorted successor array [garray_bisect_left] finds the position
    with the lesser entries before it and no lesser entry from it on. *)
Lemma bisect_left_sorted (σ : heap) t key gar ks :
  succ_wordstrs σ t gar = Some ks →
  nondecreasing ks →
  ∃ pos, garray_bisect_left (cmp_ent_key σ t key) gar = Some pos ∧
         (pos ≤ length ks)%nat ∧
         (∀ (i : nat) a, (i < pos)%nat → ks !! i = Some a →
                         strcmp a (dict_wordstr (dict t) (word key)) < 0) ∧
         (∀ (i : nat) a, (pos ≤ i)%nat → ks !! i = Some a →
                         str_le (dict_wordstr (dict t) (word key)) a).
Proof.
  intros Hks Hs. set (x := dict_wordstr (dict t) (word key)).
  assert (Hlen : length gar = length ks) by (by eapply length_mapM).
  assert (Hg : ∀ (i : nat) c, gar !! i = Some c →
            ∃ k, ks !! i = Some k ∧
                 (c' ← cmp_ent_key σ t key c; Some (c' <? 0))
                 = Some (strcmp k x <? 0)).
  { intros i c Hc. destruct (succ_wordstrs_lookup _ _ _ _ _ _ Hks Hc) as (k & Hk & Hw).
    exists k. split; [done|]. by rewrite (cmp_ent_key_wordstr _ _ _ _ _ Hw). }
  unfold garray_bisect_left.
  destruct (garray_bisect_loop_spec
              (λ a, c ← cmp_ent_key σ t key a; Some (c <? 0)) gar)
    with (fuel := S (length gar)) (lo := 0%nat) (hi := length gar)
    as (pos & E & Hpos & Hlo & Hhi).
  - intros a [i Hi]%list_elem_of_lookup_1. destruct (Hg i a Hi) as (k & _ & ->). eauto.
  - intros i j a b Hij Ha Hb.
    destruct (Hg i a Ha) as (ka & Hka & ->), (Hg j b Hb) as (kb & Hkb & ->).
    intros [= Hb']. f_equal.
    destruct (decide (i = j)) as [->|Hne]; [by simplify_eq|].
    assert (str_le ka kb) as Hab by (eapply (Hs i j); [lia|done..]).
    apply Z.ltb_lt in Hb'. apply Z.ltb_lt. by eapply str_le_lt_trans.
  - lia.
  - lia.
  - lia.
  - intros; lia.
  - intros i a Hi Ha. apply lookup_lt_Some in Ha. lia.
  - exists pos. split; [done|]. split; [lia|]. split.
    + intros i a Hi Ha.
      destruct (lookup_lt_is_Some_2 gar i) as [c Hc]; [lia|].
      destruct (Hg i c Hc) as (k & Hk & Hgc). simplify_eq.
      pose proof (Hlo i c Hi Hc) as T. rewrite Hgc in T. injection T as T.
      by apply Z.ltb_lt.
    + intros i a Hi Ha.
      destruct (lookup_lt_is_Some_2 gar i) as [c Hc];
        [apply lookup_lt_Some in Ha; lia|].
      destruct (Hg i c Hc) as (k & Hk & Hgc). simplify_eq.
      pose proof (Hhi i c Hi Hc) as T. rewrite Hgc in T. injection T as T.
      apply Z.ltb_ge in T. unfold str_le. rewrite strcmp_antisym. lia.
Qed.

Lemma successor_of_pos (σ : heap) t h hn w pos :
  σ !! h = Some hn →
  ngram_trie_successor_pos σ t h w = Some pos →
  ngram_trie_successor σ t h w = Some (successors hn !! pos).
Proof.
  intros Hh Hpos. unfold ngram_trie_successor. rewrite Hpos, Hh. osimpl.
  unfold garray_next_idx, garray_ent.
  destruct (Nat.leb_spec (length (successors hn)) pos) as [Hle|Hlt].
  - by rewrite lookup_ge_None_2.
  - destruct (lookup_lt_is_Some_2 (successors hn) pos Hlt) as [ng ->]. done.
Qed.

Lemma successor_pos_sorted (σ : heap) t h hn w ks :
  σ !! h = Some hn →
  succ_wordstrs σ t (successors hn) = Some ks →
  nondecreasing ks →
  ∃ pos, ngram_trie_successor_pos σ t h w = Some pos ∧
         (pos ≤ length ks)%nat ∧
         (∀ (i : nat) a, (i < pos)%nat → ks !! i = Some a →
                         strcmp a (dict_wordstr (dict t) w) < 0) ∧
         (∀ (i : nat) a, (pos ≤ i)%nat → ks !! i = Some a →
                         str_le (dict_wordstr (dict t) w) a).
Proof.
  intros Hh Hks Hs. unfold ngram_trie_successor_pos. rewrite Hh. osimpl.
  exact (bisect_left_sorted σ t (key_node w) (successors hn) ks Hks Hs).
Qed.

Lemma build_trie_built d lm ops σ t :
  build_trie d lm ops = Some (σ, t) → built_inv σ t.
Proof.
  unfold build_trie.
  destruct (ngram_trie_init ∅ d lm) as [[σ0 t0]|] eqn:Hinit; [|discriminate]. osimpl.
  destruct (run_ops σ0 t0 ops) as [σ1|] eqn:Hops; [|discriminate]. osimpl.
  intros [= <- <-]. eapply run_ops_built; [|exact Hops]. by eapply init_built.
Qed.

(** X1: on a trie made through the mutation interface,
    [ngram_trie_successor] returns the first successor of [h] whose
    surface form is not less than that of [w] (so a successor with the
    word [w], if there is one, or else the next greater one), and NULL
    exactly when every successor is less. *)
Theorem successor_first_not_less (d : option dict_t) (lm : logmath_t)
    (ops : list trie_op) (σ : heap) (t : ngram_trie_s)
    (h : positive) (hn : ngram_trie_node_s) (w : Z) :
  build_trie d lm ops = Some (σ, t) →
  σ !! h = Some hn →
  ∃ ks pos,
    succ_wordstrs σ t (successors hn) = Some ks ∧
    ngram_trie_successor σ t h w = Some (successors hn !! pos) ∧
    (∀ (i : nat) a, (i < pos)%nat → ks !! i = Some a →
                    strcmp a (dict_wordstr (dict t) w) < 0) ∧
    (∀ (i : nat) a, (pos ≤ i)%nat → ks !! i = Some a →
                    strcmp (dict_wordstr (dict t) w) a ≤ 0).
Proof.
  intros Hb Hh. destruct (build_trie_built _ _ _ _ _ Hb) as (Inv & _ & _).
  destruct (Inv h hn Hh) as (_ & _ & ks & Hks & Hs).
  destruct (successor_pos_sorted σ t h hn w ks Hh Hks Hs) as (pos & Hp & _ & Hlo & Hhi).
  exists ks, pos. split; [done|]. split; [by apply successor_of_pos|]. done.
Qed.

Lemma successor_first_not_less_witness :
  ∃ σ t hn,
    build_trie (Some dict_abc) lmath_centi [op_add 1 0; op_add 1 2] = Some (σ, t) ∧
    σ !! 1%positive = Some hn ∧
    ∃ ks pos,
    succ_wordstrs σ t (successors hn) = Some ks ∧
    ngram_trie_successor σ t 1 1 = Some (successors hn !! pos) ∧
    (∀ (i : nat) a, (i < pos)%nat → ks !! i = Some a →
                    strcmp a (dict_wordstr (dict t) 1) < 0) ∧
    (∀ (i : nat) a, (pos ≤ i)%nat → ks !! i = Some a →
                    strcmp (dict_wordstr (dict t) 1) a ≤ 0).
Proof.
  eexists _, _, _.
  split; [vm_compute; reflexivity|]. split; [vm_compute; reflexivity|].
  apply (successor_first_not_less (Some dict_abc) lmath_centi
           [op_add 1 0; op_add 1 2]); vm_compute; reflexivity.
Defined.

(** ** The mutation interface on built tries *)

Lemma build_trie_snoc d lm ops op σ' t :
  build_trie d lm (ops ++ [op]) = Some (σ', t) →
  ∃ σ, build_trie d lm ops = Some (σ, t) ∧ run_op σ t op = Some σ'.
Proof.
  unfold build_trie.
  destruct (ngram_trie_init ∅ d lm) as [[σ0 t0]|]; [|discriminate]. osimpl.
  revert σ0. induction ops as [|o ops IH]; intros σ0; cbn [app run_ops].
  - destruct (run_op σ0 t0 op) as [σ1|] eqn:E; [|discriminate]. osimpl.
    intros [= <- <-]. eauto.
  - destruct (run_op σ0 t0 o) as [σ1|]; [|discriminate]. osimpl. apply IH.
Qed.

(** A successor of [h] with the surface form of [w] makes the lookup of
    [w] return a successor with that surface form, at or before it. *)
Lemma successor_hit (σ : heap) t h hn w ks (j : nat) :
  σ !! h = Some hn →
  succ_wordstrs σ t (successors hn) = Some ks →
  nondecreasing ks →
  ks !! j = Some (dict_wordstr (dict t) w) →
  ∃ pos c, (pos ≤ j)%nat ∧
    ngram_trie_successor σ t h w = Some (Some c) ∧
    successors hn !! pos = Some c ∧
    ks !! pos = Some (dict_wordstr (dict t) w).
Proof.
  intros Hh Hks Hs Hj.
  destruct (successor_pos_sorted σ t h hn w ks Hh Hks Hs) as (pos & Hp & _ & Hlo & Hhi).
  assert (pos ≤ j)%nat as Hle.
  { destruct (Nat.le_gt_cases pos j) as [|Hlt]; [done|].
    pose proof (Hlo j _ Hlt Hj) as T.
    rewrite (proj2 (strcmp_eq _ _) eq_refl) in T. lia. }
  assert (Hlen : length (successors hn) = length ks) by (by eapply length_mapM).
  destruct (lookup_lt_is_Some_2 (successors hn) pos) as [c Hc].
  { apply lookup_lt_Some in Hj. lia. }
  destruct (succ_wordstrs_lookup _ _ _ _ _ _ Hks Hc) as (a & Ha & Hw).
  assert (a = dict_wordstr (dict t) w) as ->.
  { apply str_le_antisym; [|by apply (Hhi pos)].
    destruct (decide (pos = j)) as [->|Hne].
    - rewrite Hj in Ha. injection Ha as <-. unfold str_le.
      by rewrite (proj2 (strcmp_eq _ _) eq_refl).
    - apply (Hs pos j); [lia|done..]. }
  exists pos, c. split; [done|]. split; [|done].
  rewrite (successor_of_pos _ _ _ _ _ _ Hh Hp). by rewrite Hc.
Qed.

Lemma successor_finds_child_inv (σ : heap) t h c hn cn ks :
  trie_inv σ t →
  σ !! h = Some hn →
  succ_wordstrs σ t (successors hn) = Some ks →
  NoDup ks →
  c ∈ successors hn →
  σ !! c = Some cn →
  ngram_trie_successor σ t h (word cn) = Some (Some c).
Proof.
  intros Inv Hh Hks Hnd [j Hj]%list_elem_of_lookup_1 Hc.
  destruct (Inv h hn Hh) as (_ & _ & ks' & Hks' & Hs).
  rewrite Hks in Hks'. injection Hks' as <-.
  destruct (succ_wordstrs_lookup _ _ _ _ _ _ Hks Hj) as (k & Hk & Hw).
  unfold node_wordstr in Hw. rewrite Hc in Hw. osimpl in Hw. injection Hw as <-.
  destruct (successor_hit σ t h hn (word cn) ks j Hh Hks Hs Hk)
    as (pos & c' & Hle & Hsucc & Hc' & Hkpos).
  assert (pos = j) as -> by (by eapply NoDup_lookup).
  rewrite Hj in Hc'. injection Hc' as <-. done.
Qed.

(** X2: on a trie made through the mutation interface, a successor of [h]
    is found by [ngram_trie_successor] under its own word, provided the
    successors of [h] have pairwise different surface forms. *)
Theorem successor_finds_child (d : option dict_t) (lm : logmath_t)
    (ops : list trie_op) (σ : heap) (t : ngram_trie_s)
    (h c : positive) (hn cn : ngram_trie_node_s) (ks : list string) :
  build_trie d lm ops = Some (σ, t) →
  σ !! h = Some hn →
  succ_wordstrs σ t (successors hn) = Some ks →
  NoDup ks →
  c ∈ successors hn →
  σ !! c = Some cn →
  ngram_trie_successor σ t h (word cn) = Some (Some c).
Proof.
  intros Hb. destruct (build_trie_built _ _ _ _ _ Hb) as (Inv & _ & _).
  by apply successor_finds_child_inv.
Qed.

Lemma successor_finds_child_witness :
  ∃ σ t hn cn,
    build_trie (Some dict_abc) lmath_centi [op_add 1 2; op_add 1 0] = Some (σ, t) ∧
    σ !! 1%positive = Some hn ∧
    σ !! 2%positive = Some cn ∧
    ngram_trie_successor σ t 1 (word cn) = Some (Some 2%positive).
Proof.
  eexists _, _, _, _.
  split; [vm_compute; reflexivity|]. split; [vm_compute; reflexivity|].
  split; [vm_compute; reflexivity|].
  eapply (successor_finds_child (Some dict_abc) lmath_centi
            [op_add 1 2; op_add 1 0] _ _ 1 2 _ _ ["a"; "c"]).
  - vm_compute; reflexivity.
  - vm_compute; reflexivity.
  - vm_compute; reflexivity.
  - apply (bool_decide_unpack _). vm_compute. reflexivity.
  - apply (bool_decide_unpack _). vm_compute. reflexivity.
  - vm_compute; reflexivity.
Defined.

(** X3: when the last of a sequence of operations adds the word [w] below
    [h], the lookup of [w] below [h] finds a node, and the node has the
    surface form of [w]. *)
Theorem add_then_successor (d : option dict_t) (lm : logmath_t)
    (ops : list trie_op) (σ' : heap) (t : ngram_trie_s) (h : positive) (w : Z) :
  build_trie d lm (ops ++ [op_add h w]) = Some (σ', t) →
  ∃ c cn, ngram_trie_successor σ' t h w = Some (Some c) ∧
          σ' !! c = Some cn ∧
          dict_wordstr (dict t) (word cn) = dict_wordstr (dict t) w.
Proof.
  intros Hb. destruct (build_trie_built _ _ _ _ _ Hb) as (Inv & _ & _).
  destruct (build_trie_snoc _ _ _ _ _ _ Hb) as (σ & _ & Hop).
  cbn [run_op] in Hop.
  destruct (σ !! h) as [hn0|] eqn:Hh0; [|discriminate]. osimpl in Hop.
  destruct (ngram_trie_add_successor σ t h w) as [[σ1 ng]|] eqn:Hadd; [|discriminate].
  osimpl in Hop. cbn [fst] in Hop. injection Hop as ->.
  destruct (add_successor_shape _ _ _ _ _ _ Hadd) as (Hfresh & hn & pos & Hh2 & ->).
  assert (h ≠ ng) as Hne by (intros ->; rewrite Hfresh in Hh0; discriminate).
  set (hn' := set_successors hn (garray_insert (successors hn) pos ng)) in *.
  assert (Hh' : <[h := hn']> (<[ng := {| word := w; log_prob := 0; log_bowt := 0;
                 history := Some h; successors := [] |}]> σ) !! h = Some hn')
    by apply lookup_insert_eq.
  destruct (Inv h hn' Hh') as (_ & _ & ks & Hks & Hs).
  assert (ng ∈ successors hn') as [j Hj]%list_elem_of_lookup_1
    by (apply elem_of_garray_insert; by left).
  destruct (succ_wordstrs_lookup _ _ _ _ _ _ Hks Hj) as (k & Hk & Hw).
  unfold node_wordstr in Hw.
  rewrite lookup_insert_ne, lookup_insert_eq in Hw by done.
  osimpl in Hw. cbn [word] in Hw. injection Hw as <-.
  destruct (successor_hit _ t h hn' w ks j Hh' Hks Hs Hk)
    as (pos' & c & _ & Hsucc & Hc & Hkpos).
  destruct (succ_wordstrs_lookup _ _ _ _ _ _ Hks Hc) as (a & Ha & Hwc).
  rewrite Hkpos in Ha. injection Ha as <-.
  unfold node_wordstr in Hwc.
  destruct (_ !! c) as [cn|] eqn:Hcn in Hwc; [|discriminate].
  osimpl in Hwc. injection Hwc as Hwc.
  exists c, cn. done.
Qed.

Lemma add_then_successor_witness :
  ∃ σ' t,
    build_trie (Some dict_abc) lmath_centi ([op_add 1 2] ++ [op_add 1 0])
      = Some (σ', t) ∧
    ∃ c cn,
      ngram_trie_successor σ' t 1 0 = Some (Some c) ∧
      σ' !! c = Some cn ∧
      dict_wordstr (dict t) (word cn) = dict_wordstr (dict t) 0.
Proof.
  eexists _, _. split; [vm_compute; reflexivity|].
  apply (add_then_successor (Some dict_abc) lmath_centi [op_add 1 2]).
  vm_compute; reflexivity.
Defined.

Lemma built_child_ne (σ : heap) t p nd c :
  built_inv σ t → σ !! p = Some nd → c ∈ successors nd →
  c ≠ p ∧ c ≠ root t ∧ ∃ cn, σ !! c = Some cn ∧ history cn = Some p.
Proof.
  intros (Inv & (dp & M & D) & rn & Hroot & Hrh) Hp Hc.
  destruct (Inv p nd Hp) as (_ & Hback & _).
  destruct (Hback c Hc) as (cn & Hcn & Hh).
  destruct (D p nd Hp) as (_ & Hd). destruct (Hd c Hc) as (_ & Hdc).
  split; [intros ->; lia|]. split; [|eauto].
  intros ->. rewrite Hroot in Hcn. injection Hcn as <-. congruence.
Qed.

(** X4: on a trie made through the mutation interface,
    [ngram_trie_delete_successor] fails with -1 and changes nothing
    exactly when [ngram_trie_successor] returns NULL; otherwise it returns
    0, frees the node that [ngram_trie_successor] returns, takes that one
    entry out of the array of [h] and leaves every other node as it was. *)
Theorem delete_removes_found_successor (d : option dict_t) (lm : logmath_t)
    (ops : list trie_op) (σ : heap) (t : ngram_trie_s)
    (h : positive) (hn : ngram_trie_node_s) (w : Z) :
  build_trie d lm ops = Some (σ, t) →
  σ !! h = Some hn →
  (ngram_trie_successor σ t h w = Some None ∧
   ngram_trie_delete_successor σ t h w = Some (σ, -1)) ∨
  (∃ (pos : nat) ng σ',
     ngram_trie_successor σ t h w = Some (Some ng) ∧
     successors hn !! pos = Some ng ∧
     ngram_trie_delete_successor σ t h w = Some (σ', 0) ∧
     σ' !! ng = None ∧
     σ' !! h = Some (set_successors hn
                       (garray_delete (successors hn) pos (pos + 1))) ∧
     (ng ∉ garray_delete (successors hn) pos (pos + 1)) ∧
     length (successors hn)
       = S (length (garray_delete (successors hn) pos (pos + 1))) ∧
     (∀ p, p ≠ h → p ≠ ng → σ' !! p = σ !! p)).
Proof.
  intros Hb Hh. pose proof (build_trie_built _ _ _ _ _ Hb) as B.
  destruct B as (Inv & B2). destruct (Inv h hn Hh) as (Hnd & _ & ks & Hks & Hs).
  destruct (successor_pos_sorted σ t h hn w ks Hh Hks Hs) as (pos & Hp & _).
  rewrite (successor_of_pos _ _ _ _ _ _ Hh Hp).
  unfold ngram_trie_delete_successor. rewrite Hp, Hh. osimpl.
  unfold garray_next_idx, garray_ent.
  destruct (Nat.leb_spec (length (successors hn)) pos) as [Hle|Hlt].
  { left. by rewrite lookup_ge_None_2. }
  right. destruct (lookup_lt_is_Some_2 (successors hn) pos Hlt) as [ng Hng].
  rewrite Hng. osimpl.
  assert (ng ∈ successors hn) as Hin by (by eapply list_elem_of_lookup_2).
  destruct (built_child_ne σ t h hn ng (conj Inv B2) Hh Hin) as (Hne & _ & _).
  unfold listelem_free. rewrite lookup_delete_ne, Hh by done. osimpl.
  eexists pos, ng, _. split; [done|]. split; [done|]. split; [done|].
  split; [by rewrite lookup_insert_ne, lookup_delete_eq|].
  split; [by rewrite lookup_insert_eq|]. split; [|split].
  - intros [i Hi]%list_elem_of_lookup_1.
    rewrite lookup_garray_delete in Hi by done.
    destruct (decide (i < pos)%nat).
    + pose proof (NoDup_lookup _ _ _ _ Hnd Hi Hng). lia.
    + pose proof (NoDup_lookup _ _ _ _ Hnd Hi Hng). lia.
  - unfold garray_delete. rewrite length_app, length_take, length_drop. lia.
  - intros p Hph Hpn. by rewrite lookup_insert_ne, lookup_delete_ne.
Qed.

Lemma delete_removes_found_successor_witness :
  ∃ σ t hn,
    build_trie (Some dict_abc) lmath_centi [op_add 1 2; op_add 1 0] = Some (σ, t) ∧
    σ !! 1%positive = Some hn ∧
    ∃ (pos : nat) ng σ',
      ngram_trie_successor σ t 1 2 = Some (Some ng) ∧
      successors hn !! pos = Some ng ∧
      ngram_trie_delete_successor σ t 1 2 = Some (σ', 0) ∧
      σ' !! ng = None.
Proof.
  eexists _, _, _.
  split; [vm_compute; reflexivity|]. split; [vm_compute; reflexivity|].
  destruct (delete_removes_found_successor (Some dict_abc) lmath_centi
              [op_add 1 2; op_add 1 0] _ _ 1 _ 2
              ltac:(vm_compute; reflexivity) ltac:(vm_compute; reflexivity))
    as [[Hnone _]|(pos & ng & σ' & H1 & H2 & H3 & H4 & _)].
  - vm_compute in Hnone. discriminate.
  - exists pos, ng, σ'. auto.
Defined.

(** X5: on a trie made through the mutation interface,
    [ngram_trie_add_successor] below an allocated node [h] always
    succeeds.  The node it returns is newly allocated and carries the
    word [w], the history [h], no successors and zero values; it is put
    into the array of [h] at one position, and every other node stays as
    it was. *)
Theorem add_successor_adds_leaf (d : option dict_t) (lm : logmath_t)
    (ops : list trie_op) (σ : heap) (t : ngram_trie_s)
    (h : positive) (hn : ngram_trie_node_s) (w : Z) :
  build_trie d lm ops = Some (σ, t) →
  σ !! h = Some hn →
  ∃ σ' ng (pos : nat),
    ngram_trie_add_successor σ t h w = Some (σ', ng) ∧
    σ !! ng = None ∧
    σ' !! ng = Some {| word := w; log_prob := 0; log_bowt := 0;
                       history := Some h; successors := [] |} ∧
    (pos ≤ length (successors hn))%nat ∧
    σ' !! h = Some (set_successors hn (garray_insert (successors hn) pos ng)) ∧
    (∀ p, p ≠ h → p ≠ ng → σ' !! p = σ !! p).
Proof.
  intros Hb Hh. destruct (build_trie_built _ _ _ _ _ Hb) as (Inv & _).
  destruct (Inv h hn Hh) as (_ & Hback & ks & Hks & Hs).
  unfold ngram_trie_add_successor, ngram_trie_node_alloc, insert_successor.
  set (ng := listelem_malloc σ).
  assert (σ !! ng = None) as Hfresh by apply listelem_malloc_fresh.
  assert (h ≠ ng) as Hne by (intros E; rewrite E, Hfresh in Hh; discriminate).
  rewrite insert_insert_eq. rewrite lookup_insert_eq. osimpl.
  rewrite lookup_insert_ne, Hh by done. osimpl.
  set (new := {| word := w; log_prob := 0; log_bowt := 0;
                 history := Some h; successors := [] |}).
  assert (Hks2 : succ_wordstrs (<[ng := new]> σ) t (successors hn) = Some ks).
  { rewrite <- Hks. apply succ_wordstrs_frame. intros c Hc.
    destruct (Hback c Hc) as (cn & Hcn & _). unfold node_wordstr.
    rewrite lookup_insert_ne; [done|]. intros <-. congruence. }
  destruct (bisect_right_sorted _ t new (successors hn) ks Hks2 Hs)
    as (pos & -> & Hpos & _).
  osimpl. assert (Hlen : length (successors hn) = length ks) by (by eapply length_mapM).
  exists (<[h := set_successors hn (garray_insert (successors hn) pos ng)]>
            (<[ng := new]> σ)), ng, pos.
  split.
  { unfold garray_next_idx. destruct (Nat.eqb_spec pos (length (successors hn))) as [->|]; [|done].
    by rewrite garray_insert_end. }
  split; [done|]. split; [by rewrite lookup_insert_ne, lookup_insert_eq|].
  split; [lia|]. split; [by rewrite lookup_insert_eq|].
  intros p Hph Hpn. by rewrite !lookup_insert_ne.
Qed.

Lemma add_successor_adds_leaf_witness :
  ∃ σ t hn,
    build_trie (Some dict_abc) lmath_centi [op_add 1 2; op_add 1 0] = Some (σ, t) ∧
    σ !! 1%positive = Some hn ∧
    ∃ σ' ng (pos : nat),
      ngram_trie_add_successor σ t 1 1 = Some (σ', ng) ∧
      σ !! ng = None ∧
      σ' !! ng = Some {| word := 1; log_prob := 0; log_bowt := 0;
                         history := Some 1%positive; successors := [] |} ∧
      (pos ≤ length (successors hn))%nat ∧
      σ' !! 1%positive
        = Some (set_successors hn (garray_insert (successors hn) pos ng)) ∧
      (∀ p, p ≠ 1%positive → p ≠ ng → σ' !! p = σ !! p).
Proof.
  eexists _, _, _.
  split; [vm_compute; reflexivity|]. split; [vm_compute; reflexivity|].
  apply (add_successor_adds_leaf (Some dict_abc) lmath_centi
           [op_add 1 2; op_add 1 0]); vm_compute; reflexivity.
Defined.

(** ** The shape of built tries *)

(** X6: on a trie made through the mutation interface every entry of a
    successor array is an allocated node whose history pointer is the
    owner of the array; no node is entered twice and the root is nobody's
    successor.  So every node but the root has one parent. *)
Theorem successors_point_back (d : option dict_t) (lm : logmath_t)
    (ops : list trie_op) (σ : heap) (t : ngram_trie_s)
    (p : positive) (nd : ngram_trie_node_s) :
  build_trie d lm ops = Some (σ, t) →
  σ !! p = Some nd →
  NoDup (successors nd) ∧
  ∀ c, c ∈ successors nd →
       c ≠ root t ∧ ∃ cn, σ !! c = Some cn ∧ history cn = Some p.
Proof.
  intros Hb Hp. pose proof (build_trie_built _ _ _ _ _ Hb) as B.
  split; [by destruct B as (Inv & _); destruct (Inv p nd Hp)|].
  intros c Hc. by destruct (built_child_ne σ t p nd c B Hp Hc) as (_ & ? & ?).
Qed.

Lemma successors_point_back_witness :
  ∃ σ t nd,
    build_trie (Some dict_abc) lmath_centi [op_add 1 2; op_add 2 0] = Some (σ, t) ∧
    σ !! 2%positive = Some nd ∧
    NoDup (successors nd) ∧
    ∀ c, c ∈ successors nd →
         c ≠ root t ∧ ∃ cn, σ !! c = Some cn ∧ history cn = Some 2%positive.
Proof.
  eexists _, _, _.
  split; [vm_compute; reflexivity|]. split; [vm_compute; reflexivity|].
  apply (successors_point_back (Some dict_abc) lmath_centi
           [op_add 1 2; op_add 2 0]); vm_compute; reflexivity.
Defined.

Lemma run_op_root (σ : heap) t op σ' rn :
  built_inv σ t → σ !! root t = Some rn → run_op σ t op = Some σ' →
  ∃ rn', σ' !! root t = Some rn' ∧ word rn' = word rn.
Proof.
  intros B Hroot Hop. destruct op as [h w|h w]; cbn [run_op] in Hop.
  - destruct (σ !! h) as [hn0|] eqn:Hh0; [|discriminate]. osimpl in Hop.
    destruct (ngram_trie_add_successor σ t h w) as [[σ1 ng]|] eqn:Hadd; [|discriminate].
    osimpl in Hop. cbn [fst] in Hop. injection Hop as ->.
    destruct (add_successor_shape _ _ _ _ _ _ Hadd) as (Hfresh & hn & pos & Hh2 & ->).
    assert (root t ≠ ng) as Hne by (intros E; rewrite E, Hfresh in Hroot; discriminate).
    destruct (decide (h = root t)) as [->|Hhr].
    + rewrite lookup_insert_eq. rewrite lookup_insert_ne, Hroot in Hh2 by done.
      injection Hh2 as <-. eauto.
    + rewrite !lookup_insert_ne by done. eauto.
  - destruct (σ !! h) as [hn0|] eqn:Hh0; [|discriminate]. osimpl in Hop.
    destruct (ngram_trie_delete_successor σ t h w) as [[σ1 r]|] eqn:Hdel; [|discriminate].
    osimpl in Hop. cbn [fst] in Hop. injection Hop as ->.
    destruct (delete_successor_shape _ _ _ _ _ _ Hdel)
      as [->|(hn & pos & ng & Hh & Hng & Hne & ->)]; [eauto|].
    assert (ng ∈ successors hn) as Hin by (by eapply list_elem_of_lookup_2).
    destruct (built_child_ne σ t h hn ng B Hh Hin) as (_ & Hnr & _).
    destruct (decide (h = root t)) as [->|Hhr].
    + rewrite lookup_insert_eq. rewrite Hroot in Hh. injection Hh as <-. eauto.
    + rewrite lookup_insert_ne, lookup_delete_ne by done. eauto.
Qed.

Lemma run_ops_root (t : ngram_trie_s) (ops : list trie_op) :
  ∀ σ σ' rn, built_inv σ t → σ !! root t = Some rn → run_ops σ t ops = Some σ' →
  ∃ rn', σ' !! root t = Some rn' ∧ word rn' = word rn.
Proof.
  induction ops as [|op ops IH]; intros σ σ' rn B Hroot; cbn [run_ops].
  - intros [= <-]. eauto.
  - destruct (run_op σ t op) as [σ1|] eqn:Hop; [|discriminate]. osimpl. intros Hops.
    destruct (run_op_root _ _ _ _ _ B Hroot Hop) as (rn1 & Hroot1 & <-).
    eapply IH; [|exact Hroot1|exact Hops]. by eapply run_op_built.
Qed.

(** X7: whatever is added and deleted through the mutation interface,
    the root stays allocated with the word -1 and a NULL history, and the
    nodes below it form a tree of finite depth. *)
Theorem built_trie_is_rooted_tree (d : option dict_t) (lm : logmath_t)
    (ops : list trie_op) (σ : heap) (t : ngram_trie_s) :
  build_trie d lm ops = Some (σ, t) →
  ∃ rn depth,
    σ !! root t = Some rn ∧ word rn = -1 ∧ history rn = None ∧
    bounded σ depth (root t) = true.
Proof.
  intros Hb. pose proof (build_trie_built _ _ _ _ _ Hb) as B.
  destruct B as (_ & (dp & M & D) & rn & Hroot & Hrh).
  exists rn, (S (M - dp (root t))). split; [done|]. split; [|split; [done|]].
  - revert Hb. unfold build_trie.
    destruct (ngram_trie_init ∅ d lm) as [[σ0 t0]|] eqn:Hinit; [|discriminate]. osimpl.
    destruct (run_ops σ0 t0 ops) as [σ1|] eqn:Hops; [|discriminate]. osimpl.
    intros [= -> ->].
    assert (∃ r0, σ0 !! root t = Some r0 ∧ word r0 = -1) as (r0 & Hr0 & Hw0).
    { revert Hinit. unfold ngram_trie_init, ngram_trie_node_alloc.
      destruct d; destruct (init_shift_loop _ _ _) as [[z s]|]; try discriminate;
        osimpl; intros [= <- <-]; cbn [root]; rewrite lookup_insert_eq; eauto. }
    destruct (run_ops_root t ops σ0 σ r0 (init_built _ _ _ _ Hinit) Hr0 Hops)
      as (rn' & Hrn' & Hw). rewrite Hroot in Hrn'. injection Hrn' as <-. congruence.
  - eapply depth_inv_bounded; eauto.
Qed.

Lemma built_trie_is_rooted_tree_witness :
  ∃ σ t,
    build_trie (Some dict_abc) lmath_centi
      [op_add 1 2; op_add 2 0; op_delete 1 2] = Some (σ, t) ∧
    ∃ rn depth,
      σ !! root t = Some rn ∧ word rn = -1 ∧ history rn = None ∧
      bounded σ depth (root t) = true.
Proof.
  eexists _, _. split; [vm_compute; reflexivity|].
  apply (built_trie_is_rooted_tree (Some dict_abc) lmath_centi
           [op_add 1 2; op_add 2 0; op_delete 1 2]); vm_compute; reflexivity.
Defined.

(** ** Queries *)

(** X8: in a loaded model of order two or more a lookup of a word of
    the dictionary after a non-empty history of words of the dictionary
    returns, and what it returns is always NULL, whatever N-Grams the
    model holds. *)
Theorem history_lookup_is_null (fuel0 : nat) (d : option dict_t)
    (lm : logmath_t) (arpafile : list string) (rc : Z) (σ : heap)
    (t : ngram_trie_s) (w : string) (hs : list string) :
  load_arpa fuel0 d lm arpafile = Some (rc, σ, t) →
  1 < t_n t →
  hs ≠ [] →
  dict_wordid (dict t) w ≠ BAD_S3WID →
  Forall (λ h, dict_wordid (dict t) h ≠ BAD_S3WID) hs →
  (∃ fuel, ngram_trie_ngram fuel σ t w hs = Some None) ∧
  (∀ fuel r, ngram_trie_ngram fuel σ t w hs = Some r → r = None).
Proof.
  intros Hload Hn Hhs _ _.
  assert (0 < Z.of_nat (length hs)) as Hlen by (destruct hs; [done|cbn; lia]).
  assert (∀ fuel r, ngram_trie_ngram fuel σ t w hs = Some r → r = None) as Hnull.
  { intros fuel r. unfold ngram_trie_ngram.
    by apply ngram_v_with_history_is_null. }
  split; [|done].
  destruct (load_arpa_bounded _ _ _ _ _ _ _ Hload) as (depth & Hb).
  destruct (ngram_v_total σ t depth (dict_wordid (dict t) w)
              (map (dict_wordid (dict t)) hs) (Z.of_nat (length hs)) Hb
              ltac:(rewrite length_map; lia) depth ltac:(lia)) as (r & Hr & _).
  exists depth. unfold ngram_trie_ngram. rewrite Hr. f_equal.
  eapply (Hnull depth). unfold ngram_trie_ngram. exact Hr.
Qed.

Lemma history_lookup_is_null_witness :
  ∃ σ t,
    load_arpa 10 None lmath_centi scenario_A = Some (0, σ, t) ∧
    1 < t_n t ∧
    dict_wordid (dict t) "b" ≠ BAD_S3WID ∧
    Forall (λ h, dict_wordid (dict t) h ≠ BAD_S3WID) ["a"] ∧
    (∃ fuel, ngram_trie_ngram fuel σ t "b" ["a"] = Some None) ∧
    (∀ fuel r, ngram_trie_ngram fuel σ t "b" ["a"] = Some r → r = None).
Proof.
  eexists _, _. split; [vm_compute; reflexivity|]. split; [vm_compute; reflexivity|].
  match goal with
  | |- ?A ∧ ?B ∧ _ =>
      assert (Ha : A) by (vm_compute; discriminate);
      assert (Hb : B) by (repeat constructor; vm_compute; discriminate)
  end.
  split; [exact Ha|]. split; [exact Hb|].
  apply (history_lookup_is_null 10 None lmath_centi scenario_A 0).
  - vm_compute; reflexivity.
  - vm_compute; reflexivity.
  - discriminate.
  - exact Ha.
  - exact Hb.
Defined.

Lemma build_trie_order d lm ops σ t :
  build_trie d lm ops = Some (σ, t) → t_n t = 0.
Proof.
  unfold build_trie, ngram_trie_init, ngram_trie_node_alloc.
  destruct d; destruct (init_shift_loop _ _ _) as [[z s]|]; try discriminate; osimpl.
  all: destruct (run_ops _ _ ops); [|discriminate]; osimpl.
  all: by intros [= <- <-].
Qed.

(** X9: the order of a trie is set by the loader alone.  On a trie that
    was made through the mutation interface only, the lookup of an N-Gram
    ignores the history it is given and returns what
    [ngram_trie_successor] finds for the head word below the root. *)
Theorem built_trie_lookup_ignores_history (d : option dict_t) (lm : logmath_t)
    (ops : list trie_op) (σ : heap) (t : ngram_trie_s) (fuel : nat)
    (w : string) (hs : list string) :
  build_trie d lm ops = Some (σ, t) →
  ngram_trie_ngram (S fuel) σ t w hs
  = ngram_trie_successor σ t (root t) (dict_wordid (dict t) w).
Proof.
  intros Hb. pose proof (build_trie_order _ _ _ _ _ Hb) as Hn.
  unfold ngram_trie_ngram, ngram_trie_ngram_v, ngram_trie_root. rewrite Hn.
  cbn [ngram_v_loop].
  destruct (Z.ltb_spec (0 - 1) (Z.of_nat (length hs))) as [_|Hle]; [|lia].
  replace (0 <? 0 - 1) with false by (symmetry; apply Z.ltb_ge; lia). done.
Qed.

Lemma built_trie_lookup_ignores_history_witness :
  ∃ σ t,
    build_trie (Some dict_abc) lmath_centi [op_add 1 0; op_add 2 1] = Some (σ, t) ∧
    ngram_trie_ngram 1 σ t "b" ["a"]
    = ngram_trie_successor σ t (root t) (dict_wordid (dict t) "b").
Proof.
  eexists _, _. split; [vm_compute; reflexivity|].
  apply (built_trie_lookup_ignores_history (Some dict_abc) lmath_centi
           [op_add 1 0; op_add 2 1]).
  vm_compute; reflexivity.
Defined.

(** X10: the probability [ngram_trie_prob_v] returns does not depend on
    the [n_used] argument: with a cell and with NULL the value is the
    same, and the calls succeed together. *)
Theorem prob_v_value_ignores_n_used (σ : heap) (t : ngram_trie_s)
    (fuel : nat) (n_used : option Z) (w : Z) (hist : list Z) (n_hist : Z) :
  fst <$> ngram_trie_prob_v fuel σ t n_used w hist n_hist
  = fst <$> ngram_trie_prob_v fuel σ t None w hist n_hist.
Proof.
  revert n_used n_hist. induction fuel as [|fuel IH]; intros n_used n_hist; [done|].
  cbn [ngram_trie_prob_v].
  destruct (ngram_trie_ngram_v fuel σ t w hist n_hist) as [[ng|]|]; osimpl; [|..|done].
  - by destruct (σ !! ng).
  - destruct (0 <? n_hist); [|done].
    pose proof (IH (decr_n_used (store_n_used n_used (n_hist + 1))) (n_hist - 1)) as E.
    cbn [store_n_used decr_n_used].
    destruct (ngram_trie_prob_v fuel σ t (decr_n_used _) w hist (n_hist - 1))
      as [[b1 u1]|];
      destruct (ngram_trie_prob_v fuel σ t None w hist (n_hist - 1)) as [[b2 u2]|];
      cbn in E; try discriminate; [|done].
    injection E as ->. osimpl.
    destruct (hist !! 0%nat); [|done]. osimpl.
    by destruct (ngram_trie_bowt_v _ _ _ _ _ _).
Qed.

(** ** Iterators *)

(** An iterator that stops at the end of the array visits, from position
    [k] on, the entries left in the array of its node. *)
Lemma iter_visit_from (σ : heap) t h hn :
  σ !! h = Some hn →
  Z.of_nat (length (successors hn)) < 2147483648 →
  ∀ fuel (k : nat),
    (k < length (successors hn))%nat →
    (length (successors hn) - k ≤ fuel)%nat →
    iter_visit fuel σ t {| it_cur := h; it_pos := Z.of_nat k; it_nostop := false |}
    = Some (map Some (drop k (successors hn))).
Proof.
  intros Hh Hlen. induction fuel as [|fuel IH]; intros k Hk Hf; [lia|].
  cbn [iter_visit]. unfold ngram_trie_iter_get, ngram_trie_iter_next.
  cbn [it_cur it_pos it_nostop]. rewrite Hh. osimpl. unfold garray_next_idx, garray_ent.
  destruct (Z.leb_spec (Z.of_nat (length (successors hn))) (Z.of_nat k)) as [|_]; [lia|].
  rewrite Nat2Z.id.
  destruct (lookup_lt_is_Some_2 (successors hn) k Hk) as [c Hc]. rewrite Hc. osimpl.
  rewrite (drop_S _ _ _ Hc). rewrite wrap32_small by lia.
  destruct (Z.leb_spec (Z.of_nat (length (successors hn))) (Z.of_nat k + 1)) as [Hend|Hmore].
  - rewrite drop_ge by lia. done.
  - replace (Z.of_nat k + 1) with (Z.of_nat (S k)) by lia.
    osimpl. rewrite IH by lia. done.
Qed.

(** X11: the enumeration over [ngram_trie_successors t h] visits the
    successors of [h], each once and in the order of the array, and then
    ends; when [h] has no successor the loop body runs once, with NULL. *)
Theorem successors_iterator_visits_all (σ : heap) (t : ngram_trie_s)
    (h : positive) (hn : ngram_trie_node_s) (fuel : nat) :
  σ !! h = Some hn →
  Z.of_nat (length (successors hn)) < 2147483648 →
  (length (successors hn) ≤ fuel)%nat →
  iter_visit (S fuel) σ t (ngram_trie_successors t h)
  = Some (match successors hn with
          | [] => [None]
          | _ => map Some (successors hn)
          end).
Proof.
  intros Hh Hlen Hf. unfold ngram_trie_successors.
  assert (successors hn = [] ∨ ∃ c gar, successors hn = c :: gar) as [E|(c & gar & E)]
    by (destruct (successors hn); eauto).
  - cbn [iter_visit]. unfold ngram_trie_iter_get, ngram_trie_iter_next.
    cbn [it_cur it_pos it_nostop]. rewrite Hh. osimpl. by rewrite E.
  - change 0 with (Z.of_nat 0).
    rewrite (iter_visit_from σ t h hn Hh Hlen); [|rewrite E; cbn; lia|lia].
    rewrite drop_0. by rewrite E.
Qed.

Lemma successors_iterator_visits_all_witness :
  ∃ σ t hn,
    build_trie (Some dict_abc) lmath_centi [op_add 1 2; op_add 1 0] = Some (σ, t) ∧
    σ !! 1%positive = Some hn ∧
    iter_visit 3 σ t (ngram_trie_successors t 1)
    = Some (match successors hn with
            | [] => [None]
            | _ => map Some (successors hn)
            end).
Proof.
  eexists _, _, _.
  split; [vm_compute; reflexivity|]. split; [vm_compute; reflexivity|].
  apply (successors_iterator_visits_all _ _ 1 _ 2).
  - vm_compute; reflexivity.
  - vm_compute; reflexivity.
  - vm_compute. lia.
Defined.

(** X12: the iterator of [ngram_trie_ngrams t n] stands on the node
    reached from the root by [n - 1] steps to the first successor, and its
    enumeration visits the successors of that one node and ends: of the
    N-Grams of order [n] it reaches those of the first history only. *)
Theorem ngrams_iterator_visits_first_history (σ : heap) (t : ngram_trie_s)
    (n : Z) (itor : ngram_trie_iter_s) (hn : ngram_trie_node_s) (fuel : nat) :
  ngram_trie_ngrams σ t n = Some itor →
  σ !! it_cur itor = Some hn →
  successors hn ≠ [] →
  Z.of_nat (length (successors hn)) < 2147483648 →
  (length (successors hn) ≤ fuel)%nat →
  first_ngram σ (root t) (Z.to_nat (n - 1)) = Some (it_cur itor) ∧
  iter_visit fuel σ t itor = Some (map Some (successors hn)).
Proof.
  unfold ngram_trie_ngrams. intros Hit Hh Hne Hlen Hf.
  destruct (first_ngram σ (root t) (Z.to_nat (n - 1))) as [h|]; [|discriminate].
  osimpl in Hit. injection Hit as <-. cbn [it_cur] in *. split; [done|].
  change 0 with (Z.of_nat 0).
  rewrite (iter_visit_from σ t h hn Hh Hlen); [done| |lia].
  destruct (successors hn); [done|cbn; lia].
Qed.

Lemma ngrams_iterator_visits_first_history_witness :
  ∃ σ t itor hn,
    load_arpa 10 None lmath_centi scenario_C = Some (0, σ, t) ∧
    ngram_trie_ngrams σ t 2 = Some itor ∧
    σ !! it_cur itor = Some hn ∧
    first_ngram σ (root t) (Z.to_nat (2 - 1)) = Some (it_cur itor) ∧
    iter_visit 2 σ t itor = Some (map Some (successors hn)).
Proof.
  eexists _, _, _, _.
  split; [vm_compute; reflexivity|]. split; [vm_compute; reflexivity|].
  split; [vm_compute; reflexivity|].
  apply (ngrams_iterator_visits_first_history _ _ 2 _ _ 2).
  - vm_compute; reflexivity.
  - vm_compute; reflexivity.
  - vm_compute. discriminate.
  - vm_compute; reflexivity.
  - vm_compute. lia.
Defined.

(** X13: on a trie made through the mutation interface,
    [ngram_trie_iter_up] after a [ngram_trie_iter_down] that did not end
    the iteration stands on the node it started from, but at position 0:
    the position of the successor that was entered is lost. *)
Theorem iter_down_then_up (d : option dict_t) (lm : logmath_t)
    (ops : list trie_op) (σ : heap) (t : ngram_trie_s)
    (itor itor' : ngram_trie_iter_s) :
  build_trie d lm ops = Some (σ, t) →
  0 ≤ it_pos itor →
  ngram_trie_iter_down σ itor = Some (Some itor') →
  ngram_trie_iter_up σ itor'
  = Some (Some {| it_cur := it_cur itor; it_pos := 0;
                  it_nostop := it_nostop itor |}).
Proof.
  intros Hb _. pose proof (build_trie_built _ _ _ _ _ Hb) as B.
  unfold ngram_trie_iter_down, ngram_trie_iter_up, garray_ent.
  destruct (σ !! it_cur itor) as [cn|] eqn:Hcur; [|discriminate]. osimpl.
  destruct (successors cn !! Z.to_nat (it_pos itor)) as [c|] eqn:Hc; [|discriminate].
  osimpl. apply list_elem_of_lookup_2 in Hc.
  destruct (built_child_ne σ t _ cn c B Hcur Hc) as (_ & _ & ccn & Hccn & Hh).
  rewrite Hccn. osimpl. destruct (_ =? _)%nat; [discriminate|].
  intros [= <-]. cbn [it_cur it_pos it_nostop]. rewrite Hccn. osimpl. by rewrite Hh.
Qed.

Lemma iter_down_then_up_witness :
  ∃ σ t itor',
    build_trie (Some dict_abc) lmath_centi
      [op_add 1 0; op_add 1 2; op_add 3 1] = Some (σ, t) ∧
    ngram_trie_iter_down σ {| it_cur := 1; it_pos := 1; it_nostop := false |}
    = Some (Some itor') ∧
    ngram_trie_iter_up σ itor'
    = Some (Some {| it_cur := 1; it_pos := 0; it_nostop := false |}).
Proof.
  eexists _, _, _.
  split; [vm_compute; reflexivity|]. split; [vm_compute; reflexivity|].
  eapply (iter_down_then_up (Some dict_abc) lmath_centi
            [op_add 1 0; op_add 1 2; op_add 3 1] _ _
            {| it_cur := 1; it_pos := 1; it_nostop := false |}).
  - vm_compute; reflexivity.
  - vm_compute. discriminate.
  - vm_compute; reflexivity.
Defined.

(** ** Initialisation *)

Lemma init_shift_loop_spec :
  ∀ (fuel : nat) z s,
    0 ≤ s → s + Z.of_nat fuel < 2147483647 →
    - (32768 * 2 ^ Z.of_nat fuel) ≤ z →
    ∃ k, 0 ≤ k ≤ Z.of_nat fuel ∧
         init_shift_loop (S fuel) z s = Some (Z.shiftr z k, s + k) ∧
         -32768 ≤ Z.shiftr z k ∧
         ∀ j, 0 ≤ j < k → Z.shiftr z j < -32768.
Proof.
  induction fuel as [|fuel IH]; intros z s Hs Hfit Hz.
  - exists 0. change (2 ^ Z.of_nat 0) with 1 in Hz.
    cbn [init_shift_loop]. rewrite Z.shiftr_0_r.
    destruct (Z.ltb_spec z (-32768)); [lia|]. rewrite Z.add_0_r.
    repeat split; try lia.
  - remember (S fuel) as f eqn:Ef. cbn [init_shift_loop].
    destruct (Z.ltb_spec z (-32768)) as [Hlt|Hge].
    + subst f.
      assert (Hz' : - (32768 * 2 ^ Z.of_nat fuel) ≤ Z.shiftr z 1).
      { rewrite Z.shiftr_div_pow2 by lia. change (2 ^ 1) with 2.
        rewrite Nat2Z.inj_succ, Z.pow_succ_r in Hz by lia.
        apply Z.div_le_lower_bound; lia. }
      rewrite wrap32_small by lia.
      destruct (IH (Z.shiftr z 1) (s + 1) ltac:(lia) ltac:(lia) Hz')
        as (k & Hk & E & Hstop & Hmin).
      exists (1 + k). rewrite E. rewrite Z.shiftr_shiftr in * by lia.
      split; [lia|]. split; [f_equal; f_equal; lia|]. split; [done|].
      intros j Hj. destruct (decide (j = 0)) as [->|Hj0].
      * by rewrite Z.shiftr_0_r.
      * specialize (Hmin (j - 1) ltac:(lia)).
        rewrite Z.shiftr_shiftr in Hmin by lia.
        by replace (1 + (j - 1)) with j in Hmin by lia.
    + exists 0. rewrite Z.shiftr_0_r, Z.add_0_r. repeat split; try lia.
Qed.

Lemma wrap32_range z : -2147483648 ≤ wrap32 z < 2147483648.
Proof. unfold wrap32. pose proof (Z.mod_pos_bound (z + 2147483648) 4294967296). lia. Qed.

Lemma init_shift_bound z k :
  -2147483648 ≤ z → (∀ j, 0 ≤ j < k → Z.shiftr z j < -32768) → k ≤ 16.
Proof.
  intros Hz Hmin. destruct (Z.le_gt_cases k 16) as [|Hgt]; [done|].
  specialize (Hmin 16 ltac:(lia)). rewrite Z.shiftr_div_pow2 in Hmin by lia.
  assert (-32768 ≤ z / 2 ^ 16) by (apply Z.div_le_lower_bound; lia). lia.
Qed.

(** What [ngram_trie_init] computes, when it returns. *)
Lemma init_shape (σ : heap) (d : option dict_t) (lm : logmath_t) σ' t :
  ngram_trie_init σ d lm = Some (σ', t) →
  0 ≤ shift t ≤ 16 ∧
  zero t = Z.shiftr (logmath_log lm MIN_LOGPROB) (shift t) ∧
  -32768 ≤ zero t ∧
  (∀ j, 0 ≤ j < shift t → Z.shiftr (logmath_log lm MIN_LOGPROB) j < -32768) ∧
  lmath t = logmath_retain lm.
Proof.
  pose proof (wrap32_range (lmath_log lm MIN_LOGPROB)) as Hint.
  fold (logmath_log lm MIN_LOGPROB) in Hint.
  set (z := logmath_log lm MIN_LOGPROB) in *.
  destruct (init_shift_loop_spec 31 z 0 ltac:(lia) ltac:(lia) ltac:(lia))
    as (k & Hk & E & Hstop & Hmin).
  pose proof (init_shift_bound z k ltac:(lia) Hmin) as Hk16.
  unfold ngram_trie_init, ngram_trie_node_alloc. fold z. rewrite E.
  destruct d as [d|]; osimpl; intros [= <- <-]; cbn [shift zero lmath].
  all: rewrite Z.add_0_l; repeat split; try lia; done.
Qed.

(** X14: [ngram_trie_init] always returns a trie.  Its [zero] is the log
    of [MIN_LOGPROB] shifted right by [shift] bits, where [shift] is the
    least number of bits, at most 16, after which the value is not
    below -32768.  The trie has one reference, order 0, and a newly
    allocated root with the word -1, no history and no successors;
    nothing else in the heap changes. *)
Theorem init_zero_fits_16_bits (σ : heap) (d : option dict_t) (lm : logmath_t) :
  ∃ σ' t,
    ngram_trie_init σ d lm = Some (σ', t) ∧
    0 ≤ shift t ≤ 16 ∧
    zero t = Z.shiftr (logmath_log lm MIN_LOGPROB) (shift t) ∧
    -32768 ≤ zero t ∧
    (∀ j, 0 ≤ j < shift t →
          Z.shiftr (logmath_log lm MIN_LOGPROB) j < -32768) ∧
    refcount t = 1 ∧ t_n t = 0 ∧ gendict t = negb (bool_decide (is_Some d)) ∧
    σ !! root t = None ∧
    σ' = <[root t := {| word := -1; log_prob := 0; log_bowt := 0;
                        history := None; successors := [] |}]> σ.
Proof.
  pose proof (wrap32_range (lmath_log lm MIN_LOGPROB)) as Hint.
  fold (logmath_log lm MIN_LOGPROB) in Hint.
  destruct (init_shift_loop_spec 31 (logmath_log lm MIN_LOGPROB) 0
              ltac:(lia) ltac:(lia) ltac:(lia)) as (k & _ & E & _).
  assert (∃ σ' t, ngram_trie_init σ d lm = Some (σ', t)) as (σ' & t & Hinit).
  { unfold ngram_trie_init, ngram_trie_node_alloc. rewrite E.
    destruct d; osimpl; eauto. }
  destruct (init_shape _ _ _ _ _ Hinit) as (Hs & Hz & Hz16 & Hmin & _).
  exists σ', t. split; [done|]. do 4 (split; [done|]).
  revert Hinit. unfold ngram_trie_init, ngram_trie_node_alloc. rewrite E.
  destruct d; osimpl; intros [= <- <-]; cbn [refcount t_n gendict root].
  all: repeat split; try done; apply listelem_malloc_fresh.
Qed.

(** ** Stored values *)

Lemma wrap16_small z : -32768 ≤ z < 32768 → wrap16 z = z.
Proof. intros H. unfold wrap16. rewrite Z.mod_small; lia. Qed.

Lemma quantized_error (k z v : Z) :
  0 ≤ k ≤ 16 → -32768 ≤ Z.shiftr z k → -2147483648 ≤ v →
  z ≤ v → v < 32768 * 2 ^ k →
  wrap16 (Z.shiftr v k) = Z.shiftr v k ∧
  v - 2 ^ k < wrap32 (Z.shiftl (Z.shiftr v k) k) ≤ v.
Proof.
  intros Hk Hz Hv Hlo Hhi.
  assert (0 < 2 ^ k) as Hpow by (apply Z.pow_pos_nonneg; lia).
  assert (2 ^ k ≤ 2 ^ 16) as Hpow16 by (apply Z.pow_le_mono_r; lia).
  rewrite Z.shiftr_div_pow2 in * by lia.
  assert (-32768 ≤ v / 2 ^ k) as Hslo
    by (etrans; [exact Hz|]; apply Z.div_le_mono; lia).
  assert (v / 2 ^ k < 32768) as Hshi by (apply Z.div_lt_upper_bound; lia).
  rewrite wrap16_small by lia. split; [done|].
  rewrite Z.shiftl_mul_pow2 by lia.
  pose proof (Z.div_mod v (2 ^ k) ltac:(lia)) as Hdm.
  pose proof (Z.mod_pos_bound v (2 ^ k) Hpow) as Hmod.
  rewrite wrap32_small by nia. nia.
Qed.

(** The node that [add_ngram_line] returns holds the shifted log of the
    first field of the line; shift and log-math of the trie stay. *)
Lemma add_ngram_line_stores fuel (σ : heap) t buf n lh σ' t' lh' node :
  add_ngram_line fuel σ t buf n lh = Some (σ', t', lh', Some node) →
  ∃ w0 nd,
    str2words buf !! 0%nat = Some w0 ∧
    σ' !! node = Some nd ∧
    log_prob nd = wrap16 (Z.shiftr (logmath_log (lmath t) (atof_c w0)) (shift t)) ∧
    shift t' = shift t ∧ lmath t' = lmath t.
Proof.
  unfold add_ngram_line.
  destruct (_ <? Z.of_nat _); [discriminate|].
  destruct (_ <? _); [discriminate|].
  destruct (str2words buf !! 0%nat) as [w0|]; [|discriminate]. osimpl.
  destruct (if _ =? _ then _ else _) as [bowt|]; [|discriminate]. osimpl.
  destruct (str2words buf !! Z.to_nat n) as [wn|]; [|discriminate]. osimpl.
  set (head := if dict_wordid (dict t) wn =? BAD_S3WID then _ else _).
  assert (Hhead : ∀ t1 wid0, head = Some (t1, wid0) →
            shift t1 = shift t ∧ lmath t1 = lmath t).
  { subst head. intros t1 wid0. destruct (_ =? _); [|by intros [= <- _]].
    destruct (gendict t); [|discriminate]. by intros [= <- _]. }
  destruct head as [[t1 wid0]|]; [|discriminate].
  destruct (Hhead t1 wid0 eq_refl) as [Hs Hl].
  destruct (hist_wids _ _ _ _ _) as [[hw|]|]; osimpl; [|discriminate..].
  destruct (if n =? 1 then _ else _) as [[h|]|]; osimpl; [|discriminate..].
  destruct (ngram_trie_add_successor σ t1 h wid0) as [[σ1 ng]|]; [|discriminate].
  osimpl. destruct (σ1 !! ng) as [nd|]; [|discriminate]. osimpl.
  intros [= <- <- _ <-]. eexists w0, _. split; [done|].
  split; [by rewrite lookup_insert_eq|]. cbn [log_prob]. by rewrite Hs, Hl.
Qed.

(** X24: when [add_ngram_line] adds a node for a line whose first field
    has a log value between the log of [MIN_LOGPROB] and the largest
    value that fits, the node holds the log value shifted right by [shift]
    bits, without wrap-around, and what [ngram_trie_prob_v] returns for
    the node, the stored value shifted back, lies below the log value by
    less than 2 to the power [shift]. *)
Theorem quantization_error (σ0 : heap) (d : option dict_t) (lm : logmath_t)
    (σ1 : heap) (t0 : ngram_trie_s) (fuel : nat) (σ : heap) (t : ngram_trie_s)
    (buf : string) (n : Z) (lh : option positive) (σ' : heap)
    (t' : ngram_trie_s) (lh' : option positive) (node : positive) (w0 : string) :
  ngram_trie_init σ0 d lm = Some (σ1, t0) →
  shift t = shift t0 →
  lmath t = lmath t0 →
  add_ngram_line fuel σ t buf n lh = Some (σ', t', lh', Some node) →
  str2words buf !! 0%nat = Some w0 →
  logmath_log lm MIN_LOGPROB ≤ logmath_log lm (atof_c w0) →
  logmath_log lm (atof_c w0) < 32768 * 2 ^ shift t →
  ∃ nd,
    σ' !! node = Some nd ∧
    log_prob nd = Z.shiftr (logmath_log lm (atof_c w0)) (shift t) ∧
    logmath_log lm (atof_c w0) - 2 ^ shift t
      < wrap32 (Z.shiftl (log_prob nd) (shift t'))
      ≤ logmath_log lm (atof_c w0).
Proof.
  intros Hinit Hst Hlt Hadd Hw0 Hlo Hhi.
  destruct (init_shape _ _ _ _ _ Hinit) as (Hs & Hz & Hz16 & _ & Hlm).
  destruct (add_ngram_line_stores _ _ _ _ _ _ _ _ _ _ Hadd)
    as (w0' & nd & Hw0' & Hnd & Hlp & Hs' & _).
  rewrite Hw0 in Hw0'. injection Hw0' as <-.
  exists nd. split; [done|]. rewrite Hs', Hlp, Hlt, Hlm, Hst.
  change (logmath_log (logmath_retain lm) (atof_c w0))
    with (logmath_log lm (atof_c w0)).
  pose proof (wrap32_range (lmath_log lm (atof_c w0))) as Hint.
  fold (logmath_log lm (atof_c w0)) in Hint.
  rewrite Hst in Hhi. rewrite Hz in Hz16.
  destruct (quantized_error (shift t0) (logmath_log lm MIN_LOGPROB)
              (logmath_log lm (atof_c w0)) Hs Hz16 ltac:(lia) Hlo Hhi) as [E1 E2].
  by rewrite E1.
Qed.

Lemma quantization_error_witness :
  ∃ σ t σ' t' lh' node nd,
    ngram_trie_init ∅ None lmath_steep = Some (σ, t) ∧
    shift t = 4 ∧
    add_ngram_line 10 σ t "0.33 a" 1 (Some (root t)) = Some (σ', t', lh', Some node) ∧
    logmath_log lmath_steep (atof_c "0.33") = -67000 ∧
    σ' !! node = Some nd ∧
    log_prob nd = Z.shiftr (logmath_log lmath_steep (atof_c "0.33")) (shift t) ∧
    logmath_log lmath_steep (atof_c "0.33") - 2 ^ shift t
      < wrap32 (Z.shiftl (log_prob nd) (shift t'))
      ≤ logmath_log lmath_steep (atof_c "0.33").
Proof.
  eexists _, _, _, _, _, _.
  match goal with
  | |- ∃ nd, ?I ∧ ?S4 ∧ ?Add ∧ ?L ∧ _ =>
      assert (HI : I) by (vm_compute; reflexivity);
      assert (HS : S4) by (vm_compute; reflexivity);
      assert (HA : Add) by (vm_compute; reflexivity);
      assert (HL : L) by (vm_compute; reflexivity)
  end.
  destruct (quantization_error _ _ _ _ _ _ _ _ _ _ _ _ _ _ _ "0.33" HI
              eq_refl eq_refl HA) as (nd & H1 & H2 & H3).
  - vm_compute; reflexivity.
  - vm_compute; discriminate.
  - vm_compute; reflexivity.
  - exists nd. split; [exact HI|]. split; [exact HS|]. split; [exact HA|].
    split; [exact HL|]. split; [exact H1|]. split; [exact H2|exact H3].
Defined.

(** ** The loader and the markers of the file *)

Lemma rtrim_idemp s : rtrim (rtrim s) = rtrim s.
Proof.
  induction s as [|c s IH]; [done|]. cbn [rtrim].
  destruct (rtrim s) as [|c' r] eqn:E.
  - destruct (isspace c) eqn:Ec; [done|]. cbn [rtrim]. by rewrite Ec.
  - cbn [rtrim]. cbn [rtrim] in IH. rewrite IH. done.
Qed.

Lemma rtrim_head c s : isspace c = false → ∃ r, rtrim (String c s) = String c r.
Proof.
  intros Hc. cbn [rtrim]. destruct (rtrim s); [rewrite Hc|]; eauto.
Qed.

Lemma ltrim_head s : ltrim s = EmptyString ∨ ∃ c r, ltrim s = String c r ∧ isspace c = false.
Proof.
  induction s as [|c s IH]; [by left|]. cbn [ltrim].
  destruct (isspace c) eqn:Ec; [done|]. right. eauto.
Qed.

Lemma string_trim_idemp s : string_trim (string_trim s) = string_trim s.
Proof.
  unfold string_trim. destruct (ltrim_head s) as [->|(c & r & -> & Hc)]; [done|].
  destruct (rtrim_head c r Hc) as (r' & E). rewrite E.
  cbn [ltrim]. rewrite Hc. rewrite <- E. apply rtrim_idemp.
Qed.

(** X15: [skip_arpa_header] returns 0 with the iterator on the first line
    that is [\data\] once the white space around it is trimmed, and -1
    with the input exhausted when there is no such line. *)
Theorem skip_arpa_header_finds_data (li : list string) :
  (skip_arpa_header li = (-1, []) ∧
   ∀ l, l ∈ li → string_trim l ≠ "\data\") ∨
  (∃ pre l rest,
     li = (pre ++ l :: rest)%list ∧
     (∀ x, x ∈ pre → string_trim x ≠ "\data\") ∧
     string_trim l = "\data\" ∧
     skip_arpa_header li = (0, "\data\" :: rest)).
Proof.
  induction li as [|buf rest IH]; cbn [skip_arpa_header].
  - left. split; [done|]. intros l Hl. by apply elem_of_nil in Hl.
  - destruct (Z.eqb_spec (strcmp (string_trim buf) "\data\") 0) as [E|E].
    + apply strcmp_eq in E. right. exists [], buf, rest. rewrite E.
      split; [done|]. split; [|done]. intros x Hx. by apply elem_of_nil in Hx.
    + assert (string_trim buf ≠ "\data\") as Hne
        by (intros E'; apply E; by apply strcmp_eq).
      destruct IH as [(-> & Hall)|(pre & l & rest' & -> & Hpre & Hl & ->)].
      * left. split; [done|]. intros l [->|Hl]%elem_of_cons; auto.
      * right. exists (buf :: pre), l, rest'. split; [done|]. split; [|done].
        intros x [->|Hx]%elem_of_cons; auto.
Qed.

Lemma skip_arpa_header_suffix li li' :
  skip_arpa_header li = (0, li') →
  ∃ pre rest, map string_trim li = (pre ++ "\data\" :: map string_trim rest)%list ∧
              ("\data\" ∉ pre) ∧ li' = "\data\" :: rest.
Proof.
  induction li as [|buf rest IH]; cbn [skip_arpa_header]; [discriminate|].
  destruct (Z.eqb_spec (strcmp (string_trim buf) "\data\") 0) as [E|E].
  - apply strcmp_eq in E. rewrite E. intros [= <-]. exists [], rest.
    cbn [map app]. rewrite E. split; [done|]. split; [|done]. apply not_elem_of_nil.
  - intros H. destruct (IH H) as (pre & rest' & E' & Hpre & ->).
    exists (string_trim buf :: pre), rest'. cbn [map app]. rewrite E'.
    split; [done|]. split; [|done].
    intros [Hx|Hx]%elem_of_cons; [|done]. apply E. by apply strcmp_eq.
Qed.

Lemma skip_arpa_header_status li :
  (skip_arpa_header li).1 = -1 ∨ (skip_arpa_header li).1 = 0.
Proof.
  induction li as [|buf rest IH]; cbn [skip_arpa_header]; [by left|].
  destruct (_ =? 0); [by right|done].
Qed.

Lemma map_trim_head buf rest :
  map string_trim (string_trim buf :: rest) = map string_trim (buf :: rest).
Proof. cbn [map]. by rewrite string_trim_idemp. Qed.

Lemma read_ngram_counts_loop_suffix :
  ∀ li cs n cs' li',
    read_ngram_counts_loop li cs = Some (n, cs', li') →
    suffix (map string_trim li') (map string_trim li).
Proof.
  induction li as [|buf rest IH]; intros cs n cs' li'; cbn [read_ngram_counts_loop].
  - by intros [= _ _ <-].
  - assert (∀ x, Some (x, cs, string_trim buf :: rest) = Some (n, cs', li') →
            suffix (map string_trim li') (map string_trim (buf :: rest))) as Hret.
    { intros x [= _ _ <-]. by rewrite map_trim_head. }
    assert (∀ cs0, read_ngram_counts_loop rest cs0 = Some (n, cs', li') →
            suffix (map string_trim li') (map string_trim (buf :: rest))) as Hrec.
    { intros cs0 H. cbn [map]. apply suffix_cons_r. by eapply IH. }
    destruct (strlen (string_trim buf) =? 0); [apply Hret|].
    destruct (String.prefix _ _); [|apply Hrec].
    destruct (strchr_split _ _) as [[a b]|]; [|apply Hret].
    destruct (strlen b =? 0); [apply Hret|].
    destruct (atoi a <? 0); [discriminate|apply Hrec].
Qed.

Lemma read_ngrams_loop_end fuel n :
  1 ≤ n →
  ∀ li σ t lh r σ' t' li',
    read_ngrams_loop fuel li σ t n lh = Some (r, σ', t', li') →
    suffix (map string_trim li') (map string_trim li) ∧
    (r = 0 ∨ r = -1 ∨ n < r) ∧
    (r = 0 → ∃ rest, li' = "\end\" :: rest).
Proof.
  intros Hn.
  induction li as [|buf rest IH]; intros σ t lh r σ' t' li'; cbn [read_ngrams_loop].
  - intros [= <- _ _ <-]. split; [done|]. split; [auto|done].
  - assert (∀ σ0 t0 lh0, read_ngrams_loop fuel rest σ0 t0 n lh0 = Some (r, σ', t', li') →
            suffix (map string_trim li') (map string_trim (buf :: rest)) ∧
            (r = 0 ∨ r = -1 ∨ n < r) ∧ (r = 0 → ∃ rest, li' = "\end\" :: rest)) as Hrec.
    { intros σ0 t0 lh0 H. destruct (IH _ _ _ _ _ _ _ H) as (Hs & Hr & He).
      split; [|done]. cbn [map]. by apply suffix_cons_r. }
    assert (∀ σ0 t0, Some (-1, σ0, t0, string_trim buf :: rest) = Some (r, σ', t', li') →
            suffix (map string_trim li') (map string_trim (buf :: rest)) ∧
            (r = 0 ∨ r = -1 ∨ n < r) ∧ (r = 0 → ∃ rest, li' = "\end\" :: rest)) as Hfail.
    { intros σ0 t0 [= <- _ _ <-]. rewrite map_trim_head. split; [done|].
      split; [auto|discriminate]. }
    destruct (strlen (string_trim buf) =? 0); [apply Hrec|].
    destruct (Z.eqb_spec (strcmp (string_trim buf) "\end\") 0) as [E|E].
    { apply strcmp_eq in E. intros [= <- _ _ <-]. rewrite map_trim_head.
      split; [done|]. split; [auto|]. intros _. rewrite E. eauto. }
    destruct (string_trim buf) as [|c tl] eqn:Eb.
    { destruct (add_ngram_line _ _ _ _ _ _) as [[[[σ1 t1] lh1] [node|]]|]; osimpl;
        [apply Hrec|apply Hfail|discriminate]. }
    assert (∀ o : option (heap * ngram_trie_s * option positive * option positive),
             (o ≫= λ '(σ1, t1, lh1, node),
              match node with
              | Some _ => read_ngrams_loop fuel rest σ1 t1 n lh1
              | None => Some (-1, σ1, t1, String c tl :: rest)
              end) = Some (r, σ', t', li') →
            suffix (map string_trim li') (map string_trim (buf :: rest)) ∧
            (r = 0 ∨ r = -1 ∨ n < r) ∧ (r = 0 → ∃ rest, li' = "\end\" :: rest)) as Hline.
    { intros [[[[σ1 t1] lh1] [node|]]|]; osimpl;
        [apply Hrec|apply Hfail|discriminate]. }
    destruct c as [[] [] [] [] [] [] [] []]; try apply Hline.
    destruct (negb _); [apply Hfail|].
    destruct (negb _); [apply Hfail|].
    destruct (Z.ltb_spec n (atoi tl)); [|apply Hrec].
    intros [= E1 _ _ E2]. subst r li'. rewrite <- Eb, map_trim_head. split; [done|].
    split; [auto|]. intros E0. lia.
Qed.

Lemma read_all_ngrams_end fuel :
  ∀ rounds li σ t n r σ' t' li',
    1 ≤ n →
    read_all_ngrams rounds fuel σ t li n = Some (r, σ', t', li') →
    r = -1 ∨ (r = 0 ∧ "\end\" ∈ map string_trim li).
Proof.
  induction rounds as [|rounds IH]; intros li σ t n r σ' t' li' Hn; [discriminate|].
  cbn [read_all_ngrams]. unfold read_ngrams.
  destruct (read_ngrams_loop _ _ _ _ _ _) as [[[[n1 σ1] t1] li1]|] eqn:E; [|discriminate].
  osimpl. destruct (read_ngrams_loop_end _ _ Hn _ _ _ _ _ _ _ _ E) as (Hs & Hr & He).
  destruct (Z.ltb_spec 1 n1) as [Hgt|Hle].
  - intros H. destruct (IH li1 σ1 t1 n1 r σ' t' li' ltac:(lia) H) as [->|[-> Hin]]; [by left|].
    right. split; [done|]. destruct Hs as [k ->]. apply elem_of_app. by right.
  - intros [= <- _ _ _]. destruct Hr as [->|[->|?]]; [|by left|lia].
    right. split; [done|]. destruct (He eq_refl) as (rest & ->).
    destruct Hs as [k ->]. apply elem_of_app. right. cbn [map].
    change (string_trim "\end\") with "\end\". apply elem_of_cons. by left.
Qed.

(** X16: [ngram_trie_read_arpa] returns 0 only for a file in which, the
    white space around the lines being trimmed, a line [\data\] is
    followed at some distance by a line [\end\]. *)
Theorem read_arpa_success_needs_markers (fuel : nat) (σ : heap)
    (t : ngram_trie_s) (arpafile : list string) (σ' : heap) (t' : ngram_trie_s) :
  ngram_trie_read_arpa fuel σ t arpafile = Some (0, σ', t') →
  ∃ pre mid post,
    map string_trim arpafile
    = (pre ++ "\data\" :: mid ++ "\end\" :: post)%list ∧
    "\data\" ∉ pre.
Proof.
  unfold ngram_trie_read_arpa, lineiter_start.
  destruct (skip_arpa_header arpafile) as [st li1] eqn:Hskip.
  destruct (skip_arpa_header_status arpafile) as [Hst|Hst];
    rewrite Hskip in Hst; cbn [fst] in Hst; subst st.
  { cbn. discriminate. }
  replace (0 <? 0) with false by done.
  destruct (skip_arpa_header_suffix _ _ Hskip) as (pre & rest & Hmap & Hpre & ->).
  unfold read_ngram_counts.
  destruct (read_ngram_counts_loop _ _) as [[[n cs] li2]|] eqn:Hcnt; [|discriminate].
  osimpl. destruct (n <? 0); [discriminate|].
  assert (suffix (map string_trim li2) (map string_trim rest)) as Hs2.
  { revert Hcnt. cbn [read_ngram_counts_loop].
    change (string_trim "\data\") with "\data\".
    change (strlen "\data\" =? 0) with false.
    change (String.prefix "ngram " "\data\") with false. cbv iota.
    apply read_ngram_counts_loop_suffix. }
  destruct li2 as [|l2 li2]; [discriminate|].
  destruct (read_all_ngrams _ _ _ _ _ _) as [[[[n' σ1] t1] li3]|] eqn:Hall; [|discriminate].
  osimpl. destruct (read_all_ngrams_end _ _ _ _ _ 1 _ _ _ _ ltac:(lia) Hall) as [->|[-> Hin]].
  { destruct li3; cbn; discriminate. }
  destruct li3 as [|l3 li3]; [discriminate|].
  intros _. destruct Hs2 as [k Hk]. 
  assert ("\end\" ∈ map string_trim rest) as Hin' by (rewrite Hk; apply elem_of_app; by right).
  apply list_elem_of_split in Hin' as (mid & post & Hsplit).
  exists pre, mid, post. rewrite Hmap, Hsplit. done.
Qed.

Lemma read_arpa_success_needs_markers_witness :
  ∃ σ t σ' t',
    ngram_trie_init ∅ None lmath_centi = Some (σ, t) ∧
    ngram_trie_read_arpa 10 σ t scenario_A = Some (0, σ', t') ∧
    ∃ pre mid post,
      map string_trim scenario_A
      = (pre ++ "\data\" :: mid ++ "\end\" :: post)%list ∧
      "\data\" ∉ pre.
Proof.
  eexists _, _, _, _. split; [vm_compute; reflexivity|].
  match goal with
  | |- ?H ∧ _ => assert (Hr : H) by (vm_compute; reflexivity)
  end.
  split; [exact Hr|]. exact (read_arpa_success_needs_markers _ _ _ _ _ _ Hr).
Defined.

(** ** Loaded tries are sorted *)

Lemma dict_find_range s ws :
  ∀ i, dict_find s ws i = BAD_S3WID ∨
       i ≤ dict_find s ws i < i + Z.of_nat (length ws).
Proof.
  induction ws as [|x ws IH]; intros i; cbn [dict_find]; [by left|].
  destruct (String.eqb x s).
  - right. cbn [length]. lia.
  - destruct (IH (i + 1)) as [->|H]; [by left|]. right. cbn [length]. lia.
Qed.

Lemma dict_wordstr_grow d d' ext w :
  dict_words d' = (dict_words d ++ ext)%list →
  w < Z.of_nat (length (dict_words d)) →
  dict_wordstr d' w = dict_wordstr d w.
Proof.
  intros E Hw. unfold dict_wordstr. destruct (Z.ltb_spec w 0); [done|].
  rewrite E. apply app_nth1. lia.
Qed.

Lemma succ_wordstrs_dict (σ : heap) t t' gar :
  (∀ p, node_wordstr σ t' p = node_wordstr σ t p) →
  succ_wordstrs σ t' gar = succ_wordstrs σ t gar.
Proof.
  intros H. unfold succ_wordstrs. induction gar as [|c gar IH]; [done|].
  simpl. by rewrite H, IH.
Qed.

Lemma trie_inv_dict_grow (σ : heap) t t' ext :
  dict_words (dict t') = (dict_words (dict t) ++ ext)%list →
  words_known σ t → trie_inv σ t → trie_inv σ t' ∧ words_known σ t'.
Proof.
  intros E W Inv.
  assert (∀ p, node_wordstr σ t' p = node_wordstr σ t p) as Hn.
  { intros p. unfold node_wordstr. destruct (σ !! p) as [nd|] eqn:Hp; [|done].
    osimpl. f_equal. eapply dict_wordstr_grow; [done|]. by apply (W p nd). }
  split.
  - intros p nd Hp. destruct (Inv p nd Hp) as (Hnd & Hback & ks & Hks & Hs).
    split; [done|]. split; [done|]. exists ks. split; [|done].
    by rewrite (succ_wordstrs_dict σ t t').
  - intros p nd Hp. specialize (W p nd Hp). rewrite E, length_app. lia.
Qed.

Lemma trie_inv_set_values (σ : heap) t p nd nd' :
  trie_inv σ t → σ !! p = Some nd →
  word nd' = word nd → history nd' = history nd →
  successors nd' = successors nd →
  trie_inv (<[p := nd']> σ) t.
Proof.
  intros Inv Hp Hw Hh Hsucc.
  assert (∀ c, node_wordstr (<[p := nd']> σ) t c = node_wordstr σ t c) as Hn.
  { intros c. unfold node_wordstr. destruct (decide (c = p)) as [->|Hne].
    - rewrite lookup_insert_eq, Hp. osimpl. by rewrite Hw.
    - by rewrite lookup_insert_ne. }
  assert (∀ q ndq, σ !! q = Some ndq →
            NoDup (successors ndq) ∧
            (∀ c, c ∈ successors ndq →
                  ∃ cn, <[p := nd']> σ !! c = Some cn ∧ history cn = Some q) ∧
            ∃ ks, succ_wordstrs (<[p := nd']> σ) t (successors ndq) = Some ks ∧
                  nondecreasing ks) as Hold.
  { intros q ndq Hq. destruct (Inv q ndq Hq) as (Hnd & Hback & ks & Hks & Hs).
    split; [done|]. split.
    - intros c Hc. destruct (Hback c Hc) as (cn & Hcn & Hch).
      destruct (decide (c = p)) as [->|Hne].
      + rewrite lookup_insert_eq. exists nd'. split; [done|]. congruence.
      + rewrite lookup_insert_ne by done. eauto.
    - exists ks. split; [|done]. rewrite <- Hks. by apply succ_wordstrs_frame. }
  intros q ndq Hq. destruct (decide (q = p)) as [->|Hne].
  - rewrite lookup_insert_eq in Hq. injection Hq as <-. rewrite Hsucc. by apply Hold.
  - rewrite lookup_insert_ne in Hq by done. by apply Hold.
Qed.

Lemma add_successor_words (σ : heap) t h w σ' ng :
  words_known σ t →
  -1 ≤ w < Z.of_nat (length (dict_words (dict t))) →
  ngram_trie_add_successor σ t h w = Some (σ', ng) →
  words_known σ' t ∧
  ∃ nd, σ' !! ng = Some nd ∧ word nd = w ∧ history nd = Some h.
Proof.
  intros W Hw Hadd.
  destruct (add_successor_shape _ _ _ _ _ _ Hadd) as (Hfresh & hn & pos & Hh & ->).
  set (new := {| word := w; log_prob := 0; log_bowt := 0;
                 history := Some h; successors := [] |}) in *.
  assert (W2 : ∀ p nd, <[ng := new]> σ !! p = Some nd →
            -1 ≤ word nd < Z.of_nat (length (dict_words (dict t)))).
  { intros p nd. destruct (decide (p = ng)) as [->|Hne].
    - rewrite lookup_insert_eq. by intros [= <-].
    - rewrite lookup_insert_ne by done. apply W. }
  split.
  - intros p nd. destruct (decide (p = h)) as [->|Hne].
    + rewrite lookup_insert_eq. intros [= <-]. cbn [set_successors word].
      by apply (W2 h hn).
    + rewrite lookup_insert_ne by done. apply W2.
  - destruct (decide (ng = h)) as [->|Hne].
    + rewrite lookup_insert_eq in Hh. injection Hh as <-.
      rewrite lookup_insert_eq. eexists. split; [done|]. done.
    + rewrite lookup_insert_ne, lookup_insert_eq by done. eexists. split; [done|]. done.
Qed.

Lemma add_ngram_line_sorted fuel (σ : heap) t buf n lh σ' t' lh' node :
  trie_inv σ t → words_known σ t →
  add_ngram_line fuel σ t buf n lh = Some (σ', t', lh', node) →
  trie_inv σ' t' ∧ words_known σ' t'.
Proof.
  intros Inv W. unfold add_ngram_line.
  destruct (_ <? Z.of_nat _); [discriminate|].
  destruct (_ <? _); [by intros [= <- <- <- <-]|].
  destruct (str2words buf !! 0%nat) as [w0|]; [|discriminate]. osimpl.
  destruct (if _ =? _ then _ else _) as [bowt|]; [|discriminate]. osimpl.
  destruct (str2words buf !! Z.to_nat n) as [wn|]; [|discriminate]. osimpl.
  set (head := if dict_wordid (dict t) wn =? BAD_S3WID then _ else _).
  assert (Hhead : ∀ t1 wid0, head = Some (t1, wid0) →
            (trie_inv σ t1 ∧ words_known σ t1) ∧
            -1 ≤ wid0 < Z.of_nat (length (dict_words (dict t1)))).
  { subst head. intros t1 wid0. unfold dict_wordid.
    destruct (dict_find_range wn (dict_words (dict t)) 0) as [E|R].
    - rewrite E. change (BAD_S3WID =? BAD_S3WID) with true. cbv iota.
      destruct (gendict t); [|discriminate]. cbn [dict_add_word].
      intros [= <- <-]. split.
      + by apply (trie_inv_dict_grow σ t _ [wn]).
      + cbn [set_dict dict dict_words]. rewrite length_app. cbn [length]. lia.
    - destruct (_ =? _); [|by intros [= <- <-]; split; [done|lia]].
      destruct (gendict t); [|discriminate]. cbn [dict_add_word].
      intros [= <- <-]. split.
      + by apply (trie_inv_dict_grow σ t _ [wn]).
      + cbn [set_dict dict dict_words]. rewrite length_app. cbn [length]. lia. }
  destruct head as [[t1 wid0]|]; [|by intros [= <- <- <- <-]].
  destruct (Hhead t1 wid0 eq_refl) as ((Inv1 & W1) & Hwid).
  destruct (hist_wids _ _ _ _ _) as [[hw|]|]; osimpl; [| |discriminate].
  2: { by intros [= <- <- <- <-]. }
  destruct (if n =? 1 then _ else _) as [[h|]|]; osimpl; [| |discriminate].
  2: { by intros [= <- <- <- <-]. }
  destruct (ngram_trie_add_successor σ t1 h wid0) as [[σ1 ng]|] eqn:A; [|discriminate].
  osimpl. destruct (σ1 !! ng) as [nd|] eqn:Hng; [|discriminate]. osimpl.
  intros [= <- <- <- <-].
  pose proof (add_successor_inv _ _ _ _ _ _ Inv1 A) as Inv2.
  destruct (add_successor_words _ _ _ _ _ _ W1 Hwid A) as (W2 & nd0 & Hnd0 & Hw0 & Hh0).
  rewrite Hng in Hnd0. injection Hnd0 as <-.
  split.
  - eapply trie_inv_set_values; [exact Inv2|exact Hng|done..].
  - intros p ndp. destruct (decide (p = ng)) as [->|Hne].
    + rewrite lookup_insert_eq. intros [= <-]. cbn [word]. by apply (W2 ng nd).
    + rewrite lookup_insert_ne by done. apply W2.
Qed.

Lemma read_ngrams_loop_sorted fuel n (li : list string) :
  ∀ σ t lh r σ' t' li',
    trie_inv σ t → words_known σ t →
    read_ngrams_loop fuel li σ t n lh = Some (r, σ', t', li') →
    trie_inv σ' t' ∧ words_known σ' t'.
Proof.
  induction li as [|buf rest IH]; intros σ t lh r σ' t' li' Inv W; cbn [read_ngrams_loop].
  - by intros [= <- <- <- <-].
  - destruct (strlen _ =? 0); [by apply IH|].
    destruct (strcmp _ _ =? 0); [by intros [= <- <- <- <-]|].
    assert (Hline :
      (add_ngram_line fuel σ t (string_trim buf) n lh
         ≫= λ '(σ1, t1, lh1, node),
              match node with
              | Some _ => read_ngrams_loop fuel rest σ1 t1 n lh1
              | None => Some (-1, σ1, t1, string_trim buf :: rest)
              end) = Some (r, σ', t', li') →
      trie_inv σ' t' ∧ words_known σ' t').
    { destruct (add_ngram_line _ _ _ _ _ _) as [[[[σ1 t1] lh1] node]|] eqn:A;
        [|discriminate]. osimpl.
      destruct (add_ngram_line_sorted _ _ _ _ _ _ _ _ _ _ Inv W A) as [Inv1 W1].
      destruct node.
      - by apply IH.
      - by intros [= <- <- <- <-]. }
    destruct (string_trim buf) as [|c tl] eqn:Eb; [exact Hline|].
    destruct (Ascii.eqb_spec c "\"%char) as [->|Hc].
    + destruct (negb _); [by intros [= <- <- <- <-]|].
      destruct (negb _); [by intros [= <- <- <- <-]|].
      destruct (n <? atoi tl); [by intros [= <- <- <- <-]|].
      by apply IH.
    + revert Hline. destruct c as [[] [] [] [] [] [] [] []]; done.
Qed.

Lemma read_all_ngrams_sorted fuel (rounds : nat) :
  ∀ σ t li n r σ' t' li',
    trie_inv σ t → words_known σ t →
    read_all_ngrams rounds fuel σ t li n = Some (r, σ', t', li') →
    trie_inv σ' t' ∧ words_known σ' t'.
Proof.
  induction rounds as [|rounds IH]; intros σ t li n r σ' t' li' Inv W; [discriminate|].
  cbn [read_all_ngrams]. unfold read_ngrams.
  destruct (read_ngrams_loop _ _ _ _ _ _) as [[[[n1 σ1] t1] li1]|] eqn:R; [|discriminate].
  osimpl. destruct (read_ngrams_loop_sorted _ _ _ _ _ _ _ _ _ _ Inv W R) as [Inv1 W1].
  destruct (1 <? n1).
  - by apply IH.
  - by intros [= <- <- <- <-].
Qed.

Lemma read_arpa_sorted fuel (σ : heap) t arpafile r σ' t' :
  trie_inv σ t → words_known σ t →
  ngram_trie_read_arpa fuel σ t arpafile = Some (r, σ', t') →
  trie_inv σ' t' ∧ words_known σ' t'.
Proof.
  intros Inv W. unfold ngram_trie_read_arpa.
  destruct (skip_arpa_header _) as [st li].
  destruct (st <? 0); [by intros [= <- <- <-]|].
  destruct (read_ngram_counts li (counts t)) as [[[n cs] li1]|]; [|discriminate].
  osimpl.
  destruct (trie_inv_dict_grow σ t (set_counts t n cs) []) as [Inv' W']; [|done..|].
  { cbn [set_counts dict]. by rewrite app_nil_r. }
  destruct (n <? 0); [by intros [= <- <- <-]|].
  destruct li1 as [|l li1]; [discriminate|].
  destruct (read_all_ngrams _ _ _ _ _ _) as [[[[n1 σ1] t1] li2]|] eqn:R; [|discriminate].
  osimpl. destruct (read_all_ngrams_sorted _ _ _ _ _ _ _ _ _ _ Inv' W' R) as [Inv1 W1].
  destruct li2 as [|l2 li2]; [discriminate|].
  destruct (n1 <? 0); by intros [= <- <- <-].
Qed.

(** X17: whatever the file holds and whether or not the load succeeds,
    after [ngram_trie_read_arpa] on a new trie every successor array is
    sorted by surface form, its entries are distinct allocated nodes whose
    history is the owner of the array, every node carries the word -1 or
    the ID of a dictionary word, and the nodes below the root form a tree
    of finite depth. *)
Theorem loaded_trie_is_sorted (fuel : nat) (d : option dict_t) (lm : logmath_t)
    (arpafile : list string) (rc : Z) (σ : heap) (t : ngram_trie_s) :
  load_arpa fuel d lm arpafile = Some (rc, σ, t) →
  trie_inv σ t ∧ words_known σ t ∧ ∃ depth, bounded σ depth (root t) = true.
Proof.
  intros Hload. split; [|split]; [| |by eapply load_arpa_bounded].
  all: revert Hload; unfold load_arpa.
  all: destruct (ngram_trie_init ∅ d lm) as [[σ0 t0]|] eqn:Hinit; [|discriminate].
  all: osimpl; intros R.
  all: assert (words_known σ0 t0) as W0.
  1, 3: revert Hinit; unfold ngram_trie_init, ngram_trie_node_alloc;
    destruct d; destruct (init_shift_loop _ _ _) as [[z s]|]; try discriminate;
    osimpl; intros [= <- <-]; intros p nd;
    (destruct (decide (p = listelem_malloc ∅)) as [->|Hne];
      [rewrite lookup_insert_eq; intros [= <-]; cbn [word]; lia
      |rewrite lookup_insert_ne, lookup_empty by done; discriminate]).
  all: by destruct (read_arpa_sorted _ _ _ _ _ _ _ (init_inv _ _ _ _ Hinit) W0 R).
Qed.

Lemma loaded_trie_is_sorted_witness :
  ∃ σ t,
    load_arpa 10 None lmath_centi scenario_C = Some (0, σ, t) ∧
    trie_inv σ t ∧ words_known σ t ∧ ∃ depth, bounded σ depth (root t) = true.
Proof.
  eexists _, _. split; [vm_compute; reflexivity|].
  apply (loaded_trie_is_sorted 10 None lmath_centi scenario_C 0).
  vm_compute; reflexivity.
Defined.

(** ** Byte order of cepstrum files *)

Ltac decide_cmp :=
  repeat match goal with
  | |- context [Z.ltb ?a ?b] =>
      first [ replace (Z.ltb a b) with true by (symmetry; apply Z.ltb_lt; lia)
            | replace (Z.ltb a b) with false by (symmetry; apply Z.ltb_ge; lia) ]
  end.

Lemma testbit_u32_high x n :
  0 ≤ x < 4294967296 → 32 ≤ n → Z.testbit x n = false.
Proof.
  intros Hx Hn. rewrite <- (Z.mod_small x (2 ^ 32)) by lia.
  rewrite Z.testbit_mod_pow2 by lia.
  replace (n <? 32) with false by (symmetry; apply Z.ltb_ge; lia). done.
Qed.

Lemma SWABL_testbit x n :
  0 ≤ x < 4294967296 → 0 ≤ n →
  Z.testbit (SWABL x) n =
    if n <? 8 then Z.testbit x (n + 24)
    else if n <? 16 then Z.testbit x (n + 8)
    else if n <? 24 then Z.testbit x (n - 8)
    else if n <? 32 then Z.testbit x (n - 24)
    else false.
Proof.
  intros Hx Hn. unfold SWABL, wrapu32.
  change 4294967296 with (2 ^ 32).
  change 4278190080 with (Z.shiftl (Z.ones 8) 24).
  change 16711680 with (Z.shiftl (Z.ones 8) 16).
  change 65280 with (Z.shiftl (Z.ones 8) 8).
  change 255 with (Z.ones 8).
  rewrite !Z.lor_spec, !Z.land_spec, !Z.testbit_mod_pow2 by lia.
  rewrite !Z.shiftl_spec, !Z.shiftr_spec by lia.
  assert (∀ m, Z.testbit (Z.ones 8) m = (0 <=? m) && (m <? 8))%bool as Hones.
  { intros m. destruct (Z.leb_spec 0 m).
    - by rewrite Z.testbit_ones_nonneg by lia.
    - by rewrite Z.testbit_neg_r by lia. }
  rewrite !Hones.
  destruct (Z.ltb_spec n 8); [|destruct (Z.ltb_spec n 16); [|destruct (Z.ltb_spec n 24);
    [|destruct (Z.ltb_spec n 32)]]].
  all: repeat match goal with
       | |- context [Z.leb ?a ?b] =>
           first [ replace (Z.leb a b) with true by (symmetry; apply Z.leb_le; lia)
                 | replace (Z.leb a b) with false by (symmetry; apply Z.leb_gt; lia) ]
       end.
  all: decide_cmp.
  all: cbn [andb orb]; rewrite ?andb_true_r, ?andb_false_r, ?orb_false_r, ?orb_false_l.
  all: done.
Qed.

Lemma SWABL_range x : 0 ≤ x < 4294967296 → 0 ≤ SWABL x < 4294967296.
Proof.
  intros Hx.
  assert (SWABL x = SWABL x mod 2 ^ 32) as E.
  { apply Z.bits_inj'. intros n Hn. rewrite Z.testbit_mod_pow2 by lia.
    destruct (Z.ltb_spec n 32); [done|].
    rewrite SWABL_testbit by lia. by decide_cmp. }
  rewrite E. change 4294967296 with (2 ^ 32). apply Z.mod_pos_bound. lia.
Qed.

Lemma SWABL_involutive x : 0 ≤ x < 4294967296 → SWABL (SWABL x) = x.
Proof.
  intros Hx. pose proof (SWABL_range x Hx) as Hr.
  apply Z.bits_inj'. intros n Hn.
  rewrite SWABL_testbit by lia.
  destruct (Z.ltb_spec n 8); [|destruct (Z.ltb_spec n 16); [|destruct (Z.ltb_spec n 24);
    [|destruct (Z.ltb_spec n 32)]]].
  all: try (rewrite SWABL_testbit by lia; decide_cmp; f_equal; lia).
  by rewrite testbit_u32_high.
Qed.

(** X22: on a 32-bit word [SWABL] reverses the order of the four bytes;
    the result is again a 32-bit word, and applying [SWABL] twice gives
    the word back. *)
Theorem SWABL_reverses_bytes (x : Z) :
  0 ≤ x < 4294967296 →
  0 ≤ SWABL x < 4294967296 ∧
  (∀ k, 0 ≤ k < 4 → byte_at (SWABL x) k = byte_at x (3 - k)) ∧
  SWABL (SWABL x) = x.
Proof.
  intros Hx. split; [by apply SWABL_range|]. split; [|by apply SWABL_involutive].
  intros k Hk. unfold byte_at. apply Z.bits_inj'. intros n Hn.
  change 255 with (Z.ones 8).
  rewrite !Z.land_spec, !Z.shiftr_spec by lia.
  destruct (Z.ltb_spec n 8) as [Hlt|Hge].
  - rewrite Z.testbit_ones_nonneg by lia. decide_cmp. rewrite !andb_true_r.
    rewrite SWABL_testbit by lia.
    assert (k = 0 ∨ k = 1 ∨ k = 2 ∨ k = 3) as [-> | [-> | [-> | ->]]] by lia.
    all: decide_cmp; f_equal; lia.
  - rewrite Z.testbit_ones_nonneg by lia. decide_cmp. by rewrite !andb_false_r.
Qed.

Lemma SWABL_reverses_bytes_witness :
  0 ≤ 305419896 < 4294967296 ∧
  SWABL 305419896 = 2018915346 ∧
  0 ≤ SWABL 305419896 < 4294967296 ∧
  (∀ k, 0 ≤ k < 4 → byte_at (SWABL 305419896) k = byte_at 305419896 (3 - k)) ∧
  SWABL (SWABL 305419896) = 305419896.
Proof.
  split; [lia|]. split; [vm_compute; reflexivity|].
  apply (SWABL_reverses_bytes 305419896). lia.
Defined.

(** X23: the reordering loop of [cep_read_bin] changes the first
    [readBytes >> 2] words of the buffer and no other, keeps the length of
    the buffer, and undoes itself when it is run a second time. *)
Theorem cep_reorder_twice (ptr : list Z) (readBytes : Z) :
  Forall (λ x, 0 ≤ x < 4294967296) ptr →
  (Z.to_nat (Z.shiftr readBytes 2) ≤ length ptr)%nat →
  ∃ ptr',
    cep_reorder ptr readBytes = Some ptr' ∧
    length ptr' = length ptr ∧
    (∀ i x, ptr !! i = Some x →
       ptr' !! i = Some (if (i <? Z.to_nat (Z.shiftr readBytes 2))%nat
                         then SWABL x else x)) ∧
    cep_reorder ptr' readBytes = Some ptr.
Proof.
  intros Hall Hcnt. unfold cep_reorder.
  set (cnt := Z.to_nat (Z.shiftr readBytes 2)) in *.
  destruct (Nat.leb_spec cnt (length ptr)) as [_|]; [|lia].
  eexists. split; [done|].
  assert (Hlen : length (map SWABL (take cnt ptr) ++ drop cnt ptr) = length ptr).
  { rewrite length_app, length_map, length_take, length_drop. lia. }
  split; [done|]. split.
  - intros i x Hi. destruct (Nat.ltb_spec i cnt) as [Hlt|Hge].
    + rewrite lookup_app_l by (rewrite length_map, length_take; lia).
      rewrite list_lookup_fmap, lookup_take_lt, Hi by done. done.
    + rewrite lookup_app_r by (rewrite length_map, length_take; lia).
      rewrite length_map, length_take, lookup_drop.
      replace (cnt + (i - cnt `min` length ptr))%nat with i by lia. done.
  - rewrite Hlen. destruct (Nat.leb_spec cnt (length ptr)) as [_|]; [|lia].
    f_equal.
    rewrite take_app_length' by (rewrite length_map, length_take; lia).
    rewrite drop_app_length' by (rewrite length_map, length_take; lia).
    rewrite <- (take_drop cnt ptr) at 3. f_equal.
    rewrite <- list_fmap_compose.
    rewrite <- (list_fmap_id (take cnt ptr)) at 2.
    apply Forall_fmap_ext_1. eapply Forall_impl; [by apply Forall_take|].
    intros x Hx. by apply SWABL_involutive.
Qed.

Lemma cep_reorder_twice_witness :
  ∃ ptr',
    cep_reorder [305419896; 1; 2] 8 = Some ptr' ∧
    length ptr' = length [305419896; 1; 2] ∧
    (∀ i x, [305419896; 1; 2] !! i = Some x →
       ptr' !! i = Some (if (i <? Z.to_nat (Z.shiftr 8 2))%nat
                         then SWABL x else x)) ∧
    cep_reorder ptr' 8 = Some [305419896; 1; 2].
Proof.
  apply (cep_reorder_twice [305419896; 1; 2] 8).
  - repeat constructor; lia.
  - vm_compute. lia.
Defined.

(** ** Histories of nodes *)

Lemma get_word_hist_loop_chain (σ : heap) h ws :
  hist_chain σ h ws →
  ∀ fuel buf (k : nat),
    (length ws < fuel)%nat →
    (k + length ws ≤ length buf)%nat →
    Z.of_nat (k + length ws) < 2147483648 →
    get_word_hist_loop fuel σ h (Some buf) (Z.of_nat k)
    = Some (Z.of_nat (k + length ws),
            Some (take k buf ++ ws ++ drop (k + length ws) buf)%list).
Proof.
  induction 1 as [hp hn Hhp Hw|hp hn w ws Hhp <- Hw Hc IH]; intros fuel buf k Hf Hb Hk.
  - destruct fuel as [|fuel]; [cbn in Hf; lia|]. cbn [get_word_hist_loop].
    osimpl. rewrite Hhp. osimpl. rewrite Hw. cbn [length app].
    rewrite Nat.add_0_r, take_drop. done.
  - destruct fuel as [|fuel]; [cbn in Hf; lia|]. cbn [get_word_hist_loop length] in *.
    osimpl. rewrite Hhp. osimpl.
    destruct (Z.eqb_spec (word hn) (-1)) as [|_]; [done|]. osimpl.
    rewrite Nat2Z.id. destruct (Nat.ltb_spec k (length buf)) as [Hlt|]; [|lia].
    rewrite wrap32_small by lia.
    replace (Z.of_nat k + 1) with (Z.of_nat (S k)) by lia.
    rewrite IH by (rewrite ?length_insert; lia).
    replace (S k + length ws)%nat with (k + S (length ws))%nat by lia.
    do 3 f_equal. rewrite drop_insert_lt by lia.
    rewrite (take_S_r _ k (word hn)) by (by apply list_lookup_insert_eq).
    rewrite take_insert_ge by lia. by rewrite <- app_assoc.
Qed.

(** X18: when the history pointers above a node lead through nodes with
    the words [ws] to a node with the word -1, and the buffer has room for
    them, [ngram_trie_node_get_word_hist] writes [ws], nearest word first,
    to the front of the buffer, leaves the other cells as they were and
    returns the number of words. *)
Theorem get_word_hist_writes_chain (fuel : nat) (σ : heap) (t : ngram_trie_s)
    (ng : positive) (ngn : ngram_trie_node_s) (ws buf : list Z) :
  σ !! ng = Some ngn →
  hist_chain σ (history ngn) ws →
  (length ws ≤ length buf)%nat →
  (length ws < fuel)%nat →
  Z.of_nat (length ws) < 2147483648 →
  ngram_trie_node_get_word_hist fuel σ t ng (Some buf)
  = Some (Z.of_nat (length ws), Some (ws ++ drop (length ws) buf)%list).
Proof.
  intros Hng Hc Hb Hf Hk. unfold ngram_trie_node_get_word_hist.
  rewrite Hng. osimpl. change 0 with (Z.of_nat 0).
  by rewrite (get_word_hist_loop_chain σ _ ws Hc fuel buf 0) by (cbn; lia).
Qed.

Lemma get_word_hist_writes_chain_witness :
  ∃ σ t ngn,
    build_trie (Some dict_abc) lmath_centi
      [op_add 1 0; op_add 2 1; op_add 3 2] = Some (σ, t) ∧
    σ !! 4%positive = Some ngn ∧
    ngram_trie_node_get_word_hist 3 σ t 4 (Some [7; 7; 7])
    = Some (Z.of_nat (length [1; 0]),
            Some ([1; 0] ++ drop (length [1; 0]) [7; 7; 7])%list).
Proof.
  eexists _, _, _.
  split; [vm_compute; reflexivity|]. split; [vm_compute; reflexivity|].
  eapply (get_word_hist_writes_chain 3 _ _ 4 _ [1; 0] [7; 7; 7]).
  - vm_compute; reflexivity.
  - vm_compute.
    eapply (hist_chain_step _ 3%positive);
      [vm_compute; reflexivity|reflexivity|discriminate|vm_compute].
    eapply (hist_chain_step _ 2%positive);
      [vm_compute; reflexivity|reflexivity|discriminate|vm_compute].
    eapply (hist_chain_end _ 1%positive); vm_compute; reflexivity.
  - cbn; lia.
  - cbn; lia.
  - cbn; lia.
Defined.

(** X19: [ngram_trie_backoff] asks [ngram_trie_node_get_word_hist] for
    the length of the history with a NULL buffer.  It therefore has a
    defined result only for a node whose history is a node with the
    word -1, that is for a unigram; the result is then what
    [ngram_trie_successor] finds for the word of the node below the root.
    For a node of higher order the first history word is written through
    the NULL buffer, and for the root the word of a NULL history is
    read. *)
Theorem backoff_defined_for_unigrams (fuel : nat) (σ : heap) (t : ngram_trie_s)
    (ng : positive) (ngn : ngram_trie_node_s) :
  σ !! ng = Some ngn →
  ngram_trie_backoff (S fuel) σ t ng
  = match history ngn with
    | Some h =>
        match σ !! h with
        | Some hn =>
            if word hn =? -1
            then ngram_trie_successor σ t (root t) (word ngn)
            else None
        | None => None
        end
    | None => None
    end.
Proof.
  intros Hng. unfold ngram_trie_backoff, ngram_trie_node_get_word_hist.
  rewrite Hng. osimpl. cbn [get_word_hist_loop].
  destruct (history ngn) as [h|]; [|done]. osimpl.
  destruct (σ !! h) as [hn|]; [|done]. osimpl.
  destruct (word hn =? -1); [|done]. osimpl.
  unfold ngram_trie_ngram_v, ngram_trie_root. cbn [ngram_v_loop].
  destruct (Z.ltb_spec (t_n t - 1) (0 - 1)).
  - replace (0 <? t_n t - 1) with false by (symmetry; apply Z.ltb_ge; lia). done.
  - done.
Qed.

Lemma backoff_defined_for_unigrams_witness :
  ∃ σ t ngn,
    build_trie (Some dict_abc) lmath_centi [op_add 1 0; op_add 2 1] = Some (σ, t) ∧
    σ !! 3%positive = Some ngn ∧
    ngram_trie_backoff 1 σ t 3 = None ∧
    ngram_trie_backoff 1 σ t 3
    = match history ngn with
      | Some h =>
          match σ !! h with
          | Some hn =>
              if word hn =? -1
              then ngram_trie_successor σ t (root t) (word ngn)
              else None
          | None => None
          end
      | None => None
      end.
Proof.
  eexists _, _, _.
  split; [vm_compute; reflexivity|]. split; [vm_compute; reflexivity|].
  split; [vm_compute; reflexivity|].
  apply (backoff_defined_for_unigrams 0). vm_compute; reflexivity.
Defined.

(** X20: [ngram_trie_successor_prob] has a defined result only when the
    history [h] is a unigram, for the same reason; it is then the
    probability [ngram_trie_prob_v] gives for [w] after the one word of
    [h].  For the root, the history of unigrams, the word of a NULL
    history is read. *)
Theorem successor_prob_defined_for_unigrams (fuel : nat) (σ : heap)
    (t : ngram_trie_s) (h : positive) (hn : ngram_trie_node_s) (w : Z) :
  σ !! h = Some hn →
  ngram_trie_successor_prob (S fuel) σ t h w
  = match history hn with
    | Some p =>
        match σ !! p with
        | Some pn =>
            if word pn =? -1
            then fst <$> ngram_trie_prob_v (S fuel) σ t None w [word hn] 1
            else None
        | None => None
        end
    | None => None
    end.
Proof.
  intros Hh. unfold ngram_trie_successor_prob, ngram_trie_node_get_word_hist.
  rewrite Hh. osimpl. cbn [get_word_hist_loop].
  destruct (history hn) as [p|]; [|done]. osimpl.
  destruct (σ !! p) as [pn|]; [|done]. osimpl.
  destruct (word pn =? -1); [|done]. osimpl.
  change (wrap32 (0 + 1)) with 1. change (ckd_calloc 1) with [0]. cbn [drop take app].
  change (<[0%nat:=word hn]> [0]) with [word hn].
  by destruct (ngram_trie_prob_v (S fuel) σ t None w [word hn] 1) as [[v u]|].
Qed.

Lemma successor_prob_defined_for_unigrams_witness :
  ∃ σ t hn,
    load_arpa 10 None lmath_centi scenario_A = Some (0, σ, t) ∧
    σ !! root t = Some hn ∧
    ngram_trie_successor_prob 10 σ t (root t) 1 = None ∧
    ngram_trie_successor_prob 10 σ t (root t) 1
    = match history hn with
      | Some p =>
          match σ !! p with
          | Some pn =>
              if word pn =? -1
              then fst <$> ngram_trie_prob_v 10 σ t None 1 [word hn] 1
              else None
          | None => None
          end
      | None => None
      end.
Proof.
  eexists _, _, _.
  split; [vm_compute; reflexivity|]. split; [vm_compute; reflexivity|].
  split; [vm_compute; reflexivity|].
  apply (successor_prob_defined_for_unigrams 9). vm_compute; reflexivity.
Defined.

(** ** Sections of order three and above *)

Lemma add_ngram_line_order3 fuel (σ : heap) t buf n σ' t' lh' node :
  3 ≤ n → 1 < t_n t →
  add_ngram_line fuel σ t buf n None = Some (σ', t', lh', node) →
  node = None ∧ σ' = σ ∧ lh' = None ∧ t_n t' = t_n t.
Proof.
  intros Hn Ht. unfold add_ngram_line.
  destruct (_ <? Z.of_nat _); [discriminate|].
  destruct (_ <? _); [by intros [= <- <- <- <-]|].
  destruct (str2words buf !! 0%nat) as [w0|]; [|discriminate]. osimpl.
  destruct (if _ =? _ then _ else _) as [bowt|]; [|discriminate]. osimpl.
  destruct (str2words buf !! Z.to_nat n) as [wn|]; [|discriminate]. osimpl.
  set (head := if dict_wordid (dict t) wn =? BAD_S3WID then _ else _).
  assert (Hhead : ∀ t1 wid0, head = Some (t1, wid0) → t_n t1 = t_n t).
  { subst head. intros t1 wid0. destruct (_ =? _); [|by intros [= <- _]].
    destruct (gendict t); [|discriminate]. by intros [= <- _]. }
  destruct head as [[t1 wid0]|]; [|by intros [= <- <- <- <-]].
  specialize (Hhead t1 wid0 eq_refl).
  destruct (hist_wids _ _ _ _ _) as [[hw|]|]; osimpl; [| |discriminate].
  2: { by intros [= <- <- <- <-]. }
  replace (n =? 1) with false by (symmetry; apply Z.eqb_neq; lia).
  destruct (Z.to_nat (n - 1)) as [|count] eqn:Ec; [lia|]. cbn [match_history]. osimpl.
  replace (1 <? n) with true by (symmetry; apply Z.ltb_lt; lia).
  destruct ((wid0 :: hw) !! 1%nat) as [w1|]; [|discriminate]. osimpl.
  destruct (ngram_trie_ngram_v _ _ _ _ _ _) as [r|] eqn:Hv; [|discriminate]. osimpl.
  apply ngram_v_with_history_is_null in Hv as ->; [|lia..].
  by intros [= <- <- <- <-].
Qed.

Lemma read_ngrams_loop_order3 fuel n (li : list string) :
  3 ≤ n →
  ∀ σ t r σ' t' li',
    1 < t_n t →
    read_ngrams_loop fuel li σ t n None = Some (r, σ', t', li') →
    σ' = σ.
Proof.
  intros Hn.
  induction li as [|buf rest IH]; intros σ t r σ' t' li' Ht; cbn [read_ngrams_loop].
  - by intros [= _ <- _ _].
  - destruct (strlen _ =? 0); [by apply IH|].
    destruct (strcmp _ _ =? 0); [by intros [= _ <- _ _]|].
    assert (Hline :
      (add_ngram_line fuel σ t (string_trim buf) n None
         ≫= λ '(σ1, t1, lh1, node),
              match node with
              | Some _ => read_ngrams_loop fuel rest σ1 t1 n lh1
              | None => Some (-1, σ1, t1, string_trim buf :: rest)
              end) = Some (r, σ', t', li') → σ' = σ).
    { destruct (add_ngram_line _ _ _ _ _ _) as [[[[σ1 t1] lh1] node]|] eqn:A;
        [|discriminate]. osimpl.
      destruct (add_ngram_line_order3 _ _ _ _ _ _ _ _ _ Hn Ht A) as (-> & -> & _).
      by intros [= _ <- _ _]. }
    destruct (string_trim buf) as [|c tl] eqn:Eb; [exact Hline|].
    destruct (Ascii.eqb_spec c "\"%char) as [->|Hc].
    + destruct (negb _); [by intros [= _ <- _ _]|].
      destruct (negb _); [by intros [= _ <- _ _]|].
      destruct (n <? atoi tl); [by intros [= _ <- _ _]|].
      by apply IH.
    + revert Hline. destruct c as [[] [] [] [] [] [] [] []]; done.
Qed.

(** X21: in a model of order two or more, [read_ngrams] for a section of
    order three or above adds no node.  The history of an N-Gram line is
    looked up with a non-empty history, which never finds a node, so the
    line is refused. *)
Theorem higher_order_section_adds_nothing (fuel : nat) (σ : heap)
    (t : ngram_trie_s) (li : list string) (n r : Z) (σ' : heap)
    (t' : ngram_trie_s) (li' : list string) :
  3 ≤ n →
  1 < t_n t →
  read_ngrams fuel σ t li n = Some (r, σ', t', li') →
  σ' = σ.
Proof.
  intros Hn Ht. unfold read_ngrams.
  replace (n =? 1) with false by (symmetry; apply Z.eqb_neq; lia).
  by apply read_ngrams_loop_order3.
Qed.

Lemma higher_order_section_adds_nothing_witness :
  ∃ σ t σ' t' li',
    load_arpa 10 None lmath_centi scenario_A = Some (0, σ, t) ∧
    1 < t_n t ∧
    read_ngrams 10 σ t section_trigrams 3 = Some (-1, σ', t', li') ∧
    σ' = σ.
Proof.
  eexists _, _, _, _, _.
  split; [vm_compute; reflexivity|]. split; [vm_compute; reflexivity|].
  match goal with
  | |- ?H ∧ _ => assert (Hr : H) by (vm_compute; reflexivity)
  end.
  split; [exact Hr|].
  eapply (higher_order_section_adds_nothing 10 _ _ section_trigrams 3);
    [lia| |exact Hr].
  vm_compute; reflexivity.
Defined.

(** ** Queries on loaded models of order two and above *)

Lemma ngram_v_empty_history (σ : heap) t fuel w hist :
  ngram_trie_ngram_v (S fuel) σ t w hist 0
  = ngram_trie_successor σ t (root t) w.
Proof.
  unfold ngram_trie_ngram_v, ngram_trie_root. cbn [ngram_v_loop].
  destruct (Z.ltb_spec (t_n t - 1) 0).
  - replace (0 <? t_n t - 1) with false by (symmetry; apply Z.ltb_ge; lia). done.
  - done.
Qed.

Lemma ngram_v_history_null (σ : heap) t d fuel w hist (n : nat) :
  bounded σ d (root t) = true → 1 < t_n t →
  (0 < n ≤ length hist)%nat → (d ≤ fuel)%nat →
  ngram_trie_ngram_v fuel σ t w hist (Z.of_nat n) = Some None.
Proof.
  intros Hb Ht Hn Hf.
  destruct (ngram_v_total σ t d w hist (Z.of_nat n) Hb ltac:(lia) fuel Hf)
    as (r & Hr & _).
  rewrite Hr. f_equal. eapply ngram_v_with_history_is_null; [| |exact Hr]; lia.
Qed.

Lemma last_cons_default (h0 w : Z) (l : list Z) :
  List.last (h0 :: l) w = List.last l h0.
Proof.
  revert h0 w. induction l as [|b l IH]; intros h0 w; [done|].
  change (List.last (h0 :: b :: l) w) with (List.last (b :: l) w).
  by rewrite !IH.
Qed.

Lemma last_take_nth (h0 : Z) (tl : list Z) (n : nat) (dflt : Z) :
  (n ≤ length tl)%nat →
  List.last (take n tl) h0 = nth n (h0 :: tl) dflt.
Proof.
  revert h0 tl. induction n as [|n IH]; intros h0 tl Hn.
  - by rewrite take_0.
  - destruct tl as [|h1 tl]; [cbn in Hn; lia|].
    cbn [take nth]. rewrite last_cons_default.
    apply IH. cbn in Hn; lia.
Qed.

Lemma bowt_v_oldest (σ : heap) t d :
  bounded σ d (root t) = true → 1 < t_n t →
  ∀ (n : nat) w hist fuel,
    (n ≤ length hist)%nat → (d + n + 1 ≤ fuel)%nat →
    ngram_trie_bowt_v fuel σ t w hist (Z.of_nat n)
    = unigram_bowt σ t (List.last (take n hist) w).
Proof.
  intros Hb Ht.
  assert (1 ≤ d)%nat as Hd by (destruct (bounded_inv _ _ _ Hb) as (? & ? & -> & _); lia).
  induction n as [|n IH]; intros w hist fuel Hn Hf.
  - destruct fuel as [|[|fuel]]; [lia..|]. cbn [ngram_trie_bowt_v].
    change (Z.of_nat 0) with 0. rewrite ngram_v_empty_history.
    rewrite take_0. cbn [List.last]. unfold unigram_bowt.
    destruct (ngram_trie_successor σ t (root t) w) as [[ng|]|]; done.
  - destruct fuel as [|fuel]; [lia|]. cbn [ngram_trie_bowt_v].
    rewrite (ngram_v_history_null σ t d fuel w hist (S n)) by (done || lia).
    osimpl. replace (0 <? Z.of_nat (S n)) with true by (symmetry; apply Z.ltb_lt; lia).
    destruct hist as [|h0 tl]; [cbn in Hn; lia|]. cbn [lookup list_lookup]. osimpl.
    replace (Z.of_nat (S n) - 1) with (Z.of_nat n) by lia.
    unfold hist_next. cbn [drop]. rewrite drop_0. rewrite IH by (cbn in Hn; lia).
    cbn [take]. by rewrite last_cons_default.
Qed.

Lemma add_unigram_bowts_snoc (σ : heap) t hist x :
  ∀ acc, add_unigram_bowts σ t acc (hist ++ [x])
         = a ← add_unigram_bowts σ t acc hist;
           b ← unigram_bowt σ t x; Some (wrap32 (a + b)).
Proof.
  induction hist as [|h hist IH]; intros acc; cbn [app add_unigram_bowts].
  - osimpl. by destruct (unigram_bowt σ t x).
  - destruct (unigram_bowt σ t h) as [b|]; [|done]. osimpl. apply IH.
Qed.

Lemma prob_v_unigram_backoff (σ : heap) t d w hist :
  bounded σ d (root t) = true → 1 < t_n t →
  ∀ (n : nat) fuel,
    (n ≤ length hist)%nat → (d + n + 1 ≤ fuel)%nat →
    ngram_trie_prob_v fuel σ t None w hist (Z.of_nat n)
    = p ← unigram_prob σ t w;
      v ← add_unigram_bowts σ t p (take n hist);
      Some (v, None).
Proof.
  intros Hb Ht.
  assert (1 ≤ d)%nat as Hd by (destruct (bounded_inv _ _ _ Hb) as (? & ? & -> & _); lia).
  induction n as [|n IH]; intros fuel Hn Hf.
  - destruct fuel as [|[|fuel]]; [lia..|]. cbn [ngram_trie_prob_v store_n_used].
    change (Z.of_nat 0) with 0. rewrite ngram_v_empty_history.
    rewrite take_0. unfold unigram_prob.
    destruct (ngram_trie_successor σ t (root t) w) as [[ng|]|]; osimpl; [|done..].
    by destruct (σ !! ng).
  - destruct fuel as [|fuel]; [lia|]. cbn [ngram_trie_prob_v store_n_used decr_n_used].
    rewrite (ngram_v_history_null σ t d fuel w hist (S n)) by (done || lia).
    osimpl. replace (0 <? Z.of_nat (S n)) with true by (symmetry; apply Z.ltb_lt; lia).
    replace (Z.of_nat (S n) - 1) with (Z.of_nat n) by lia.
    rewrite IH by lia.
    destruct hist as [|h0 tl] eqn:Eh; [cbn in Hn; lia|]. rewrite <- Eh.
    assert (hist !! 0%nat = Some h0) as -> by (by rewrite Eh).
    unfold hist_next. replace (drop 1 hist) with tl by (by rewrite Eh). osimpl.
    rewrite (bowt_v_oldest σ t d Hb Ht n h0 tl fuel) by (cbn in Hn; lia).
    rewrite (last_take_nth h0 tl n h0) by (cbn in Hn; lia). rewrite <- Eh.
    destruct (lookup_lt_is_Some_2 hist n) as [x Hx]; [rewrite Eh; cbn in *; lia|].
    rewrite (nth_lookup_Some _ _ h0 _ Hx).
    rewrite (take_S_r _ _ _ Hx).
    destruct (unigram_prob σ t w) as [p|]; [|done]. osimpl.
    rewrite add_unigram_bowts_snoc.
    destruct (add_unigram_bowts σ t p (take n hist)) as [a|]; [|done]. osimpl.
    by destruct (unigram_bowt σ t x).
Qed.

(** X25: in a loaded model of order two or more, the probability of a
    word after a history is the unigram value of the word plus the
    unigram backoff weights of the history words, added at type [int32];
    the backoff weight asked for a word after a history is the unigram
    backoff weight of the oldest history word.  N-Grams of order two and
    above that the model holds do not contribute. *)
Theorem loaded_model_prob_is_unigram_backoff (fuel0 : nat) (d : option dict_t)
    (lm : logmath_t) (arpafile : list string) (rc : Z) (σ : heap)
    (t : ngram_trie_s) (w : Z) (hist : list Z) :
  load_arpa fuel0 d lm arpafile = Some (rc, σ, t) →
  1 < t_n t →
  ∃ fuel1, ∀ fuel, (fuel1 ≤ fuel)%nat →
    ngram_trie_prob_v fuel σ t None w hist (Z.of_nat (length hist))
    = (p ← unigram_prob σ t w;
       v ← add_unigram_bowts σ t p hist;
       Some (v, None)) ∧
    ngram_trie_bowt_v fuel σ t w hist (Z.of_nat (length hist))
    = unigram_bowt σ t (List.last hist w).
Proof.
  intros Hload Ht. destruct (load_arpa_bounded _ _ _ _ _ _ _ Hload) as (depth & Hb).
  exists (depth + length hist + 1)%nat. intros fuel Hf. split.
  - rewrite (prob_v_unigram_backoff σ t depth w hist Hb Ht (length hist) fuel) by lia.
    by rewrite firstn_all.
  - rewrite (bowt_v_oldest σ t depth Hb Ht (length hist) w hist fuel) by lia.
    by rewrite firstn_all.
Qed.

Lemma loaded_model_prob_is_unigram_backoff_witness :
  ∃ σ t,
    load_arpa 10 None lmath_centi scenario_bowt = Some (0, σ, t) ∧
    1 < t_n t ∧
    ∃ fuel1, ∀ fuel, (fuel1 ≤ fuel)%nat →
      ngram_trie_prob_v fuel σ t None 0 [0] (Z.of_nat (length [0]))
      = (p ← unigram_prob σ t 0;
         v ← add_unigram_bowts σ t p [0];
         Some (v, None)) ∧
      ngram_trie_bowt_v fuel σ t 0 [0] (Z.of_nat (length [0]))
      = unigram_bowt σ t (List.last [0] 0).
Proof.
  eexists _, _. split; [vm_compute; reflexivity|]. split; [vm_compute; reflexivity|].
  apply (loaded_model_prob_is_unigram_backoff 10 None lmath_centi scenario_bowt 0).
  - vm_compute; reflexivity.
  - vm_compute; reflexivity.
Defined.

(** ** Insertion of an existing node *)



(** ** The dictionary during loading *)

Section loader_invariant.
Context (P : heap → ngram_trie_s → Prop).
Hypothesis P_counts : ∀ σ t n cs, P σ t → P σ (set_counts t n cs).
Hypothesis P_line :
  ∀ fuel σ t buf n lh σ' t' lh' node,
    P σ t → add_ngram_line fuel σ t buf n lh = Some (σ', t', lh', node) → P σ' t'.

Lemma read_ngrams_loop_keeps fuel n (li : list string) :
  ∀ σ t lh r σ' t' li',
    P σ t → read_ngrams_loop fuel li σ t n lh = Some (r, σ', t', li') → P σ' t'.
Proof.
  induction li as [|buf rest IH]; intros σ t lh r σ' t' li' HP; cbn [read_ngrams_loop].
  - by intros [= <- <- <- <-].
  - destruct (strlen _ =? 0); [by apply IH|].
    destruct (strcmp _ _ =? 0); [by intros [= <- <- <- <-]|].
    assert (Hline :
      (add_ngram_line fuel σ t (string_trim buf) n lh
         ≫= λ '(σ1, t1, lh1, node),
              match node with
              | Some _ => read_ngrams_loop fuel rest σ1 t1 n lh1
              | None => Some (-1, σ1, t1, string_trim buf :: rest)
              end) = Some (r, σ', t', li') → P σ' t').
    { destruct (add_ngram_line _ _ _ _ _ _) as [[[[σ1 t1] lh1] node]|] eqn:A;
        [|discriminate]. osimpl.
      pose proof (P_line _ _ _ _ _ _ _ _ _ _ HP A) as HP1.
      destruct node; [by apply IH|by intros [= <- <- <- <-]]. }
    destruct (string_trim buf) as [|c tl] eqn:Eb; [exact Hline|].
    destruct (Ascii.eqb_spec c "\"%char) as [->|Hc].
    + destruct (negb _); [by intros [= <- <- <- <-]|].
      destruct (negb _); [by intros [= <- <- <- <-]|].
      destruct (n <? atoi tl); [by intros [= <- <- <- <-]|].
      by apply IH.
    + revert Hline. destruct c as [[] [] [] [] [] [] [] []]; done.
Qed.

Lemma read_all_ngrams_keeps fuel (rounds : nat) :
  ∀ σ t li n r σ' t' li',
    P σ t → read_all_ngrams rounds fuel σ t li n = Some (r, σ', t', li') → P σ' t'.
Proof.
  induction rounds as [|rounds IH]; intros σ t li n r σ' t' li' HP; [discriminate|].
  cbn [read_all_ngrams]. unfold read_ngrams.
  destruct (read_ngrams_loop _ _ _ _ _ _) as [[[[n1 σ1] t1] li1]|] eqn:R; [|discriminate].
  osimpl. pose proof (read_ngrams_loop_keeps _ _ _ _ _ _ _ _ _ _ HP R) as HP1.
  destruct (1 <? n1); [by apply IH|by intros [= <- <- <- <-]].
Qed.

Lemma read_arpa_keeps fuel (σ : heap) t arpafile r σ' t' :
  P σ t → ngram_trie_read_arpa fuel σ t arpafile = Some (r, σ', t') → P σ' t'.
Proof.
  intros HP. unfold ngram_trie_read_arpa.
  destruct (skip_arpa_header _) as [st li].
  destruct (st <? 0); [by intros [= <- <- <-]|].
  destruct (read_ngram_counts li (counts t)) as [[[n cs] li1]|]; [|discriminate].
  osimpl. pose proof (P_counts σ t n cs HP) as HP'.
  destruct (n <? 0); [by intros [= <- <- <-]|].
  destruct li1 as [|l li1]; [discriminate|].
  destruct (read_all_ngrams _ _ _ _ _ _) as [[[[n1 σ1] t1] li2]|] eqn:R; [|discriminate].
  osimpl. pose proof (read_all_ngrams_keeps _ _ _ _ _ _ _ _ _ _ HP' R) as HP1.
destruct li2 as [|l2 li2]; [discriminate|].
  destruct (n1 <? 0); by intros [= <- <- <-].
Qed.
End loader_invariant.

Lemma dict_find_bad s ws :
  ∀ i, 0 ≤ i → dict_find s ws i = BAD_S3WID → s ∉ ws.
Proof.
  induction ws as [|x ws IH]; intros i Hi; cbn [dict_find]; [intros _; apply not_elem_of_nil|].
  destruct (String.eqb_spec x s) as [->|Hne].
  - unfold BAD_S3WID. lia.
  - intros H [->|Hin]%elem_of_cons; [done|]. by apply (IH (i + 1) ltac:(lia) H).
Qed.

(** X27: the loader leaves a dictionary that the caller supplied as it
    is, whatever the file holds; a dictionary that is generated from the
    file never holds a word twice. *)
Theorem loader_keeps_supplied_dictionary (fuel : nat) (d : option dict_t)
    (lm : logmath_t) (arpafile : list string) (rc : Z) (σ : heap)
    (t : ngram_trie_s) :
  load_arpa fuel d lm arpafile = Some (rc, σ, t) →
  match d with
  | Some d0 => dict_words (dict t) = dict_words d0 ∧ gendict t = false
  | None => NoDup (dict_words (dict t)) ∧ gendict t = true
  end.
Proof.
  unfold load_arpa.
  destruct (ngram_trie_init ∅ d lm) as [[σ0 t0]|] eqn:Hinit; [|discriminate].
  osimpl. intros R.
  set (P := λ (_ : heap) (t : ngram_trie_s),
         match d with
         | Some d0 => dict_words (dict t) = dict_words d0 ∧ gendict t = false
         | None => NoDup (dict_words (dict t)) ∧ gendict t = true
         end).
  apply (read_arpa_keeps P) with (fuel := fuel) (σ := σ0) (t := t0)
    (arpafile := arpafile) (r := rc) (σ' := σ); [done| | |done].
  - clear. intros fuel σ t buf n lh σ' t' lh' node HP. unfold add_ngram_line.
    destruct (_ <? Z.of_nat _); [discriminate|].
    destruct (_ <? _); [by intros [= <- <- <- <-]|].
    destruct (str2words buf !! 0%nat) as [w0|]; [|discriminate]. osimpl.
    destruct (if _ =? _ then _ else _) as [bowt|]; [|discriminate]. osimpl.
    destruct (str2words buf !! Z.to_nat n) as [wn|]; [|discriminate]. osimpl.
    set (head := if dict_wordid (dict t) wn =? BAD_S3WID then _ else _).
    assert (Hhead : ∀ t1 wid0, head = Some (t1, wid0) → P σ t1).
    { subst head. intros t1 wid0.
      destruct (Z.eqb_spec (dict_wordid (dict t) wn) BAD_S3WID) as [E|_];
        [|by intros [= <- _]].
      destruct (gendict t) eqn:G; [|discriminate]. cbn [dict_add_word].
      intros [= <- _]. unfold P in *. destruct d as [d0|]; [destruct HP; congruence|].
      destruct HP as [Hnd _]. split; [|done]. cbn [set_dict dict dict_words].
      apply NoDup_app. split; [done|]. split; [|apply NoDup_singleton].
      intros x Hx [->|Hx']%elem_of_cons; [|by apply elem_of_nil in Hx'].
      by apply (dict_find_bad wn (dict_words (dict t)) 0 ltac:(lia) E). }
    destruct head as [[t1 wid0]|]; [|by intros [= <- <- <- <-]].
    specialize (Hhead t1 wid0 eq_refl).
    destruct (hist_wids _ _ _ _ _) as [[hw|]|]; osimpl; [| |discriminate].
    2: { by intros [= <- <- <- <-]. }
    destruct (if n =? 1 then _ else _) as [[h|]|]; osimpl; [| |discriminate].
    2: { by intros [= <- <- <- <-]. }
    destruct (ngram_trie_add_successor σ t1 h wid0) as [[σ1 ng]|]; [|discriminate].
    osimpl. destruct (σ1 !! ng) as [nd|]; [|discriminate]. osimpl.
    by intros [= <- <- <- <-].
  - revert Hinit. unfold ngram_trie_init, ngram_trie_node_alloc.
    destruct d as [d0|]; destruct (init_shift_loop _ _ _) as [[z s]|]; try discriminate;
      osimpl; intros [= <- <-]; unfold P; cbn [dict gendict dict_retain dict_init dict_words].
    + done.
    + split; [constructor|done].
Qed.

Lemma loader_keeps_supplied_dictionary_witness :
  ∃ rc σ t,
    load_arpa 10 (Some dict_a) lmath_centi arpa_unknown_unigram = Some (rc, σ, t) ∧
    dict_words (dict t) = dict_words dict_a ∧ gendict t = false.
Proof.
  eexists _, _, _. split; [vm_compute; reflexivity|].
  eapply (loader_keeps_supplied_dictionary 10 (Some dict_a) lmath_centi
            arpa_unknown_unigram).
  vm_compute; reflexivity.
Defined.

(** ** Unigram queries on loaded models *)

Lemma load_arpa_sorted fuel (d : option dict_t) (lm : logmath_t)
    arpafile rc σ t :
  load_arpa fuel d lm arpafile = Some (rc, σ, t) → trie_inv σ t.
Proof.
  unfold load_arpa.
  destruct (ngram_trie_init ∅ d lm) as [[σ0 t0]|] eqn:Hinit; [|discriminate].
  osimpl. intros R.
  assert (words_known σ0 t0) as W0.
  { revert Hinit. unfold ngram_trie_init, ngram_trie_node_alloc.
    destruct d; destruct (init_shift_loop _ _ _) as [[z s]|]; try discriminate;
      osimpl; intros [= <- <-]; intros p nd;
      (destruct (decide (p = listelem_malloc ∅)) as [->|Hne];
        [rewrite lookup_insert_eq; intros [= <-]; cbn [word]; lia
        |rewrite lookup_insert_ne, lookup_empty by done; discriminate]). }
  by destruct (read_arpa_sorted _ _ _ _ _ _ _ (init_inv _ _ _ _ Hinit) W0 R).
Qed.

(** X28: in a loaded model whose unigrams have pairwise different
    surface forms, every stored unigram is found under its own word: the
    lookup with the empty history returns the node, and the query returns
    its stored probability, shifted back. *)
Theorem loaded_unigram_is_found (fuel0 : nat) (d : option dict_t)
    (lm : logmath_t) (arpafile : list string) (rc : Z) (σ : heap)
    (t : ngram_trie_s) (rn cn : ngram_trie_node_s) (c : positive)
    (ks : list string) (fuel : nat) (hist : list Z) :
  load_arpa fuel0 d lm arpafile = Some (rc, σ, t) →
  σ !! root t = Some rn →
  succ_wordstrs σ t (successors rn) = Some ks →
  NoDup ks →
  c ∈ successors rn →
  σ !! c = Some cn →
  ngram_trie_ngram_v (S fuel) σ t (word cn) hist 0 = Some (Some c) ∧
  ngram_trie_prob_v (S (S fuel)) σ t None (word cn) hist 0
  = Some (wrap32 (Z.shiftl (log_prob cn) (shift t)), None).
Proof.
  intros Hload Hroot Hks Hnd Hc Hcn.
  pose proof (load_arpa_sorted _ _ _ _ _ _ _ Hload) as Inv.
  pose proof (successor_finds_child_inv σ t (root t) c rn cn ks Inv Hroot Hks Hnd Hc Hcn)
    as Hs.
  assert (ngram_trie_ngram_v (S fuel) σ t (word cn) hist 0 = Some (Some c)) as Hv
    by (by rewrite ngram_v_empty_history).
  split; [done|]. cbn [ngram_trie_prob_v store_n_used]. rewrite Hv. osimpl.
  by rewrite Hcn.
Qed.

Lemma loaded_unigram_is_found_witness :
  ∃ σ t rn cn,
    load_arpa 10 None lmath_centi scenario_A = Some (0, σ, t) ∧
    σ !! root t = Some rn ∧
    σ !! 3%positive = Some cn ∧
    node_wordstr σ t 3 = Some "b" ∧
    ngram_trie_ngram_v 1 σ t (word cn) [] 0 = Some (Some 3%positive) ∧
    ngram_trie_prob_v 2 σ t None (word cn) [] 0
    = Some (wrap32 (Z.shiftl (log_prob cn) (shift t)), None).
Proof.
  eexists _, _, _, _.
  split; [vm_compute; reflexivity|]. split; [vm_compute; reflexivity|].
  split; [vm_compute; reflexivity|]. split; [vm_compute; reflexivity|].
  eapply (loaded_unigram_is_found 10 None lmath_centi scenario_A 0 _ _ _ _
            3%positive ["<unk>"; "a"; "b"] 0 []).
  - vm_compute; reflexivity.
  - vm_compute; reflexivity.
  - vm_compute; reflexivity.
  - apply (bool_decide_unpack _). vm_compute. reflexivity.
  - apply (bool_decide_unpack _). vm_compute. reflexivity.
  - vm_compute; reflexivity.
Defined.

(** ** The counts section *)

Lemma counts_put_length (cs : list Z) ni ci :
  (length cs ≤ length (counts_put cs ni ci))%nat.
Proof.
  unfold counts_put. rewrite length_insert, length_app, length_replicate. lia.
Qed.

Lemma strlen_zero s : strlen s = 0 ↔ s = "".
Proof.
  unfold strlen. destruct s; [done|]. cbn [String.length]. split; [lia|discriminate].
Qed.

Lemma read_ngram_counts_loop_spec :
  ∀ li cs n cs' li',
    (1 ≤ length cs)%nat →
    read_ngram_counts_loop li cs = Some (n, cs', li') →
    ∃ pre,
      map string_trim li = (pre ++ map string_trim li')%list ∧
      Forall (λ l, l ≠ "" ∧ bad_count_line l = false) pre ∧
      ((n = -1 ∧ ∃ l rest, li' = l :: rest ∧ l ≠ "" ∧ bad_count_line l = true) ∨
       (n = Z.of_nat (length cs') - 1 ∧ 0 ≤ n ∧
        (li' = [] ∨ ∃ rest, li' = "" :: rest))).
Proof.
  induction li as [|buf rest IH]; intros cs n cs' li' Hcs; cbn [read_ngram_counts_loop].
  - intros [= <- <- <-]. exists []. split; [done|]. split; [constructor|].
    right. split; [done|]. split; [lia|]. by left.
  - assert (Hstop : ∀ x, Some (x, cs, string_trim buf :: rest) = Some (n, cs', li') →
              li' = string_trim buf :: rest ∧ cs' = cs ∧ n = x ∧
              map string_trim (buf :: rest) = ([] ++ map string_trim li')%list).
    { intros x [= <- <- <-]. by rewrite map_trim_head. }
    assert (Hrec : ∀ cs0, (1 ≤ length cs0)%nat →
              string_trim buf ≠ "" → bad_count_line (string_trim buf) = false →
              read_ngram_counts_loop rest cs0 = Some (n, cs', li') →
              ∃ pre,
                map string_trim (buf :: rest) = (pre ++ map string_trim li')%list ∧
                Forall (λ l, l ≠ "" ∧ bad_count_line l = false) pre ∧
                ((n = -1 ∧ ∃ l rest, li' = l :: rest ∧ l ≠ "" ∧ bad_count_line l = true) ∨
                 (n = Z.of_nat (length cs') - 1 ∧ 0 ≤ n ∧
                  (li' = [] ∨ ∃ rest, li' = "" :: rest)))).
    { intros cs0 Hcs0 Hne Hok H. destruct (IH _ _ _ _ Hcs0 H) as (pre & Hmap & Hpre & Hres).
      exists (string_trim buf :: pre). cbn [map app]. rewrite Hmap.
      split; [done|]. split; [by constructor|done]. }
    destruct (Z.eqb_spec (strlen (string_trim buf)) 0) as [E|E].
    { intros H. destruct (Hstop _ H) as (-> & -> & -> & Hmap).
      apply strlen_zero in E. exists []. split; [done|]. split; [constructor|].
      right. split; [done|]. split; [lia|]. right. exists rest. by rewrite E. }
    assert (string_trim buf ≠ "") as Hne by (intros E'; apply E; by apply strlen_zero).
    unfold bad_count_line in *.
    destruct (String.prefix "ngram " (string_trim buf)) eqn:Hp; [|by apply Hrec].
    destruct (strchr_split _ _) as [[a b]|] eqn:Hsplit.
    2: { intros H. destruct (Hstop _ H) as (-> & -> & -> & Hmap).
         exists []. split; [done|]. split; [constructor|]. left. split; [done|].
         exists (string_trim buf), rest. by rewrite Hp, Hsplit. }
    destruct (strlen b =? 0) eqn:Hb.
    { intros H. destruct (Hstop _ H) as (-> & -> & -> & Hmap).
      exists []. split; [done|]. split; [constructor|]. left. split; [done|].
      exists (string_trim buf), rest. by rewrite Hp, Hsplit, Hb. }
    destruct (atoi a <? 0); [discriminate|].
    apply Hrec; [|done|done].
    pose proof (counts_put_length cs (atoi a) (atoi b)). lia.
Qed.

(** X29: [read_ngram_counts] reads on to the first line that is empty,
    the white space around it being trimmed, or is a count line it
    refuses, one that starts with [ngram ] and has no [=] or nothing after
    it, or to the end of the input.  It returns -1 exactly when it stops
    on a refused count line; otherwise it returns the size of the counts
    array minus one, which is not negative.  The iterator stays on the
    line where it stopped. *)
Theorem read_ngram_counts_result (li : list string) (cs : list Z) (n : Z)
    (cs' : list Z) (li' : list string) :
  read_ngram_counts li cs = Some (n, cs', li') →
  ∃ pre,
    map string_trim li = (pre ++ map string_trim li')%list ∧
    Forall (λ l, l ≠ "" ∧ bad_count_line l = false) pre ∧
    ((n = -1 ∧ ∃ l rest, li' = l :: rest ∧ l ≠ "" ∧ bad_count_line l = true) ∨
     (n = Z.of_nat (length cs') - 1 ∧ 0 ≤ n ∧
      (li' = [] ∨ ∃ rest, li' = "" :: rest))).
Proof.
  unfold read_ngram_counts. intros H.
  eapply read_ngram_counts_loop_spec; [|exact H]. cbn. lia.
Qed.

Lemma read_ngram_counts_result_witness :
  ∃ cs' li',
    read_ngram_counts scenario_A [7; 7; 7; 7] = Some (2, cs', li') ∧
    ∃ pre,
      map string_trim scenario_A = (pre ++ map string_trim li')%list ∧
      Forall (λ l, l ≠ "" ∧ bad_count_line l = false) pre ∧
      ((2 = -1 ∧ ∃ l rest, li' = l :: rest ∧ l ≠ "" ∧ bad_count_line l = true) ∨
       (2 = Z.of_nat (length cs') - 1 ∧ 0 ≤ 2 ∧
        (li' = [] ∨ ∃ rest, li' = "" :: rest))).
Proof.
  eexists _, _.
  match goal with
  | |- ?H ∧ _ => assert (Hr : H) by (vm_compute; reflexivity)
  end.
  split; [exact Hr|]. exact (read_ngram_counts_result _ _ _ _ _ Hr).
Defined.
